(** * EGNN: a shallow embedding of [combined/egnn.py]

    The three classes of the module, [RFF], [EGNNLayer] and [EGNN_Full], are
    embedded each in a module of its name: a record [t] for the object, [init]
    for the constructor and the methods under their own names.  Tensors are two-dimensional and carry their column count, so a
    tensor with no row still has a width, as in torch.  Calls that raise in
    Python return [Err]; methods that assign attributes return the updated
    object next to their result, and the functions named [after] give the
    object a call leaves behind, whether it returned or raised.

    The scalar type is left abstract (class [Scalar]): every statement below
    holds for whatever arithmetic the tensors are computed with.  The tensor
    library (torch) and the graph library (torch_geometric) are not part of
    the repository; the operations the module calls are written out here with
    the behaviour their documentation gives. *)

From stdpp Require Import base option list strings gmap.
From Stdlib Require Import ZArith.

Set Default Proof Using "Type".

(** ** Errors raised by the substrate *)

Inductive Error : Type :=
  | KeyError (key : string)      (* failed dictionary lookup *)
  | TypeError                    (* operand of the wrong type, e.g. None *)
  | RuntimeError                 (* sizes that do not match, and the like *)
  | IndexError                   (* index out of range *)
  | ValueError                   (* e.g. batch norm on a single row in training *)
  | AttributeError.              (* attribute missing on the object *)

Inductive Result (A : Type) : Type :=
  | Ok (a : A)
  | Err (e : Error).
Arguments Ok {A} a.
Arguments Err {A} e.

#[global] Instance Result_ret : MRet Result := fun A a => Ok a.
#[global] Instance Result_bind : MBind Result := fun A B f m =>
  match m with
  | Ok a => f a
  | Err e => Err e
  end.
#[global] Instance Result_fmap : FMap Result := fun A B f m =>
  match m with
  | Ok a => Ok (f a)
  | Err e => Err e
  end.

Definition guard_shape (b : bool) : Result unit :=
  if b then Ok tt else Err RuntimeError.

(** ** Scalars *)

(** The arithmetic the tensor library supplies.  [s_eps] and [s_momentum]
    are the defaults of the normalisation modules (1e-5 and 0.1). *)
Class Scalar (R : Type) : Type := {
  s_zero : R;
  s_add : R -> R -> R;
  s_sub : R -> R -> R;
  s_mul : R -> R -> R;
  s_div : R -> R -> R;
  s_sqrt : R -> R;
  s_sin : R -> R;
  s_cos : R -> R;
  s_sigmoid : R -> R;
  s_relu : R -> R;
  s_min : R -> R -> R;
  s_max : R -> R -> R;
  s_of_nat : nat -> R;
  s_eps : R;
  s_momentum : R
}.

(** ** Tensors *)

Record Tensor2 (R : Type) : Type := mkTensor {
  ncols : nat;
  rows : list (list R)
}.
Arguments mkTensor {R} ncols rows.
Arguments ncols {R} t.
Arguments rows {R} t.

Definition nrows {R} (t : Tensor2 R) : nat := length (rows t).
Definition shape {R} (t : Tensor2 R) : nat * nat := (nrows t, ncols t).

(** Every row has as many entries as the tensor has columns. *)
Definition tensor_wf {R} (t : Tensor2 R) : Prop :=
  Forall (fun r => length r = ncols t) (rows t).

(** [edge_index]: a [2, E] integer tensor, one (row, col) pair per edge. *)
Abbreviation EdgeIndex := (list (nat * nat)).

(** Sizes that broadcast together: equal, or one of them is 1. *)
Definition bdim (a b : nat) : Result nat :=
  if decide (a = b) then Ok a
  else if decide (a = 1) then Ok b
  else if decide (b = 1) then Ok a
  else Err RuntimeError.

(** [expand from to d l]: a list of size [from] expanded to size [to]. *)
Definition expand {A} (from to : nat) (d : A) (l : list A) : list A :=
  if decide (from = to) then l else replicate to (default d (head l)).

Section Tensors.
Context {R : Type} `{Scalar R}.

Definition s_one : R := s_of_nat 1.

Definition vsum (v : list R) : R := foldr s_add s_zero v.
Definition dot (u v : list R) : R := vsum (zip_with s_mul u v).
Definition vmean (v : list R) : R := s_div (vsum v) (s_of_nat (length v)).
Definition vvar (v : list R) : R :=
  let mu := vmean v in
  vmean ((fun a => s_mul (s_sub a mu) (s_sub a mu)) <$> v).

Definition zeros (n c : nat) : Tensor2 R :=
  mkTensor c (replicate n (replicate c s_zero)).

Definition tmap (f : R -> R) (t : Tensor2 R) : Tensor2 R :=
  mkTensor (ncols t) ((fun r : list R => f <$> r) <$> rows t).

Definition expand_tensor (n c : nat) (t : Tensor2 R) : list (list R) :=
  expand (nrows t) n [] (expand (ncols t) c s_zero <$> rows t).

(** Element-wise binary operation with broadcasting, [a + b] and the like. *)
Definition broadcast2 (f : R -> R -> R) (a b : Tensor2 R) : Result (Tensor2 R) :=
  n ← bdim (nrows a) (nrows b);
  c ← bdim (ncols a) (ncols b);
  Ok (mkTensor c (zip_with (zip_with f) (expand_tensor n c a) (expand_tensor n c b))).

Definition tensor_add : Tensor2 R -> Tensor2 R -> Result (Tensor2 R) :=
  broadcast2 s_add.
Definition tensor_sub : Tensor2 R -> Tensor2 R -> Result (Tensor2 R) :=
  broadcast2 s_sub.

(** [torch.where(mask.unsqueeze(-1), a, b)]: the condition has shape
    [M, 1], so a whole row is taken from [a] or from [b]. *)
Definition where_rows (mask : list bool) (a b : Tensor2 R) : Result (Tensor2 R) :=
  n0 ← bdim (length mask) (nrows a);
  n ← bdim n0 (nrows b);
  c ← bdim (ncols a) (ncols b);
  Ok (mkTensor c
        (zip_with (fun (m : bool) (ab : list R * list R) => if m then ab.1 else ab.2)
           (expand (length mask) n false mask)
           (zip (expand_tensor n c a) (expand_tensor n c b)))).

(** [t[idx]] and [t.index_select(0, idx)]: rows gathered by index. *)
Fixpoint index_select (t : list (list R)) (idx : list nat) : Result (list (list R)) :=
  match idx with
  | [] => Ok []
  | i :: idx' =>
      match t !! i with
      | Some r => rs ← index_select t idx'; Ok (r :: rs)
      | None => Err IndexError
      end
  end.

Definition gather (t : Tensor2 R) (idx : list nat) : Result (Tensor2 R) :=
  rs ← index_select (rows t) idx; Ok (mkTensor (ncols t) rs).

(** [torch.cat([a, b], dim=-1)]. *)
Definition cat_cols (a b : Tensor2 R) : Result (Tensor2 R) :=
  _ ← guard_shape (bool_decide (nrows a = nrows b));
  Ok (mkTensor (ncols a + ncols b) (zip_with app (rows a) (rows b))).

(** [torch.norm(t, dim=-1).unsqueeze(1)]. *)
Definition norm_rows (t : Tensor2 R) : Tensor2 R :=
  mkTensor 1 ((fun r : list R => [s_sqrt (vsum ((fun a => s_mul a a) <$> r))]) <$> rows t).

(** [F.linear(x, W, b)]: [x . W^T + b], the bias optional. *)
Definition F_linear (x W : Tensor2 R) (b : option (list R)) : Result (Tensor2 R) :=
  _ ← guard_shape (bool_decide (ncols x = ncols W));
  _ ← guard_shape (from_option (fun b : list R => bool_decide (length b = nrows W)) true b);
  Ok (mkTensor (nrows W)
        ((fun xr : list R =>
            let y := (fun wr : list R => dot xr wr) <$> rows W in
            match b with
            | Some b => zip_with s_add y b
            | None => y
            end) <$> rows x)).

(** *** Scatter (torch_geometric.utils.scatter along dimension 0)

    For the sum, [out] starts as zeros of shape [dim_size, ncols src] and
    row [k] of [src] is added to row [index[k]] of [out]; for the mean the
    sum is divided by the number of rows received, clamped below by one.
    The minimum and the maximum are taken over the rows received alone
    ([include_self=False]), a row of [out] that receives nothing staying
    zero.  The product starts from ones and multiplies the rows received
    into them, so that a row of [out] that receives nothing stays one. *)

Inductive Reduce : Type :=
  reduce_sum | reduce_mean | reduce_min | reduce_max | reduce_mul.

Definition vadd (u v : list R) : list R := zip_with s_add u v.

Fixpoint scatter_add (out : list (list R)) (index : list nat) (src : list (list R))
  : Result (list (list R)) :=
  match index, src with
  | [], [] => Ok out
  | i :: index', r :: src' =>
      if decide (i < length out)
      then scatter_add (alter (fun o => vadd o r) i out) index' src'
      else Err IndexError
  | _, _ => Err RuntimeError
  end.

(** [scatter_reduce_] on rows that are either untouched ([None]) or hold a
    value: the row received is combined with the value, or becomes it. *)
Fixpoint scatter_select (op : R -> R -> R) (out : list (option (list R)))
    (index : list nat) (src : list (list R)) : Result (list (option (list R))) :=
  match index, src with
  | [], [] => Ok out
  | i :: index', r :: src' =>
      if decide (i < length out)
      then scatter_select op
             (alter (fun o => Some (from_option (fun o' : list R => zip_with op o' r) r o))
                i out)
             index' src'
      else Err IndexError
  | _, _ => Err RuntimeError
  end.

Definition count_index (index : list nat) (v : nat) : nat :=
  length (filter (fun i => i = v) index).

(** The index vector is expanded to the rows of [src]: same length, or a
    single index that every row then uses. *)
Definition expand_as (index : list nat) (n : nat) : Result (list nat) :=
  if decide (length index = n) then Ok index
  else match index with
       | [i] => Ok (replicate n i)
       | _ => Err RuntimeError
       end.

Definition scatter (reduce : Reduce) (src : Tensor2 R) (index : list nat) (dim_size : nat)
  : Result (Tensor2 R) :=
  index ← expand_as index (nrows src);
  match reduce with
  | reduce_sum =>
      out ← scatter_add (rows (zeros dim_size (ncols src))) index (rows src);
      Ok (mkTensor (ncols src) out)
  | reduce_mean =>
      out ← scatter_add (rows (zeros dim_size (ncols src))) index (rows src);
      Ok (mkTensor (ncols src)
            (imap (fun v (r : list R) =>
                     (fun a => s_div a (s_of_nat (count_index index v `max` 1))) <$> r)
                  out))
  | reduce_min =>
      out ← scatter_select s_min (replicate dim_size None) index (rows src);
      Ok (mkTensor (ncols src) (default (replicate (ncols src) s_zero) <$> out))
  | reduce_max =>
      out ← scatter_select s_max (replicate dim_size None) index (rows src);
      Ok (mkTensor (ncols src) (default (replicate (ncols src) s_zero) <$> out))
  | reduce_mul =>
      out ← scatter_select s_mul
              (replicate dim_size (Some (replicate (ncols src) s_one))) index (rows src);
      Ok (mkTensor (ncols src) (default (replicate (ncols src) s_one) <$> out))
  end.

(** *** Graph readout (torch_geometric.nn.global_add_pool, global_mean_pool)

    Without a batch vector all nodes belong to one graph; with one, the rows
    are scattered to their graphs, the number of graphs being
    [batch.max() + 1], and 0 for an empty vector. *)

Inductive Pool : Type := global_mean_pool | global_add_pool.

Definition pool_reduce (p : Pool) : Reduce :=
  match p with
  | global_mean_pool => reduce_mean
  | global_add_pool => reduce_sum
  end.

Definition num_graphs (batch : list nat) : nat :=
  match batch with
  | [] => 0
  | _ => S (foldr Nat.max 0 batch)
  end.

Definition global_pool (pool : Pool) (x : Tensor2 R) (batch : option (list nat))
  : Result (Tensor2 R) :=
  match batch with
  | None =>
      let total := foldl vadd (replicate (ncols x) s_zero) (rows x) in
      match pool with
      | global_add_pool => Ok (mkTensor (ncols x) [total])
      | global_mean_pool =>
          Ok (mkTensor (ncols x) [(fun a => s_div a (s_of_nat (nrows x))) <$> total])
      end
  | Some b => scatter (pool_reduce pool) x b (num_graphs b)
  end.

End Tensors.

(** ** Neural-network modules (torch.nn) *)

Section Modules.
Context {R : Type} `{Scalar R}.

(** Values of parameters and buffers, addressed by a path inside the module
    tree, then by row and column.  torch draws them at construction and an
    optimizer rewrites them later; the constructors below fix the shapes and
    read the values from the source, so that statements over every source
    cover both. *)
Definition Params : Type := list nat -> nat -> nat -> R.

Definition child (k : nat) (θ : Params) : Params := fun p => θ (k :: p).

Definition tabulate {A} (n : nat) (f : nat -> A) : list A := f <$> seq 0 n.

Definition tensor_of (θ : Params) (k n c : nat) : Tensor2 R :=
  mkTensor c (tabulate n (fun i => tabulate c (fun j => θ [k] i j))).

Definition vector_of (θ : Params) (k n : nat) : list R :=
  tabulate n (fun j => θ [k] 0 j).

(** nn.Linear(in_features, out_features): weight [out, in], bias [out]. *)
Record Linear : Type := mkLinear {
  weight : Tensor2 R;
  bias : list R
}.

Definition in_features (l : Linear) : nat := ncols (weight l).
Definition out_features (l : Linear) : nat := nrows (weight l).

Definition Linear_init (θ : Params) (n_in n_out : nat) : Linear :=
  mkLinear (tensor_of θ 0 n_out n_in) (vector_of θ 1 n_out).

Definition Linear_forward (l : Linear) (x : Tensor2 R) : Result (Tensor2 R) :=
  F_linear x (weight l) (Some (bias l)).

(** Scale and shift by the affine parameters of a normalisation. *)
Definition affine (gamma beta : list R) (y : list R) : list R :=
  zip_with s_add (zip_with s_mul y gamma) beta.

(** nn.LayerNorm(d): each row normalised by its own mean and variance. *)
Record LayerNorm : Type := mkLayerNorm {
  ln_shape : nat;
  ln_weight : list R;
  ln_bias : list R;
  ln_eps : R
}.

Definition LayerNorm_init (θ : Params) (d : nat) : LayerNorm :=
  mkLayerNorm d (vector_of θ 0 d) (vector_of θ 1 d) s_eps.

Definition LayerNorm_forward (ln : LayerNorm) (x : Tensor2 R) : Result (Tensor2 R) :=
  _ ← guard_shape (bool_decide (ncols x = ln_shape ln));
  Ok (mkTensor (ncols x)
        ((fun r : list R =>
            let mu := vmean r in
            let sd := s_sqrt (s_add (vvar r) (ln_eps ln)) in
            affine (ln_weight ln) (ln_bias ln) ((fun a => s_div (s_sub a mu) sd) <$> r))
           <$> rows x)).

(** nn.BatchNorm1d(d): each column normalised by the batch statistics in
    training mode (which also moves the running statistics), by the running
    statistics otherwise. *)
Record BatchNorm1d : Type := mkBatchNorm1d {
  bn_features : nat;
  bn_weight : list R;
  bn_bias : list R;
  running_mean : list R;
  running_var : list R;
  num_batches_tracked : nat;
  bn_eps : R;
  bn_momentum : R;
  bn_training : bool
}.

Definition BatchNorm1d_init (θ : Params) (d : nat) : BatchNorm1d :=
  mkBatchNorm1d d (vector_of θ 0 d) (vector_of θ 1 d) (vector_of θ 2 d) (vector_of θ 3 d)
    0 s_eps s_momentum true.

Definition column (x : Tensor2 R) (j : nat) : list R :=
  (fun r : list R => default s_zero (r !! j)) <$> rows x.

Definition bn_normalise (bn : BatchNorm1d) (mean var : list R) (x : Tensor2 R) : Tensor2 R :=
  mkTensor (ncols x)
    ((fun r : list R =>
        affine (bn_weight bn) (bn_bias bn)
          (zip_with (fun a (mv : R * R) => s_div (s_sub a mv.1) (s_sqrt (s_add mv.2 (bn_eps bn))))
             r (zip mean var)))
       <$> rows x).

Definition lerp (m : R) (old new : R) : R :=
  s_add (s_mul (s_sub s_one m) old) (s_mul m new).

(** [self.num_batches_tracked.add_(1)], the first thing a batch norm in
    training mode does. *)
Definition bn_tracked (bn : BatchNorm1d) : BatchNorm1d :=
  mkBatchNorm1d (bn_features bn) (bn_weight bn) (bn_bias bn)
    (running_mean bn) (running_var bn) (S (num_batches_tracked bn))
    (bn_eps bn) (bn_momentum bn) (bn_training bn).

(** In training mode the batch size is verified before the width is.  (On a
    batch without rows torch skips the width check; the networks of this
    module put a Linear of that width before every batch norm, which checks
    it.) *)
Definition BatchNorm1d_forward (bn : BatchNorm1d) (x : Tensor2 R)
  : Result (Tensor2 R * BatchNorm1d) :=
  if bn_training bn then
    let n := nrows x in
    if decide (n = 1) then Err ValueError
    else
      _ ← guard_shape (bool_decide (ncols x = bn_features bn));
      let tracked := bn_tracked bn in
      if decide (n = 0) then Ok (x, tracked)
      else
        let cols := column x <$> seq 0 (ncols x) in
        let mean := vmean <$> cols in
        let var := vvar <$> cols in
        let unbiased :=
          (fun v => s_div (s_mul v (s_of_nat n)) (s_of_nat (n - 1))) <$> var in
        Ok (bn_normalise bn mean var x,
            mkBatchNorm1d (bn_features bn) (bn_weight bn) (bn_bias bn)
              (zip_with (lerp (bn_momentum bn)) (running_mean bn) mean)
              (zip_with (lerp (bn_momentum bn)) (running_var bn) unbiased)
              (S (num_batches_tracked bn))
              (bn_eps bn) (bn_momentum bn) (bn_training bn))
  else
    _ ← guard_shape (bool_decide (ncols x = bn_features bn));
    Ok (bn_normalise bn (running_mean bn) (running_var bn) x, bn).

(** The module after the call, whether the call returned or raised: the
    counter of a batch norm in training mode has moved either way. *)
Definition BatchNorm1d_after (bn : BatchNorm1d) (x : Tensor2 R) : BatchNorm1d :=
  match BatchNorm1d_forward bn x with
  | Ok (_, bn') => bn'
  | Err _ => if bn_training bn then bn_tracked bn else bn
  end.

(** The modules a Sequential of this repository holds. *)
Inductive NNModule : Type :=
  | mLinear (l : Linear)
  | mLayerNorm (ln : LayerNorm)
  | mBatchNorm1d (bn : BatchNorm1d)
  | mIdentity
  | mReLU
  | mSiLU.

Definition silu (a : R) : R := s_mul a (s_sigmoid a).

Definition NNModule_forward (m : NNModule) (x : Tensor2 R) : Result (Tensor2 R * NNModule) :=
  match m with
  | mLinear l => y ← Linear_forward l x; Ok (y, m)
  | mLayerNorm ln => y ← LayerNorm_forward ln x; Ok (y, m)
  | mBatchNorm1d bn => '(y, bn') ← BatchNorm1d_forward bn x; Ok (y, mBatchNorm1d bn')
  | mIdentity => Ok (x, m)
  | mReLU => Ok (tmap s_relu x, m)
  | mSiLU => Ok (tmap silu x, m)
  end.

(** nn.Sequential: the modules applied in order. *)
Fixpoint Sequential_forward (s : list NNModule) (x : Tensor2 R)
  : Result (Tensor2 R * list NNModule) :=
  match s with
  | [] => Ok (x, [])
  | m :: s' =>
      '(y, m') ← NNModule_forward m x;
      '(z, s'') ← Sequential_forward s' y;
      Ok (z, m' :: s'')
  end.

(** The modules after the call, whether it returned or raised.  Only a
    batch norm has state a call writes; when a module raises, the modules
    after it have not run. *)
Definition NNModule_after (m : NNModule) (x : Tensor2 R) : NNModule :=
  match m with
  | mBatchNorm1d bn => mBatchNorm1d (BatchNorm1d_after bn x)
  | _ => m
  end.

Fixpoint Sequential_after (s : list NNModule) (x : Tensor2 R) : list NNModule :=
  match s with
  | [] => []
  | m :: s' =>
      match NNModule_forward m x with
      | Ok (y, m') => m' :: Sequential_after s' y
      | Err _ => NNModule_after m x :: s'
      end
  end.

End Modules.

Arguments Params R : clear implicits.
Arguments Linear R : clear implicits.
Arguments LayerNorm R : clear implicits.
Arguments BatchNorm1d R : clear implicits.
Arguments NNModule R : clear implicits.

(** ** class RFF *)

(** Python's [int(n / 2)]: the float quotient truncated.  The quotient is
    exact for every [n] below 2^53, hence for every width a tensor with at
    least one row can have, and there it is the integer quotient. *)
Definition int_truediv2 (n : nat) : nat := n / 2.

Module RFF.
Section defs.
Context {R : Type} `{Scalar R}.

Record t : Type := mk {
  sigma : option R;
  in_features : nat;
  out_features : nat;
  compensation : nat;
  B : Tensor2 R
}.

(** [__init__]: [B] is drawn with [torch.randn] (here read from [θ]),
    scaled by [sigma] and divided by [sqrt 2].  A [sigma] of [None], which
    [EGNNLayer] passes on when only [RFF_dim] is given, makes the product
    raise. *)
Definition init (θ : Params R) (in_features out_features : nat) (sigma : option R)
  : Result t :=
  let compensation := if decide (out_features mod 2 ≠ 0) then 1 else 0 in
  let randn := tensor_of θ 0 (int_truediv2 out_features + compensation) in_features in
  match sigma with
  | None => Err TypeError
  | Some sg =>
      let B := tmap (fun b => s_mul b sg) randn in
      let B := tmap (fun b => s_div b (s_sqrt (s_of_nat 2))) B in
      Ok (mk sigma in_features out_features compensation B)
  end.

(** [x[..., :-1]] *)
Definition drop_last_col (x : Tensor2 R) : Tensor2 R :=
  mkTensor (ncols x - 1) (take (ncols x - 1) <$> rows x).

Definition forward (self : t) (x : Tensor2 R) : Result (Tensor2 R) :=
  x ← F_linear x (B self) None;
  x ← cat_cols (tmap s_sin x) (tmap s_cos x);
  if decide (compensation self ≠ 0) then Ok (drop_last_col x) else Ok x.

End defs.
Arguments t R : clear implicits.
End RFF.

(** ** class EGNNLayer(tg.nn.MessagePassing) *)

Inductive Activation : Type := SiLU | ReLU.
Inductive Norm : Type := LayerNorm_cls | BatchNorm1d_cls | Identity_cls.

(** The aggregation schemes torch_geometric's [MessagePassing] names:
    ["add"], ["sum"], ["mean"], ["min"], ["max"] and ["mul"]; [add] and
    [sum] are both the summation.  The constructor hands [aggr] on as it
    is. *)
Inductive Aggr : Type :=
  aggr_add | aggr_sum | aggr_mean | aggr_min | aggr_max | aggr_mul.

Definition aggr_reduce (a : Aggr) : Reduce :=
  match a with
  | aggr_add | aggr_sum => reduce_sum
  | aggr_mean => reduce_mean
  | aggr_min => reduce_min
  | aggr_max => reduce_max
  | aggr_mul => reduce_mul
  end.

(** [d[key]] on a dictionary with string keys. *)
Definition getitem {A} (d : gmap string A) (key : string) : Result A :=
  match d !! key with
  | Some v => Ok v
  | None => Err (KeyError key)
  end.

Definition activations : gmap string Activation :=
  {[ "swish" := SiLU; "relu" := ReLU ]}.
Definition norms : gmap string Norm :=
  {[ "layer" := LayerNorm_cls; "batch" := BatchNorm1d_cls; "none" := Identity_cls ]}.

Module EGNNLayer.
Section defs.
Context {R : Type} `{Scalar R}.

Record t : Type := mk {
  emb_dim : nat;
  activation : Activation;
  norm : Norm;
  aggr : Aggr;
  RFF_dim : option nat;
  RFF_sigma : option R;
  mask : option (list bool);
  mlp_msg : list (NNModule R);
  mlp_upd : list (NNModule R);
  RFF : option (RFF.t R)          (* the attribute exists when RFF_dim is given *)
}.

Definition activation_module (a : Activation) : NNModule R :=
  match a with
  | SiLU => mSiLU
  | ReLU => mReLU
  end.

(** [self.norm(emb_dim)] *)
Definition norm_module (θ : Params R) (n : Norm) (d : nat) : NNModule R :=
  match n with
  | LayerNorm_cls => mLayerNorm (LayerNorm_init θ d)
  | BatchNorm1d_cls => mBatchNorm1d (BatchNorm1d_init θ d)
  | Identity_cls => mIdentity
  end.

Definition init (θ : Params R) (emb_dim : nat) (activation norm : string) (aggr : Aggr)
    (RFF_dim : option nat) (RFF_sigma : option R) (mask : option (list bool))
  : Result t :=
  act ← getitem activations activation;
  nrm ← getitem norms norm;
  let mlp_msg :=
    [ mLinear (Linear_init (child 0 (child 0 θ))
                 (match RFF_dim with
                  | None => 2 * emb_dim + 1
                  | Some d => 2 * emb_dim + d
                  end) emb_dim);
      norm_module (child 1 (child 0 θ)) nrm emb_dim;
      activation_module act;
      mLinear (Linear_init (child 3 (child 0 θ)) emb_dim emb_dim);
      norm_module (child 4 (child 0 θ)) nrm emb_dim;
      activation_module act ] in
  let mlp_upd :=
    [ mLinear (Linear_init (child 0 (child 1 θ)) (2 * emb_dim) emb_dim);
      norm_module (child 1 (child 1 θ)) nrm emb_dim;
      activation_module act;
      mLinear (Linear_init (child 3 (child 1 θ)) emb_dim emb_dim);
      (if decide (norm ≠ "none") then norm_module (child 4 (child 1 θ)) nrm emb_dim
       else mIdentity);
      activation_module act ] in
  match RFF_dim with
  | Some d =>
      rff ← RFF.init (child 2 θ) 1 d RFF_sigma;
      Ok (mk emb_dim act nrm aggr RFF_dim RFF_sigma mask mlp_msg mlp_upd (Some rff))
  | None =>
      Ok (mk emb_dim act nrm aggr RFF_dim RFF_sigma mask mlp_msg mlp_upd None)
  end.

Definition set_mask (self : t) (m : option (list bool)) : t :=
  mk (emb_dim self) (activation self) (norm self) (aggr self) (RFF_dim self)
     (RFF_sigma self) m (mlp_msg self) (mlp_upd self) (RFF self).
Definition set_mlp_msg (self : t) (s : list (NNModule R)) : t :=
  mk (emb_dim self) (activation self) (norm self) (aggr self) (RFF_dim self)
     (RFF_sigma self) (mask self) s (mlp_upd self) (RFF self).
Definition set_mlp_upd (self : t) (s : list (NNModule R)) : t :=
  mk (emb_dim self) (activation self) (norm self) (aggr self) (RFF_dim self)
     (RFF_sigma self) (mask self) (mlp_msg self) s (RFF self).

Definition message (self : t) (h_i h_j distances : Tensor2 R) : Result (Tensor2 R * t) :=
  distances ←
    match RFF_dim self with
    | Some _ =>
        match RFF self with
        | Some rff => RFF.forward rff distances
        | None => Err AttributeError
        end
    | None => Ok distances
    end;
  msg ← cat_cols h_i h_j;
  msg ← cat_cols msg distances;
  '(msg, mlp) ← Sequential_forward (mlp_msg self) msg;
  Ok (msg, set_mlp_msg self mlp).

(** The aggregation of [MessagePassing]: messages scattered to their
    target node, over [dim_size] nodes. *)
Definition aggregate (self : t) (inputs : Tensor2 R) (index : list nat) (dim_size : nat)
  : Result (Tensor2 R) :=
  scatter (aggr_reduce (aggr self)) inputs index dim_size.

Definition update (self : t) (aggr_out h : Tensor2 R) : Result (Tensor2 R * t) :=
  let msg_aggr := aggr_out in
  x ← cat_cols h msg_aggr;
  '(upd_out, mlp) ← Sequential_forward (mlp_upd self) x;
  let self := set_mlp_upd self mlp in
  match mask self with
  | Some m =>
      upd_out ← where_rows m upd_out h;
      Ok (upd_out, self)
  | None => Ok (upd_out, self)
  end.

(** What [propagate] hands to [update]: with the default flow
    (source to target) edge [(j, i)] carries a message from node [j] to
    node [i]; [h_i] and [h_j] are the rows of [h] at the targets and at the
    sources, and the messages are aggregated at the targets. *)
Definition aggregated (self : t) (edge_index : EdgeIndex) (h distances : Tensor2 R)
  : Result (Tensor2 R * t) :=
  h_i ← gather h edge_index.*2;
  h_j ← gather h edge_index.*1;
  '(msg, self) ← message self h_i h_j distances;
  aggr_out ← aggregate self msg edge_index.*2 (nrows h);
  Ok (aggr_out, self).

(** [MessagePassing.propagate].  The keyword [mask] reaches no method:
    neither [message] nor [update] names it. *)
Definition propagate (self : t) (edge_index : EdgeIndex) (h distances : Tensor2 R)
    (mask : option (list bool)) : Result (Tensor2 R * t) :=
  '(aggr_out, self) ← aggregated self edge_index h distances;
  update self aggr_out h.

Definition forward (self : t) (h : Tensor2 R) (edge_index : EdgeIndex)
    (distances : Tensor2 R) (mask : option (list bool)) : Result (Tensor2 R * t) :=
  let self := set_mask self mask in
  '(out, self) ← propagate self edge_index h distances mask;
  Ok (out, self).

(** *** The layer after a call

    The object as the statements executed up to the return, or up to the
    raise, left it.  [forward] assigns the mask before anything can fail;
    the networks write their batch norms as far as they run. *)

Definition message_after (self : t) (h_i h_j distances : Tensor2 R) : t :=
  match
    (distances ←
       match RFF_dim self with
       | Some _ =>
           match RFF self with
           | Some rff => RFF.forward rff distances
           | None => Err AttributeError
           end
       | None => Ok distances
       end;
     msg ← cat_cols h_i h_j;
     cat_cols msg distances)
  with
  | Ok msg => set_mlp_msg self (Sequential_after (mlp_msg self) msg)
  | Err _ => self
  end.

Definition update_after (self : t) (aggr_out h : Tensor2 R) : t :=
  match cat_cols h aggr_out with
  | Ok x => set_mlp_upd self (Sequential_after (mlp_upd self) x)
  | Err _ => self
  end.

Definition after (self : t) (h : Tensor2 R) (edge_index : EdgeIndex)
    (distances : Tensor2 R) (mask : option (list bool)) : t :=
  let self := set_mask self mask in
  match gather h edge_index.*2, gather h edge_index.*1 with
  | Ok h_i, Ok h_j =>
      match message self h_i h_j distances with
      | Ok (msg, self') =>
          match aggregate self' msg edge_index.*2 (nrows h) with
          | Ok aggr_out => update_after self' aggr_out h
          | Err _ => self'
          end
      | Err _ => message_after self h_i h_j distances
      end
  | _, _ => self
  end.

End defs.
Arguments t R : clear implicits.
End EGNNLayer.

(** ** The graph batch (torch_geometric Data / Batch) *)

Module Batch.
Record t (R : Type) : Type := mk {
  x : Tensor2 R;                 (* [N, node_features] *)
  pos : Tensor2 R;               (* [N, 3] *)
  edge_index : EdgeIndex;        (* [2, E] *)
  batch : option (list nat);     (* graph id per node; None on a single graph *)
  mask : option (list bool)      (* None when the attribute is absent *)
}.
Arguments mk {R}.
Arguments x {R}.
Arguments pos {R}.
Arguments edge_index {R}.
Arguments batch {R}.
Arguments mask {R}.
End Batch.

(** ** class EGNN_Full *)

Definition pools : gmap string Pool :=
  {[ "mean" := global_mean_pool; "add" := global_add_pool ]}.

Module EGNN_Full.
Section defs.
Context {R : Type} `{Scalar R}.

Record t : Type := mk {
  depth : nat;
  hidden_features : nat;
  node_features : nat;
  out_features : nat;
  activation : string;
  norm : string;
  aggr : Aggr;
  pool : Pool;
  residual : bool;
  RFF_dim : option nat;
  RFF_sigma : option R;
  mask : option (list bool);
  name : string;
  emb_in : Linear R;
  convs : list (EGNNLayer.t R);
  pred : list (NNModule R)
}.

(** [for layer in range(depth): self.convs.append(EGNNLayer(...))] *)
Fixpoint build_convs (θ : Params R) (layers : list nat) (hidden_features : nat)
    (activation norm : string) (aggr : Aggr) (RFF_dim : option nat)
    (RFF_sigma : option R) (mask : option (list bool)) : Result (list (EGNNLayer.t R)) :=
  match layers with
  | [] => Ok []
  | layer :: layers' =>
      conv ← EGNNLayer.init (child layer θ) hidden_features activation norm aggr
               RFF_dim RFF_sigma mask;
      convs ← build_convs θ layers' hidden_features activation norm aggr
                RFF_dim RFF_sigma mask;
      Ok (conv :: convs)
  end.

Definition init (θ : Params R) (depth hidden_features node_features out_features : nat)
    (activation norm : string) (aggr : Aggr) (pool : string) (residual : bool)
    (RFF_dim : option nat) (RFF_sigma : option R) (mask : option (list bool))
  : Result t :=
  let emb_in := Linear_init (child 0 θ) node_features hidden_features in
  convs ← build_convs (child 1 θ) (seq 0 depth) hidden_features activation norm aggr
            RFF_dim RFF_sigma mask;
  pool ← getitem pools pool;
  let pred :=
    [ mLinear (Linear_init (child 0 (child 2 θ)) hidden_features hidden_features);
      mReLU;
      mLinear (Linear_init (child 2 (child 2 θ)) hidden_features out_features) ] in
  Ok (mk depth hidden_features node_features out_features activation norm aggr pool
        residual RFF_dim RFF_sigma mask "EGNN" emb_in convs pred).

Definition set_convs_pred (self : t) (cs : list (EGNNLayer.t R)) (p : list (NNModule R)) : t :=
  mk (depth self) (hidden_features self) (node_features self) (out_features self)
     (activation self) (norm self) (aggr self) (pool self) (residual self)
     (RFF_dim self) (RFF_sigma self) (mask self) (name self) (emb_in self) cs p.

(** [torch.norm(pos[row] - pos[col], dim=-1).unsqueeze(1)] *)
Definition edge_distances (pos : Tensor2 R) (edge_index : EdgeIndex) : Result (Tensor2 R) :=
  let row := edge_index.*1 in
  let col := edge_index.*2 in
  pos_row ← gather pos row;
  pos_col ← gather pos col;
  diff ← tensor_sub pos_row pos_col;
  Ok (norm_rows diff).

(** What happens during a forward pass, in order: the distance tensor
    being computed, and each layer being called with its arguments. *)
Inductive Event : Type :=
  | ev_distances (d : Tensor2 R)
  | ev_conv (h : Tensor2 R) (edge_index : EdgeIndex) (distances : Tensor2 R)
      (mask : option (list bool)).

(** One turn of the loop over [self.convs]. *)
Definition conv_step (residual : bool) (conv : EGNNLayer.t R) (h : Tensor2 R)
    (edge_index : EdgeIndex) (distances : Tensor2 R) (mask : option (list bool))
  : Result (Tensor2 R * EGNNLayer.t R) :=
  '(h_update, conv) ← EGNNLayer.forward conv h edge_index distances mask;
  h ← (if residual then tensor_add h h_update else Ok h_update);
  Ok (h, conv).

Fixpoint conv_loop (residual : bool) (convs : list (EGNNLayer.t R)) (h : Tensor2 R)
    (edge_index : EdgeIndex) (distances : Tensor2 R) (mask : option (list bool))
  : Result (Tensor2 R * list (EGNNLayer.t R) * list Event) :=
  match convs with
  | [] => Ok (h, [], [])
  | conv :: convs' =>
      '(h', conv) ← conv_step residual conv h edge_index distances mask;
      '(h'', convs'', log) ← conv_loop residual convs' h' edge_index distances mask;
      Ok (h'', conv :: convs'', ev_conv h edge_index distances mask :: log)
  end.

(** [forward], with the log of its events. *)
Definition forward_traced (self : t) (batch : Batch.t R)
  : Result (Tensor2 R * t * list Event) :=
  h ← Linear_forward (emb_in self) (Batch.x batch);
  let pos := Batch.pos batch in
  distances ← edge_distances pos (Batch.edge_index batch);
  '(h, convs, log) ← conv_loop (residual self) (convs self) h (Batch.edge_index batch)
                       distances (Batch.mask batch);
  out ← global_pool (pool self) h (Batch.batch batch);
  '(out, pred) ← Sequential_forward (pred self) out;
  Ok (out, set_convs_pred self convs pred, ev_distances distances :: log).

Definition forward (self : t) (batch : Batch.t R) : Result (Tensor2 R * t) :=
  '(out, self, _) ← forward_traced self batch;
  Ok (out, self).

(** *** The model after a call

    The layers after the loop, whether it ran to its end or a layer raised:
    the layers before the one that raised have run, the ones after it have
    not. *)
Fixpoint conv_loop_after (residual : bool) (convs : list (EGNNLayer.t R)) (h : Tensor2 R)
    (edge_index : EdgeIndex) (distances : Tensor2 R) (mask : option (list bool))
  : list (EGNNLayer.t R) :=
  match convs with
  | [] => []
  | conv :: convs' =>
      match conv_step residual conv h edge_index distances mask with
      | Ok (h', conv') =>
          conv' :: conv_loop_after residual convs' h' edge_index distances mask
      | Err _ => EGNNLayer.after conv h edge_index distances mask :: convs'
      end
  end.

Definition after (self : t) (batch : Batch.t R) : t :=
  match Linear_forward (emb_in self) (Batch.x batch),
        edge_distances (Batch.pos batch) (Batch.edge_index batch) with
  | Ok h, Ok distances =>
      let convs' :=
        conv_loop_after (residual self) (convs self) h (Batch.edge_index batch)
          distances (Batch.mask batch) in
      match conv_loop (residual self) (convs self) h (Batch.edge_index batch)
              distances (Batch.mask batch) with
      | Ok (h', _, _) =>
          match global_pool (pool self) h' (Batch.batch batch) with
          | Ok out => set_convs_pred self convs' (Sequential_after (pred self) out)
          | Err _ => set_convs_pred self convs' (pred self)
          end
      | Err _ => set_convs_pred self convs' (pred self)
      end
  | _, _ => self
  end.

(** The node embeddings after the loop over the layers. *)
Definition embeddings (self : t) (batch : Batch.t R) : Result (Tensor2 R) :=
  h ← Linear_forward (emb_in self) (Batch.x batch);
  distances ← edge_distances (Batch.pos batch) (Batch.edge_index batch);
  '(h, _, _) ← conv_loop (residual self) (convs self) h (Batch.edge_index batch)
                 distances (Batch.mask batch);
  Ok h.

End defs.
Arguments t R : clear implicits.
End EGNN_Full.

(** ** Integer scalars

    Integer arithmetic, for running the model on concrete inputs.  It is
    exact wherever the inputs and weights are integers and the network uses
    relu without normalisation, which is what the worked examples below do;
    square roots are exact on perfect squares.  The examples never reach the
    sine, cosine and sigmoid stand-ins with a non-zero argument whose value
    matters.  The example with batch norm is there for what a call writes
    and whether it returns, not for the numbers it returns. *)
#[global] Instance Z_Scalar : Scalar Z := {
  s_zero := 0%Z;
  s_add := Z.add;
  s_sub := Z.sub;
  s_mul := Z.mul;
  s_div := Z.div;
  s_sqrt := Z.sqrt;
  s_sin := fun _ => 0%Z;
  s_cos := fun _ => 1%Z;
  s_sigmoid := fun _ => 1%Z;
  s_relu := Z.max 0;
  s_min := Z.min;
  s_max := Z.max;
  s_of_nat := Z.of_nat;
  s_eps := 0%Z;
  s_momentum := 0%Z
}.

(** ** Shape invariants

    What the constructors establish and no forward pass changes: the kinds
    and sizes of the modules a layer and a model hold. *)

Inductive ModuleSig : Type :=
  | sig_Linear (n_in n_out n_bias : nat)
  | sig_LayerNorm (d : nat)
  | sig_BatchNorm1d (d : nat)
  | sig_Identity
  | sig_ReLU
  | sig_SiLU.

Definition norm_sig (n : Norm) (d : nat) : ModuleSig :=
  match n with
  | LayerNorm_cls => sig_LayerNorm d
  | BatchNorm1d_cls => sig_BatchNorm1d d
  | Identity_cls => sig_Identity
  end.

Definition activation_sig (a : Activation) : ModuleSig :=
  match a with
  | SiLU => sig_SiLU
  | ReLU => sig_ReLU
  end.

(** Linear, Norm, Activation, Linear, Norm, Activation. *)
Definition mlp_sig (n_in e : nat) (n : Norm) (a : Activation) : list ModuleSig :=
  [ sig_Linear n_in e e; norm_sig n e; activation_sig a;
    sig_Linear e e e; norm_sig n e; activation_sig a ].

(** Output columns of a chain of modules fed [c] columns, when every module
    finds the width it expects. *)
Fixpoint sig_chain (sigs : list ModuleSig) (c : nat) : option nat :=
  match sigs with
  | [] => Some c
  | sig_Linear n_in n_out n_bias :: sigs' =>
      if decide (c = n_in /\ n_bias = n_out) then sig_chain sigs' n_out else None
  | sig_LayerNorm d :: sigs' | sig_BatchNorm1d d :: sigs' =>
      if decide (c = d) then sig_chain sigs' c else None
  | _ :: sigs' => sig_chain sigs' c
  end.

Definition ceil_half (n : nat) : nat := (n + 1) / 2.

Section Invariants.
Context {R : Type} `{Scalar R}.

Definition module_sig (m : NNModule R) : ModuleSig :=
  match m with
  | mLinear l => sig_Linear (in_features l) (out_features l) (length (bias l))
  | mLayerNorm ln => sig_LayerNorm (ln_shape ln)
  | mBatchNorm1d bn => sig_BatchNorm1d (bn_features bn)
  | mIdentity => sig_Identity
  | mReLU => sig_ReLU
  | mSiLU => sig_SiLU
  end.

(** The number of columns a Sequential turns [c] columns into. *)
Definition Sequential_cols (s : list (NNModule R)) (c : nat) : nat :=
  foldl (fun c m => match m with mLinear l => out_features l | _ => c end) c s.

Definition RFF_wf (d : nat) (r : RFF.t R) : Prop :=
  RFF.out_features r = d
  /\ ncols (RFF.B r) = 1
  /\ nrows (RFF.B r) = ceil_half d
  /\ RFF.compensation r = d mod 2.

(** Width of the distance feature a message is built from. *)
Definition distance_cols (RFF_dim : option nat) : nat :=
  match RFF_dim with
  | None => 1
  | Some d => d
  end.

Definition EGNNLayer_wf (l : EGNNLayer.t R) : Prop :=
  module_sig <$> EGNNLayer.mlp_msg l
    = mlp_sig (2 * EGNNLayer.emb_dim l + distance_cols (EGNNLayer.RFF_dim l))
        (EGNNLayer.emb_dim l) (EGNNLayer.norm l) (EGNNLayer.activation l)
  /\ module_sig <$> EGNNLayer.mlp_upd l
    = mlp_sig (2 * EGNNLayer.emb_dim l)
        (EGNNLayer.emb_dim l) (EGNNLayer.norm l) (EGNNLayer.activation l)
  /\ match EGNNLayer.RFF_dim l, EGNNLayer.RFF l with
     | None, _ => True
     | Some d, Some r => RFF_wf d r
     | Some _, None => False
     end.

Definition EGNN_Full_wf (m : EGNN_Full.t R) : Prop :=
  module_sig (mLinear (EGNN_Full.emb_in m))
    = sig_Linear (EGNN_Full.node_features m) (EGNN_Full.hidden_features m)
        (EGNN_Full.hidden_features m)
  /\ length (EGNN_Full.convs m) = EGNN_Full.depth m
  /\ Forall (fun l => EGNNLayer_wf l /\ EGNNLayer.emb_dim l = EGNN_Full.hidden_features m)
       (EGNN_Full.convs m)
  /\ module_sig <$> EGNN_Full.pred m
     = [ sig_Linear (EGNN_Full.hidden_features m) (EGNN_Full.hidden_features m)
           (EGNN_Full.hidden_features m);
         sig_ReLU;
         sig_Linear (EGNN_Full.hidden_features m) (EGNN_Full.out_features m)
           (EGNN_Full.out_features m) ].

(** The sigma that [RFF] multiplies by is there when an [RFF_dim] is given. *)
Definition sigma_given (RFF_dim : option nat) (RFF_sigma : option R) : Prop :=
  RFF_dim = None \/ is_Some RFF_sigma.

(** A mask, when there is one, has one entry per node. *)
Definition mask_fits (mask : option (list bool)) (n : nat) : Prop :=
  from_option (fun m : list bool => length m = n) True mask.

(** A row added to itself. *)
Definition double_row (r : list R) : list R := (fun a => s_add a a) <$> r.

(** A batch-norm module in training mode refuses a batch of one row. *)
Definition accepts_rows (s : list (NNModule R)) (n : nat) : Prop :=
  forall bn, mBatchNorm1d bn ∈ s -> bn_training bn = true -> n ≠ 1.

(** A batch the model runs on: feature width as configured, one position,
    graph id and mask entry per node, edges between existing nodes, and no
    batch norm in training mode that would meet a single row (exactly one
    edge for the message networks, exactly one node for the update
    networks). *)
Definition Batch_wf (m : EGNN_Full.t R) (b : Batch.t R) : Prop :=
  let n := nrows (Batch.x b) in
  ncols (Batch.x b) = EGNN_Full.node_features m
  /\ nrows (Batch.pos b) = n
  /\ Forall (fun e : nat * nat => e.1 < n /\ e.2 < n) (Batch.edge_index b)
  /\ from_option (fun ids : list nat => length ids = n) True (Batch.batch b)
  /\ mask_fits (Batch.mask b) n
  /\ Forall (fun l => accepts_rows (EGNNLayer.mlp_msg l) (length (Batch.edge_index b))
                      /\ accepts_rows (EGNNLayer.mlp_upd l) n)
       (EGNN_Full.convs m).

(** The parts of a module no forward pass writes: everything but the
    running statistics and batch counter of a batch norm. *)
Definition frozen_part (m : NNModule R) : NNModule R :=
  match m with
  | mBatchNorm1d bn =>
      mBatchNorm1d
        (mkBatchNorm1d (bn_features bn) (bn_weight bn) (bn_bias bn) [] [] 0
           (bn_eps bn) (bn_momentum bn) (bn_training bn))
  | _ => m
  end.

(** Two layers that agree on everything but the stored mask and the
    batch-norm statistics. *)
Definition same_layer_but_mask (l l' : EGNNLayer.t R) : Prop :=
  EGNNLayer.emb_dim l' = EGNNLayer.emb_dim l
  /\ EGNNLayer.activation l' = EGNNLayer.activation l
  /\ EGNNLayer.norm l' = EGNNLayer.norm l
  /\ EGNNLayer.aggr l' = EGNNLayer.aggr l
  /\ EGNNLayer.RFF_dim l' = EGNNLayer.RFF_dim l
  /\ EGNNLayer.RFF_sigma l' = EGNNLayer.RFF_sigma l
  /\ EGNNLayer.RFF l' = EGNNLayer.RFF l
  /\ frozen_part <$> EGNNLayer.mlp_msg l' = frozen_part <$> EGNNLayer.mlp_msg l
  /\ frozen_part <$> EGNNLayer.mlp_upd l' = frozen_part <$> EGNNLayer.mlp_upd l.

(** *** Definitions read off the specification *)

(** Euclidean norm of the difference of two position vectors. *)
Definition euclid (u v : list R) : R :=
  s_sqrt (vsum ((fun a => s_mul a a) <$> zip_with s_sub u v)).

(** The specification of [RFF.forward]: [y = x . B^T], then the sines of
    [y] followed by its cosines, the last column dropped when
    [out_features] is odd. *)
Definition RFF_spec (B : Tensor2 R) (out_features : nat) (x : Tensor2 R) : Tensor2 R :=
  let y := (fun xr : list R => (fun b : list R => dot xr b) <$> rows B) <$> rows x in
  let sc := (fun yr : list R => (s_sin <$> yr) ++ (s_cos <$> yr)) <$> y in
  mkTensor out_features
    (if Nat.odd out_features then (fun r : list R => take (length r - 1) r) <$> sc else sc).

End Invariants.

(** ** A worked example

    Two nodes joined by an edge in each direction, three-four-five apart; a
    model of two layers on one hidden feature, relu, no normalisation, every
    weight and bias equal to one.  Node 1 is masked out. *)

Definition ones : Params Z := fun _ _ _ => 1%Z.

Definition example_mlp (n_in : nat) : list (NNModule Z) :=
  [ mLinear (mkLinear (mkTensor n_in [replicate n_in 1%Z]) [1%Z]); mIdentity; mReLU;
    mLinear (mkLinear (mkTensor 1 [[1%Z]]) [1%Z]); mIdentity; mReLU ].

Definition example_layer (aggr : Aggr) (mask : option (list bool)) : EGNNLayer.t Z :=
  EGNNLayer.mk 1 ReLU Identity_cls aggr None None mask (example_mlp 3) (example_mlp 2) None.

Definition example_model (residual : bool) : EGNN_Full.t Z :=
  EGNN_Full.mk 2 1 1 1 "relu" "none" aggr_sum global_add_pool residual None None None "EGNN"
    (mkLinear (mkTensor 1 [[1%Z]]) [1%Z])
    [example_layer aggr_sum None; example_layer aggr_sum None]
    [ mLinear (mkLinear (mkTensor 1 [[1%Z]]) [1%Z]); mReLU;
      mLinear (mkLinear (mkTensor 1 [[1%Z]]) [1%Z]) ].

Definition example_edges : EdgeIndex := [(0, 1); (1, 0)].
Definition example_mask : list bool := [true; false].

Definition example_batch : Batch.t Z :=
  Batch.mk (mkTensor 1 [[1%Z]; [2%Z]])
    (mkTensor 3 [[0%Z; 0%Z; 0%Z]; [3%Z; 4%Z; 0%Z]])
    example_edges (Some [0; 0]) (Some example_mask).

(** The embeddings and distances the layers of the example receive. *)
Definition example_h : Tensor2 Z := mkTensor 1 [[2%Z]; [3%Z]].
Definition example_distances : Tensor2 Z := mkTensor 1 [[5%Z]; [5%Z]].

(** A single node with two self-loops, for a model that normalises with
    batch norm. *)
Definition single_node_batch : Batch.t Z :=
  Batch.mk (mkTensor 1 [[1%Z]]) (mkTensor 3 [[0%Z; 0%Z; 0%Z]])
    [(0, 0); (0, 0)] (Some [0]) None.

(** The layer [EGNNLayer(1, "relu", "batch")] builds from [ones]: its four
    batch norms are in training mode, as after construction, and have
    counted no batch yet. *)
Definition example_bn : BatchNorm1d Z :=
  mkBatchNorm1d 1 [1%Z] [1%Z] [1%Z] [1%Z] 0 0%Z 0%Z true.

Definition example_bn_mlp (n_in : nat) : list (NNModule Z) :=
  [ mLinear (mkLinear (mkTensor n_in [replicate n_in 1%Z]) [1%Z]); mBatchNorm1d example_bn;
    mReLU;
    mLinear (mkLinear (mkTensor 1 [[1%Z]]) [1%Z]); mBatchNorm1d example_bn; mReLU ].

Definition example_bn_layer : EGNNLayer.t Z :=
  EGNNLayer.mk 1 ReLU BatchNorm1d_cls aggr_add None None None
    (example_bn_mlp 3) (example_bn_mlp 2) None.

(** A model of one layer with two outputs, and a batch of two graphs: nodes
    0 and 1, joined as before, make graph 0, and node 2 alone makes
    graph 1. *)
Definition wide_model : EGNN_Full.t Z :=
  EGNN_Full.mk 1 1 1 2 "relu" "none" aggr_sum global_add_pool false None None None "EGNN"
    (mkLinear (mkTensor 1 [[1%Z]]) [1%Z])
    [example_layer aggr_sum None]
    [ mLinear (mkLinear (mkTensor 1 [[1%Z]]) [1%Z]); mReLU;
      mLinear (mkLinear (mkTensor 1 [[1%Z]; [1%Z]]) [1%Z; 1%Z]) ].

Definition two_graph_batch : Batch.t Z :=
  Batch.mk (mkTensor 1 [[1%Z]; [2%Z]; [3%Z]])
    (mkTensor 3 [[0%Z; 0%Z; 0%Z]; [3%Z; 4%Z; 0%Z]; [0%Z; 0%Z; 1%Z]])
    example_edges (Some [0; 0; 1]) None.

(** The batch of no graph: no node, no edge, an empty batch vector. *)
Definition empty_batch : Batch.t Z :=
  Batch.mk (mkTensor 1 []) (mkTensor 3 []) [] (Some []) None.

(** ** Further notions used by the properties below *)

Section MoreDefinitions.
Context {R : Type} `{Scalar R}.

(** No batch norm of the Sequential is in training mode. *)
Definition eval_mode (s : list (NNModule R)) : Prop :=
  forall bn, mBatchNorm1d bn ∈ s -> bn_training bn = false.

(** The rows of [src] that [index] sends to node [v], in order. *)
Definition received (v : nat) (index : list nat) (src : list (list R)) : list (list R) :=
  (filter (fun p : nat * list R => p.1 = v) (zip index src)).*2.

(** Every position reflected through the origin. *)
Definition reflect (pos : Tensor2 R) : Tensor2 R := tmap (fun a => s_sub s_zero a) pos.

(** The batch with other positions. *)
Definition with_pos (b : Batch.t R) (pos : Tensor2 R) : Batch.t R :=
  Batch.mk (Batch.x b) pos (Batch.edge_index b) (Batch.batch b) (Batch.mask b).

End MoreDefinitions.

(** The example graph without a batch vector and without a mask. *)
Definition example_single_graph : Batch.t Z :=
  Batch.mk (mkTensor 1 [[1%Z]; [2%Z]])
    (mkTensor 3 [[0%Z; 0%Z; 0%Z]; [3%Z; 4%Z; 0%Z]])
    example_edges None None.

(** * Properties *)

Lemma bind_Ok {A B} (m : Result A) (f : A -> Result B) (b : B) :
  m ≫= f = Ok b <-> exists a, m = Ok a /\ f a = Ok b.
Proof.
  destruct m as [a|e]; simpl; split.
  - eauto.
  - intros (a' & [= ->] & Hf). exact Hf.
  - discriminate.
  - intros (a' & [=] & _).
Qed.

Lemma guard_shape_Ok (b : bool) (u : unit) : guard_shape b = Ok u <-> b = true.
Proof. destruct b, u; simpl; split; congruence. Qed.

(** Splits a hypothesis [H : ... = Ok _] along the binds it is made of. *)
Ltac inv_Ok H :=
  repeat match type of H with
    | _ ≫= _ = Ok _ =>
        let a := fresh "a" in
        let Ha := fresh "H" a in
        apply bind_Ok in H as (a & Ha & H)
    end.

Section TensorFacts.
Context {R : Type} `{Scalar R}.
Implicit Types (t x y a b : Tensor2 R) (r : list R).

Lemma bdim_same (n : nat) : bdim n n = Ok n.
Proof. unfold bdim. by rewrite decide_True. Qed.

Lemma expand_same {A} (n : nat) (d : A) (l : list A) : expand n n d l = l.
Proof. unfold expand. by rewrite decide_True. Qed.

Lemma expand_tensor_same (n c : nat) t :
  nrows t = n -> ncols t = c -> expand_tensor n c t = rows t.
Proof.
  intros <- <-. unfold expand_tensor. rewrite expand_same.
  rewrite <- (list_fmap_id (rows t)) at 2. apply list_fmap_ext.
  intros i r _. apply expand_same.
Qed.

(** Same-shape operands: the operation is applied entry by entry. *)
Lemma broadcast2_same_shape (f : R -> R -> R) a b :
  nrows a = nrows b -> ncols a = ncols b ->
  broadcast2 f a b = Ok (mkTensor (ncols a) (zip_with (zip_with f) (rows a) (rows b))).
Proof.
  intros Hn Hc. unfold broadcast2.
  rewrite <- Hn, <- Hc, !bdim_same. simpl.
  by rewrite !expand_tensor_same.
Qed.

Lemma where_rows_same_shape (mask : list bool) a b :
  length mask = nrows b -> nrows a = nrows b -> ncols a = ncols b ->
  where_rows mask a b
  = Ok (mkTensor (ncols b)
          (zip_with (fun (m : bool) (ab : list R * list R) => if m then ab.1 else ab.2)
             mask (zip (rows a) (rows b)))).
Proof.
  intros Hm Hn Hc. unfold where_rows.
  rewrite Hm, Hn, Hc, !bdim_same. simpl. rewrite bdim_same. simpl.
  by rewrite expand_same, !expand_tensor_same.
Qed.

Lemma where_rows_lookup (mask : list bool) a b out (i : nat) (m : bool) :
  length mask = nrows b -> nrows a = nrows b -> ncols a = ncols b ->
  where_rows mask a b = Ok out ->
  mask !! i = Some m ->
  rows out !! i = if m then rows a !! i else rows b !! i.
Proof.
  intros Hm Hn Hc Hw Hi. rewrite where_rows_same_shape in Hw by done.
  injection Hw as <-. simpl.
  assert (i < length (rows a)) as [ra Ha]%lookup_lt_is_Some.
  { apply lookup_lt_Some in Hi. unfold nrows in *. lia. }
  assert (i < length (rows b)) as [rb Hb]%lookup_lt_is_Some.
  { apply lookup_lt_Some in Hi. unfold nrows in *. lia. }
  rewrite lookup_zip_with, Hi. simpl.
  rewrite lookup_zip_with, Ha. simpl. rewrite Hb. simpl. by destruct m.
Qed.

Lemma where_rows_shape (mask : list bool) a b out :
  length mask = nrows b -> nrows a = nrows b -> ncols a = ncols b ->
  where_rows mask a b = Ok out ->
  nrows out = nrows b /\ ncols out = ncols b.
Proof.
  intros Hm Hn Hc Hw. rewrite where_rows_same_shape in Hw by done.
  injection Hw as <-. unfold nrows in *. simpl.
  rewrite length_zip_with, length_zip. lia.
Qed.

End TensorFacts.

Section ModuleFacts.
Context {R : Type} `{Scalar R}.
Implicit Types (t x y a b : Tensor2 R) (r : list R) (m : NNModule R) (s : list (NNModule R)).

Lemma nrows_tmap (f : R -> R) x : nrows (tmap f x) = nrows x.
Proof. unfold nrows, tmap. simpl. by rewrite length_fmap. Qed.

Lemma F_linear_Ok x W (ob : option (list R)) y :
  F_linear x W ob = Ok y ->
  ncols x = ncols W /\ from_option (fun v => length v = nrows W) True ob
  /\ nrows y = nrows x /\ ncols y = nrows W /\ tensor_wf y.
Proof.
  unfold F_linear. intros Hy. inv_Ok Hy.
  apply guard_shape_Ok, bool_decide_eq_true in Ha.
  apply guard_shape_Ok in Ha0. injection Hy as <-. unfold nrows, tensor_wf. simpl.
  rewrite length_fmap.
  assert (from_option (fun v : list R => length v = length (rows W)) True ob) as Hb.
  { destruct ob; simpl in *; [by apply bool_decide_eq_true in Ha0|done]. }
  repeat split; [done..|].
  apply Forall_fmap, Forall_forall. intros xr _. simpl.
  destruct ob as [v|]; simpl in *.
  - rewrite length_zip_with, length_fmap. lia.
  - by rewrite length_fmap.
Qed.

Lemma F_linear_total x W (ob : option (list R)) :
  ncols x = ncols W ->
  from_option (fun v => length v = nrows W) True ob ->
  exists y, F_linear x W ob = Ok y.
Proof.
  intros Hc Hb. unfold F_linear.
  rewrite Hc, bool_decide_eq_true_2 by done. simpl.
  destruct ob as [v|]; simpl in *.
  - rewrite bool_decide_eq_true_2 by done. simpl. eauto.
  - eauto.
Qed.

Lemma LayerNorm_forward_Ok (ln : LayerNorm R) x y :
  LayerNorm_forward ln x = Ok y ->
  ncols x = ln_shape ln /\ nrows y = nrows x /\ ncols y = ncols x.
Proof.
  unfold LayerNorm_forward. intros Hy. inv_Ok Hy.
  apply guard_shape_Ok, bool_decide_eq_true in Ha. injection Hy as <-.
  unfold nrows. simpl. by rewrite length_fmap.
Qed.

Lemma nrows_bn_normalise (bn : BatchNorm1d R) (mean var : list R) x :
  nrows (bn_normalise bn mean var x) = nrows x.
Proof. unfold nrows, bn_normalise. simpl. by rewrite length_fmap. Qed.

Lemma BatchNorm1d_forward_Ok (bn bn' : BatchNorm1d R) x y :
  BatchNorm1d_forward bn x = Ok (y, bn') ->
  ncols x = bn_features bn /\ nrows y = nrows x /\ ncols y = ncols x
  /\ bn_features bn' = bn_features bn
  /\ frozen_part (mBatchNorm1d bn') = frozen_part (mBatchNorm1d bn)
  /\ (bn_training bn = true -> nrows x ≠ 1)
  /\ (bn_training bn = false -> bn' = bn).
Proof.
  unfold BatchNorm1d_forward. intros Hy.
  destruct (bn_training bn) eqn:Ht.
  - destruct (decide (nrows x = 1)) as [|Hn1]; [discriminate|].
    apply bind_Ok in Hy as (u & Hu & Hy).
    apply guard_shape_Ok, bool_decide_eq_true in Hu.
    destruct (decide (nrows x = 0)).
    + injection Hy as <- <-. simpl. rewrite Ht. by repeat split.
    + injection Hy as <- <-. simpl. rewrite nrows_bn_normalise, Ht. by repeat split.
  - apply bind_Ok in Hy as (u & Hu & Hy).
    apply guard_shape_Ok, bool_decide_eq_true in Hu.
    injection Hy as <- <-. rewrite nrows_bn_normalise. by repeat split.
Qed.

Lemma NNModule_forward_Ok m x y m' :
  NNModule_forward m x = Ok (y, m') ->
  nrows y = nrows x
  /\ sig_chain [module_sig m] (ncols x) = Some (ncols y)
  /\ module_sig m' = module_sig m
  /\ frozen_part m' = frozen_part m.
Proof.
  destruct m as [l|ln|bn| | |]; simpl; intros Hy.
  - inv_Ok Hy. injection Hy as <- <-.
    apply F_linear_Ok in Ha as (Hc & Hb & Hn & Hc' & _). simpl in *.
    unfold in_features, out_features.
    rewrite decide_True by done. split; [done|]. by rewrite Hc'.
  - inv_Ok Hy. injection Hy as <- <-.
    apply LayerNorm_forward_Ok in Ha as (Hc & Hn & Hc').
    rewrite decide_True by done. by rewrite Hc'.
  - apply bind_Ok in Hy as ([y1 bn1] & Ha & Hy). injection Hy as <- <-.
    apply BatchNorm1d_forward_Ok in Ha as (Hc & Hn & Hc' & Hf & Hfr & _).
    rewrite decide_True by done.
    split; [done|]. split; [by rewrite Hc'|]. split; [simpl; by rewrite Hf|]. exact Hfr.
  - injection Hy as <- <-. done.
  - injection Hy as <- <-. by rewrite nrows_tmap.
  - injection Hy as <- <-. by rewrite nrows_tmap.
Qed.

Lemma sig_chain_app (s1 s2 : list ModuleSig) (c : nat) :
  sig_chain (s1 ++ s2) c = sig_chain s1 c ≫= sig_chain s2.
Proof.
  revert c. induction s1 as [|[] s1 IH]; intros c; simpl; try done;
    case_decide; simpl; auto.
Qed.

Lemma sig_chain_cons (sg : ModuleSig) (sigs : list ModuleSig) (c : nat) :
  sig_chain (sg :: sigs) c = sig_chain [sg] c ≫= sig_chain sigs.
Proof. apply (sig_chain_app [sg]). Qed.

Lemma Sequential_forward_Ok s x y s' :
  Sequential_forward s x = Ok (y, s') ->
  nrows y = nrows x
  /\ sig_chain (module_sig <$> s) (ncols x) = Some (ncols y)
  /\ module_sig <$> s' = module_sig <$> s
  /\ frozen_part <$> s' = frozen_part <$> s.
Proof.
  revert x y s'. induction s as [|m s IH]; intros x y s' Hy; simpl in Hy.
  - injection Hy as <- <-. done.
  - apply bind_Ok in Hy as ([y1 m1] & Ha & Hy).
    apply bind_Ok in Hy as ([y2 s2] & Ha0 & Hy).
    injection Hy as <- <-.
    apply NNModule_forward_Ok in Ha as (Hn1 & Hc1 & Hs1 & Hf1).
    apply IH in Ha0 as (Hn2 & Hc2 & Hs2 & Hf2).
    rewrite !fmap_cons, Hs1, Hs2, Hf1, Hf2.
    rewrite sig_chain_cons, Hc1. simpl. split; [congruence|done].
Qed.

Lemma NNModule_forward_total m x (c : nat) :
  sig_chain [module_sig m] (ncols x) = Some c ->
  accepts_rows [m] (nrows x) ->
  exists y m', NNModule_forward m x = Ok (y, m').
Proof.
  destruct m as [l|ln|bn| | |]; simpl; intros Hc Hacc; eauto.
  - case_decide as Hd; [|done]. destruct Hd as [Hd1 Hd2].
    unfold Linear_forward.
    destruct (F_linear_total x (weight l) (Some (bias l))) as [y ->]; simpl; eauto.
  - case_decide as Hd; [|done]. unfold LayerNorm_forward.
    rewrite bool_decide_eq_true_2 by done. simpl. eauto.
  - case_decide as Hd; [|done]. unfold BatchNorm1d_forward.
    rewrite bool_decide_eq_true_2 by done.
    destruct (bn_training bn) eqn:Ht; [|simpl; eauto].
    rewrite decide_False by (apply (Hacc bn); [by left|done]).
    simpl. case_decide; simpl; eauto.
Qed.

Lemma accepts_rows_cons m s (n : nat) :
  accepts_rows (m :: s) n <-> accepts_rows [m] n /\ accepts_rows s n.
Proof.
  unfold accepts_rows. split.
  - intros Ha. split; intros bn Hin Ht; apply (Ha bn); try done.
    + apply list_elem_of_singleton in Hin as ->. by left.
    + by right.
  - intros [Ha1 Ha2] bn Hin Ht. apply elem_of_cons in Hin as [Heq|Hin].
    + apply (Ha1 bn); [rewrite Heq; by left|done].
    + by apply (Ha2 bn).
Qed.

Lemma Sequential_forward_total s x (c : nat) :
  sig_chain (module_sig <$> s) (ncols x) = Some c ->
  accepts_rows s (nrows x) ->
  exists y s', Sequential_forward s x = Ok (y, s').
Proof.
  revert x. induction s as [|m s IH]; intros x Hc Hacc; simpl; eauto.
  rewrite fmap_cons, sig_chain_cons in Hc.
  destruct (sig_chain [module_sig m] (ncols x)) as [c1|] eqn:Hc1; [|done]. simpl in Hc.
  apply accepts_rows_cons in Hacc as [Hacc1 Hacc2].
  destruct (NNModule_forward_total m x c1) as (y & m' & Hm); [done..|].
  rewrite Hm. simpl.
  apply NNModule_forward_Ok in Hm as (Hn1 & Hc1' & _).
  assert (c1 = ncols y) as -> by congruence.
  destruct (IH y) as (z & s' & ->); [done|by rewrite Hn1|]. simpl. eauto.
Qed.

End ModuleFacts.


Section GatherScatterFacts.
Context {R : Type} `{Scalar R}.
Implicit Types (t x y a b : Tensor2 R) (r : list R).

Lemma index_select_Ok (t rs : list (list R)) (idx : list nat) :
  index_select t idx = Ok rs ->
  length rs = length idx
  /\ forall (k i : nat), idx !! k = Some i -> is_Some (t !! i) /\ rs !! k = t !! i.
Proof.
  revert rs. induction idx as [|i idx IH]; intros rs Hrs; simpl in Hrs.
  - injection Hrs as <-. split; [done|]. intros k i Hk. by rewrite lookup_nil in Hk.
  - destruct (t !! i) as [r|] eqn:Hi; [|done].
    apply bind_Ok in Hrs as (rs' & Hrs' & Hrs). injection Hrs as <-.
    apply IH in Hrs' as [Hlen Hlook]. split; [simpl; by rewrite Hlen|].
    intros [|k] j Hk; simpl in *.
    + injection Hk as <-. by rewrite Hi.
    + by apply Hlook.
Qed.

Lemma index_select_total (t : list (list R)) (idx : list nat) :
  Forall (fun i => i < length t) idx -> exists rs, index_select t idx = Ok rs.
Proof.
  induction 1 as [|i idx Hi _ [rs IH]]; simpl; [eauto|].
  apply lookup_lt_is_Some in Hi as [r ->]. rewrite IH. simpl. eauto.
Qed.

Lemma gather_Ok t (idx : list nat) g :
  gather t idx = Ok g ->
  ncols g = ncols t /\ nrows g = length idx
  /\ forall (k i : nat), idx !! k = Some i -> is_Some (rows t !! i) /\ rows g !! k = rows t !! i.
Proof.
  unfold gather. intros Hg. apply bind_Ok in Hg as (rs & Hrs & Hg).
  injection Hg as <-. apply index_select_Ok in Hrs as [Hlen Hlook]. done.
Qed.

Lemma gather_total t (idx : list nat) :
  Forall (fun i => i < nrows t) idx -> exists g, gather t idx = Ok g.
Proof.
  intros [rs Hrs]%index_select_total. unfold gather. rewrite Hrs. simpl. eauto.
Qed.

Lemma cat_cols_Ok a b c :
  cat_cols a b = Ok c ->
  nrows a = nrows b /\ nrows c = nrows a /\ ncols c = ncols a + ncols b
  /\ rows c = zip_with app (rows a) (rows b).
Proof.
  unfold cat_cols. intros Hc. apply bind_Ok in Hc as (u & Hg & Hc).
  apply guard_shape_Ok, bool_decide_eq_true in Hg. injection Hc as <-.
  unfold nrows in *. simpl. rewrite length_zip_with. repeat split; [done|lia].
Qed.

Lemma cat_cols_total a b : nrows a = nrows b -> exists c, cat_cols a b = Ok c.
Proof.
  intros Hn. unfold cat_cols. rewrite bool_decide_eq_true_2 by done. simpl. eauto.
Qed.

Lemma nrows_norm_rows t : nrows (norm_rows t) = nrows t.
Proof. unfold nrows, norm_rows. simpl. by rewrite length_fmap. Qed.

(** *** Scatter *)

Lemma scatter_add_Ok (out res : list (list R)) (index : list nat) (src : list (list R)) :
  scatter_add out index src = Ok res ->
  length res = length out
  /\ length index = length src
  /\ forall v : nat, v ∉ index -> res !! v = out !! v.
Proof.
  revert out src. induction index as [|i index IH]; intros out [|r src] Hres;
    simpl in Hres; try done.
  - injection Hres as <-. done.
  - case_decide as Hi; [|done].
    apply IH in Hres as (Hlen & Hidx & Hkeep). rewrite length_alter in Hlen.
    split; [done|]. split; [simpl; by rewrite Hidx|].
    intros v Hv. apply not_elem_of_cons in Hv as [Hvi Hv].
    rewrite Hkeep by done. by apply list_lookup_alter_ne.
Qed.

Lemma scatter_add_total (out : list (list R)) (index : list nat) (src : list (list R)) :
  length index = length src ->
  Forall (fun i => i < length out) index ->
  exists res, scatter_add out index src = Ok res.
Proof.
  revert out src. induction index as [|i index IH]; intros out [|r src] Hlen Hidx;
    simpl in *; try done; [eauto|].
  apply Forall_cons in Hidx as [Hi Hidx].
  rewrite decide_True by done. apply IH; [lia|]. by rewrite length_alter.
Qed.

Lemma scatter_select_Ok (op : R -> R -> R) (out res : list (option (list R)))
    (index : list nat) (src : list (list R)) :
  scatter_select op out index src = Ok res ->
  length res = length out
  /\ length index = length src
  /\ forall v : nat, v ∉ index -> res !! v = out !! v.
Proof.
  revert out src. induction index as [|i index IH]; intros out [|r src] Hres;
    simpl in Hres; try done.
  - injection Hres as <-. done.
  - case_decide as Hi; [|done].
    apply IH in Hres as (Hlen & Hidx & Hkeep). rewrite length_alter in Hlen.
    split; [done|]. split; [simpl; by rewrite Hidx|].
    intros v Hv. apply not_elem_of_cons in Hv as [Hvi Hv].
    rewrite Hkeep by done. by apply list_lookup_alter_ne.
Qed.

Lemma scatter_select_total (op : R -> R -> R) (out : list (option (list R)))
    (index : list nat) (src : list (list R)) :
  length index = length src ->
  Forall (fun i => i < length out) index ->
  exists res, scatter_select op out index src = Ok res.
Proof.
  revert out src. induction index as [|i index IH]; intros out [|r src] Hlen Hidx;
    simpl in *; try done; [eauto|].
  apply Forall_cons in Hidx as [Hi Hidx].
  rewrite decide_True by done. apply IH; [lia|]. by rewrite length_alter.
Qed.

Lemma expand_as_same (index : list nat) (n : nat) :
  length index = n -> expand_as index n = Ok index.
Proof. intros Hn. unfold expand_as. by rewrite decide_True. Qed.

Lemma scatter_shape (reduce : Reduce) (src out : Tensor2 R) (index : list nat) (n : nat) :
  scatter reduce src index n = Ok out ->
  nrows out = n /\ ncols out = ncols src.
Proof.
  unfold scatter. intros Hs.
  apply bind_Ok in Hs as (index' & _ & Hs).
  destruct reduce; apply bind_Ok in Hs as (res & Hres & Hs); injection Hs as <-;
    unfold nrows; simpl;
    first [apply scatter_add_Ok in Hres as (Hlen & _ & _)
          |apply scatter_select_Ok in Hres as (Hlen & _ & _)];
    simpl in Hlen; rewrite length_replicate in Hlen;
    by rewrite ?length_imap, ?length_fmap.
Qed.

Lemma scatter_total (reduce : Reduce) (src : Tensor2 R) (index : list nat) (n : nat) :
  length index = nrows src ->
  Forall (fun i => i < n) index ->
  exists out, scatter reduce src index n = Ok out.
Proof.
  intros Hlen Hidx. unfold scatter. rewrite expand_as_same by done. simpl.
  destruct reduce.
  - destruct (scatter_add_total (replicate n (replicate (ncols src) s_zero)) index
                (rows src)) as [res ->];
      [done|by rewrite length_replicate|simpl; eauto].
  - destruct (scatter_add_total (replicate n (replicate (ncols src) s_zero)) index
                (rows src)) as [res ->];
      [done|by rewrite length_replicate|simpl; eauto].
  - destruct (scatter_select_total s_min (replicate n None) index (rows src)) as [res ->];
      [done|by rewrite length_replicate|simpl; eauto].
  - destruct (scatter_select_total s_max (replicate n None) index (rows src)) as [res ->];
      [done|by rewrite length_replicate|simpl; eauto].
  - destruct (scatter_select_total s_mul (replicate n (Some (replicate (ncols src) s_one)))
                index (rows src)) as [res ->];
      [done|by rewrite length_replicate|simpl; eauto].
Qed.

Lemma count_index_notin (index : list nat) (v : nat) :
  v ∉ index -> count_index index v = 0.
Proof.
  unfold count_index. induction index as [|i index IH]; intros Hv; [done|].
  apply not_elem_of_cons in Hv as [Hvi Hv].
  rewrite filter_cons_False by congruence. auto.
Qed.

(** A node that is the target of no row receives the zero vector, unless
    the rows are multiplied. *)
Lemma scatter_untouched (reduce : Reduce) (src out : Tensor2 R) (index : list nat) (n v : nat) :
  length index = nrows src ->
  scatter reduce src index n = Ok out ->
  v < n -> v ∉ index ->
  reduce ≠ reduce_mul ->
  (reduce = reduce_mean -> s_div s_zero (s_of_nat 1) = s_zero) ->
  rows out !! v = Some (replicate (ncols src) s_zero).
Proof.
  unfold scatter. intros Hlen Hs Hv Hnot Hmul Hlaw.
  rewrite expand_as_same in Hs by done. simpl in Hs.
  destruct reduce; [| | | |done];
    apply bind_Ok in Hs as (res & Hres & Hs); injection Hs as <-; simpl;
    first [apply scatter_add_Ok in Hres as (_ & _ & Hkeep)
          |apply scatter_select_Ok in Hres as (_ & _ & Hkeep)];
    specialize (Hkeep v Hnot); simpl in Hkeep;
    rewrite lookup_replicate_2 in Hkeep by done.
  - done.
  - rewrite list_lookup_imap, Hkeep. simpl. f_equal.
    rewrite count_index_notin by done. simpl.
    rewrite fmap_replicate. by rewrite Hlaw.
  - by rewrite list_lookup_fmap, Hkeep.
  - by rewrite list_lookup_fmap, Hkeep.
Qed.

(** Where the rows are multiplied, such a node receives the vector of ones. *)
Lemma scatter_untouched_mul (src out : Tensor2 R) (index : list nat) (n v : nat) :
  length index = nrows src ->
  scatter reduce_mul src index n = Ok out ->
  v < n -> v ∉ index ->
  rows out !! v = Some (replicate (ncols src) s_one).
Proof.
  unfold scatter. intros Hlen Hs Hv Hnot.
  rewrite expand_as_same in Hs by done. simpl in Hs.
  apply bind_Ok in Hs as (res & Hres & Hs). injection Hs as <-. simpl.
  apply scatter_select_Ok in Hres as (_ & _ & Hkeep).
  specialize (Hkeep v Hnot). rewrite lookup_replicate_2 in Hkeep by done.
  by rewrite list_lookup_fmap, Hkeep.
Qed.

End GatherScatterFacts.


(** ** RFF *)

Lemma mod2_odd (n : nat) : n mod 2 = Nat.b2n (Nat.odd n).
Proof. by rewrite <- Nat.bit0_mod, Nat.bit0_odd. Qed.

Lemma ceil_half_odd (n : nat) :
  Nat.odd n = true -> int_truediv2 n + 1 = ceil_half n /\ 2 * ceil_half n - 1 = n.
Proof.
  intros Ho. unfold int_truediv2, ceil_half.
  pose proof (Nat.div_mod_eq n 2) as Hn. rewrite mod2_odd, Ho in Hn. unfold Nat.b2n in Hn.
  assert (n + 1 = (n / 2 + 1) * 2) as -> by lia.
  rewrite Nat.div_mul by done. lia.
Qed.

Lemma ceil_half_even (n : nat) :
  Nat.odd n = false -> int_truediv2 n + 0 = ceil_half n /\ 2 * ceil_half n = n.
Proof.
  intros Ho. unfold int_truediv2, ceil_half.
  pose proof (Nat.div_mod_eq n 2) as Hn. rewrite mod2_odd, Ho in Hn. unfold Nat.b2n in Hn.
  assert (n + 1 = 1 + (n / 2) * 2) as -> by lia.
  rewrite Nat.div_add by done. change (1 / 2) with 0. lia.
Qed.

Section RFFFacts.
Context {R : Type} `{Scalar R}.
Implicit Types (x y : Tensor2 R).

Lemma length_tabulate {A} (n : nat) (f : nat -> A) : length (tabulate n f) = n.
Proof. unfold tabulate. by rewrite length_fmap, length_seq. Qed.

Lemma nrows_tensor_of (θ : Params R) (k n c : nat) : nrows (tensor_of θ k n c) = n.
Proof. unfold nrows, tensor_of. simpl. apply length_tabulate. Qed.

Lemma zip_with_app_fmap {A B} (f g : A -> list B) (l : list A) :
  zip_with app (f <$> l) (g <$> l) = (fun a => f a ++ g a) <$> l.
Proof. induction l as [|a l IH]; [done|]. rewrite !fmap_cons. simpl. by f_equal. Qed.

Lemma RFF_init_Ok (θ : Params R) (n_in n_out : nat) (sg : R) :
  exists rff, RFF.init θ n_in n_out (Some sg) = Ok rff
    /\ RFF.in_features rff = n_in /\ RFF.out_features rff = n_out
    /\ RFF.compensation rff = n_out mod 2
    /\ ncols (RFF.B rff) = n_in /\ nrows (RFF.B rff) = ceil_half n_out.
Proof.
  unfold RFF.init. eexists. split; [reflexivity|].
  cbn [RFF.in_features RFF.out_features RFF.compensation RFF.B].
  rewrite !nrows_tmap, nrows_tensor_of, mod2_odd.
  destruct (Nat.odd n_out) eqn:Ho; unfold Nat.b2n.
  - rewrite decide_True by done. by destruct (ceil_half_odd n_out Ho) as [-> _].
  - rewrite decide_False by (intros Hne; by apply Hne).
    by destruct (ceil_half_even n_out Ho) as [-> _].
Qed.

Lemma RFF_forward_spec (rff : RFF.t R) x :
  RFF.compensation rff = RFF.out_features rff mod 2 ->
  nrows (RFF.B rff) = ceil_half (RFF.out_features rff) ->
  ncols x = ncols (RFF.B rff) ->
  RFF.forward rff x = Ok (RFF_spec (RFF.B rff) (RFF.out_features rff) x)
  /\ tensor_wf (RFF_spec (RFF.B rff) (RFF.out_features rff) x)
  /\ nrows (RFF_spec (RFF.B rff) (RFF.out_features rff) x) = nrows x.
Proof.
  intros Hcomp HB Hx. unfold RFF.forward, F_linear.
  rewrite bool_decide_eq_true_2 by done. simpl.
  unfold cat_cols. rewrite !nrows_tmap, bool_decide_eq_true_2 by done. simpl.
  rewrite HB, Hcomp, mod2_odd. unfold RFF_spec, tensor_wf, nrows. simpl.
  rewrite <- !list_fmap_compose, zip_with_app_fmap.
  destruct (Nat.odd (RFF.out_features rff)) eqn:Ho; simpl.
  - destruct (ceil_half_odd _ Ho) as [_ Hw].
    unfold RFF.drop_last_col. simpl.
    replace (ceil_half (RFF.out_features rff) + ceil_half (RFF.out_features rff) - 1)
      with (RFF.out_features rff) by lia.
    rewrite <- !list_fmap_compose, !length_fmap.
    split; [|split; [|done]].
    + do 2 f_equal. apply list_fmap_ext. intros i xr _. simpl.
      rewrite length_app, !length_fmap. unfold nrows in HB. rewrite HB.
      f_equal. lia.
    + apply Forall_fmap, Forall_forall. intros xr _. simpl.
      rewrite length_take, length_app, !length_fmap. unfold nrows in HB. rewrite HB. lia.
  - destruct (ceil_half_even _ Ho) as [_ Hw].
    replace (ceil_half (RFF.out_features rff) + ceil_half (RFF.out_features rff))
      with (RFF.out_features rff) by lia.
    rewrite !length_fmap.
    split; [done|]. split; [|done].
    apply Forall_fmap, Forall_forall. intros xr _. simpl.
    rewrite length_app, !length_fmap. unfold nrows in HB. rewrite HB. lia.
Qed.

(** C4.  For every input [x] of [in_features] columns, [RFF.forward] returns
    the sines of [x . B^T] followed by its cosines, without the last column
    when [out_features] is odd; [B] has ceil(out_features / 2) rows, and every
    row of the result has exactly [out_features] entries, whatever the parity
    of [out_features]. *)
Theorem RFF_forward_width (θ : Params R) (n_in n_out : nat) (sg : R) x :
  ncols x = n_in ->
  exists rff,
    RFF.init θ n_in n_out (Some sg) = Ok rff
    /\ nrows (RFF.B rff) = ceil_half n_out
    /\ RFF.forward rff x = Ok (RFF_spec (RFF.B rff) n_out x)
    /\ shape (RFF_spec (RFF.B rff) n_out x) = (nrows x, n_out)
    /\ Forall (fun r => length r = n_out) (rows (RFF_spec (RFF.B rff) n_out x)).
Proof.
  intros Hx.
  destruct (RFF_init_Ok θ n_in n_out sg) as (rff & Hinit & _ & Hout & Hcomp & HBc & HBr).
  exists rff. split; [done|]. split; [done|].
  destruct (RFF_forward_spec rff x) as (Hf & Hwf & Hn).
  - by rewrite Hout.
  - by rewrite Hout.
  - by rewrite HBc.
  - rewrite Hout in *. split; [done|]. split; [|done].
    unfold shape. by rewrite Hn.
Qed.

End RFFFacts.


(** ** EGNNLayer *)

Lemma mlp_sig_chain (n_in e : nat) (n : Norm) (a : Activation) (c c' : nat) :
  sig_chain (mlp_sig n_in e n a) c = Some c' <-> c = n_in /\ c' = e.
Proof.
  unfold mlp_sig. split.
  - intros Hc. destruct n, a; simpl in Hc;
      repeat (case_decide; [|discriminate Hc]); injection Hc as <-; intuition.
  - intros [-> ->]. destruct n, a; simpl; by rewrite ?decide_True.
Qed.

Section LayerFacts.
Context {R : Type} `{Scalar R}.
Implicit Types (l : EGNNLayer.t R) (h d x out : Tensor2 R) (ei : EdgeIndex).

(** Shape of what a six-module MLP of a layer returns. *)
Lemma mlp_forward_Ok (s s' : list (NNModule R)) (n_in e : nat) (n : Norm) (a : Activation) x y :
  module_sig <$> s = mlp_sig n_in e n a ->
  Sequential_forward s x = Ok (y, s') ->
  ncols x = n_in /\ nrows y = nrows x /\ ncols y = e
  /\ module_sig <$> s' = mlp_sig n_in e n a
  /\ frozen_part <$> s' = frozen_part <$> s.
Proof.
  intros Hsig Hy. apply Sequential_forward_Ok in Hy as (Hn & Hc & Hs & Hf).
  rewrite Hsig in Hc, Hs. apply mlp_sig_chain in Hc as [Hc1 Hc2]. done.
Qed.

Lemma mlp_forward_total (s : list (NNModule R)) (n_in e : nat) (n : Norm) (a : Activation) x :
  module_sig <$> s = mlp_sig n_in e n a ->
  ncols x = n_in -> accepts_rows s (nrows x) ->
  exists y s', Sequential_forward s x = Ok (y, s').
Proof.
  intros Hsig Hc Hacc. apply (Sequential_forward_total s x e); [|done].
  rewrite Hsig. by apply mlp_sig_chain.
Qed.

Lemma set_mask_twice l (m0 m : option (list bool)) :
  EGNNLayer.set_mask (EGNNLayer.set_mask l m0) m = EGNNLayer.set_mask l m.
Proof. done. Qed.

(** The mask the layer was built with plays no part in [forward]. *)
Lemma forward_ignores_stored_mask l (m0 mask : option (list bool)) h ei d :
  EGNNLayer.forward (EGNNLayer.set_mask l m0) h ei d mask = EGNNLayer.forward l h ei d mask.
Proof. unfold EGNNLayer.forward. by rewrite set_mask_twice. Qed.

Lemma wf_set_mask l (m : option (list bool)) :
  EGNNLayer_wf l -> EGNNLayer_wf (EGNNLayer.set_mask l m).
Proof. done. Qed.

Lemma same_layer_refl l : same_layer_but_mask l l.
Proof. by repeat split. Qed.

Lemma same_layer_trans l1 l2 l3 :
  same_layer_but_mask l1 l2 -> same_layer_but_mask l2 l3 -> same_layer_but_mask l1 l3.
Proof.
  unfold same_layer_but_mask. intros (?&?&?&?&?&?&?&?&?) (?&?&?&?&?&?&?&?&?).
  repeat split; congruence.
Qed.

(** The distance feature a message is built from has [distance_cols] columns. *)
Lemma message_Ok l (h_i h_j : Tensor2 R) d msg l1 :
  EGNNLayer_wf l ->
  EGNNLayer.message l h_i h_j d = Ok (msg, l1) ->
  nrows h_i = nrows h_j
  /\ nrows msg = nrows h_i /\ ncols msg = EGNNLayer.emb_dim l
  /\ EGNNLayer_wf l1 /\ same_layer_but_mask l l1
  /\ EGNNLayer.mask l1 = EGNNLayer.mask l
  /\ EGNNLayer.mlp_upd l1 = EGNNLayer.mlp_upd l.
Proof.
  intros (Hmsg & Hupd & Hrff) Hm. unfold EGNNLayer.message in Hm.
  apply bind_Ok in Hm as (d' & Hd' & Hm).
  apply bind_Ok in Hm as (c1 & Hc1 & Hm).
  apply bind_Ok in Hm as (c2 & Hc2 & Hm).
  apply bind_Ok in Hm as ([y mlp] & Hy & Hm). injection Hm as <- <-.
  apply cat_cols_Ok in Hc1 as (Hn1 & Hn1' & _).
  apply cat_cols_Ok in Hc2 as (Hn2 & Hn2' & _).
  eapply mlp_forward_Ok in Hy as (_ & Hny & Hcy & Hs' & Hf'); [|done].
  split; [done|]. split; [congruence|]. split; [done|].
  split; [by repeat split|]. by repeat split.
Qed.

Lemma aggregated_Ok l ei h d aggr_out l1 :
  EGNNLayer_wf l ->
  EGNNLayer.aggregated l ei h d = Ok (aggr_out, l1) ->
  nrows aggr_out = nrows h /\ ncols aggr_out = EGNNLayer.emb_dim l
  /\ EGNNLayer_wf l1 /\ same_layer_but_mask l l1
  /\ EGNNLayer.mask l1 = EGNNLayer.mask l
  /\ EGNNLayer.mlp_upd l1 = EGNNLayer.mlp_upd l
  /\ forall v : nat,
       v < nrows h -> (forall e : nat * nat, e ∈ ei -> e.2 ≠ v) ->
       (EGNNLayer.aggr l ≠ aggr_mul ->
        (EGNNLayer.aggr l = aggr_mean -> s_div s_zero (s_of_nat 1) = s_zero) ->
        rows aggr_out !! v = Some (replicate (EGNNLayer.emb_dim l) s_zero))
       /\ (EGNNLayer.aggr l = aggr_mul ->
           rows aggr_out !! v = Some (replicate (EGNNLayer.emb_dim l) s_one)).
Proof.
  intros Hwf Ha. unfold EGNNLayer.aggregated in Ha.
  apply bind_Ok in Ha as (h_i & Hi & Ha).
  apply bind_Ok in Ha as (h_j & Hj & Ha).
  apply bind_Ok in Ha as ([msg l1'] & Hm & Ha).
  apply bind_Ok in Ha as (ag & Hag & Ha). injection Ha as <- <-.
  apply gather_Ok in Hi as (_ & Hni & _).
  apply message_Ok in Hm as (_ & Hnm & Hcm & Hwf1 & Hsame & Hmask & Hupd); [|done].
  unfold EGNNLayer.aggregate in Hag.
  pose proof (scatter_shape _ _ _ _ _ Hag) as [Hn Hc].
  split; [done|]. split; [congruence|]. do 4 (split; [done|]).
  intros v Hv Hno. rewrite <- Hcm.
  destruct Hsame as (_ & _ & _ & Haggr & _). rewrite Haggr in Hag.
  assert (length ei.*2 = nrows msg) as Hlen by (rewrite Hnm, Hni; done).
  assert (v ∉ ei.*2) as Hnot.
  { intros (e & -> & He)%list_elem_of_fmap. by apply (Hno e). }
  split.
  - intros Hmul Hlaw.
    eapply scatter_untouched; [exact Hlen|exact Hag|done|done| |].
    + by destruct (EGNNLayer.aggr l).
    + destruct (EGNNLayer.aggr l); try done. by intros _; apply Hlaw.
  - intros Hmul. rewrite Hmul in Hag.
    eapply scatter_untouched_mul; [exact Hlen|exact Hag|done|done].
Qed.

(** [update]: the update network runs on [h] next to the aggregated
    messages, and only then is its result replaced by [h] on the rows the
    stored mask switches off. *)
Lemma update_Ok l (aggr_out : Tensor2 R) h out l2 :
  EGNNLayer_wf l ->
  nrows aggr_out = nrows h -> ncols aggr_out = EGNNLayer.emb_dim l ->
  EGNNLayer.update l aggr_out h = Ok (out, l2) ->
  ncols h = EGNNLayer.emb_dim l
  /\ EGNNLayer_wf l2 /\ same_layer_but_mask l l2 /\ EGNNLayer.mask l2 = EGNNLayer.mask l
  /\ exists x upd_out mlp,
       cat_cols h aggr_out = Ok x
       /\ Sequential_forward (EGNNLayer.mlp_upd l) x = Ok (upd_out, mlp)
       /\ nrows upd_out = nrows h /\ ncols upd_out = ncols h
       /\ match EGNNLayer.mask l with
          | Some m => where_rows m upd_out h = Ok out
          | None => out = upd_out
          end.
Proof.
  intros (Hmsg & Hupd & Hrff) Hn Hc Hu. unfold EGNNLayer.update in Hu.
  apply bind_Ok in Hu as (x & Hx & Hu).
  apply bind_Ok in Hu as ([upd_out mlp] & Hy & Hu).
  pose proof Hx as Hx'. apply cat_cols_Ok in Hx' as (_ & Hnx & Hcx & _).
  pose proof Hy as Hy'.
  eapply mlp_forward_Ok in Hy' as (Hcx' & Hny & Hcy & Hs' & Hf'); [|done].
  assert (ncols h = EGNNLayer.emb_dim l) as Hch by lia.
  assert (EGNNLayer.mask l2 = EGNNLayer.mask l /\ EGNNLayer.set_mlp_upd l mlp = l2
          /\ match EGNNLayer.mask l with
             | Some m => where_rows m upd_out h = Ok out
             | None => out = upd_out
             end) as (Hmask & <- & Hout).
  { simpl in Hu. destruct (EGNNLayer.mask l) as [m|] eqn:Hm.
    - apply bind_Ok in Hu as (o & Ho & Hu). injection Hu as <- <-. done.
    - injection Hu as <- <-. done. }
  split; [done|]. split; [by repeat split|]. split; [by repeat split|]. split; [done|].
  exists x, upd_out, mlp. repeat split; try done; congruence.
Qed.

End LayerFacts.


Section LayerForward.
Context {R : Type} `{Scalar R}.
Implicit Types (l : EGNNLayer.t R) (h d x out : Tensor2 R) (ei : EdgeIndex).

(** [forward] unfolded: the per-call mask is stored, the messages are
    aggregated, the update network runs, and the stored mask (now the
    per-call one) selects the rows that keep their input. *)
Lemma forward_Ok l h ei d (mask : option (list bool)) out l' :
  EGNNLayer_wf l ->
  EGNNLayer.forward l h ei d mask = Ok (out, l') ->
  exists (aggr_out : Tensor2 R) l1 x upd_out mlp,
    EGNNLayer.aggregated (EGNNLayer.set_mask l mask) ei h d = Ok (aggr_out, l1)
    /\ EGNNLayer.update l1 aggr_out h = Ok (out, l')
    /\ cat_cols h aggr_out = Ok x
    /\ Sequential_forward (EGNNLayer.mlp_upd l1) x = Ok (upd_out, mlp)
    /\ nrows upd_out = nrows h /\ ncols upd_out = ncols h
    /\ match mask with
       | Some m => where_rows m upd_out h = Ok out
       | None => out = upd_out
       end
    /\ ncols h = EGNNLayer.emb_dim l
    /\ EGNNLayer_wf l' /\ same_layer_but_mask l l' /\ EGNNLayer.mask l' = mask.
Proof.
  intros Hwf Hf. unfold EGNNLayer.forward, EGNNLayer.propagate in Hf.
  apply bind_Ok in Hf as ([out' l''] & Hf & Heq). injection Heq as -> ->.
  apply bind_Ok in Hf as ([aggr_out l1] & Ha & Hu).
  pose proof Ha as Ha'.
  apply aggregated_Ok in Ha' as (Hn & Hc & Hwf1 & Hsame1 & Hmask1 & Hupd1 & _);
    [|by apply wf_set_mask].
  pose proof Hu as Hu'. pose proof Hsame1 as (He1 & _). simpl in He1, Hc.
  apply update_Ok in Hu' as (Hch & Hwf2 & Hsame2 & Hmask2 & x & upd_out & mlp & Hx & Hy & Hny & Hcy & Hout);
    [|done|done|congruence].
  exists aggr_out, l1, x, upd_out, mlp.
  rewrite Hmask1 in Hout, Hmask2. simpl in Hout, Hmask2.
  assert (same_layer_but_mask l l') as Hsame.
  { eapply same_layer_trans; [|exact Hsame2].
    eapply same_layer_trans; [|exact Hsame1]. by repeat split. }
  do 7 (split; [done|]). split; [congruence|]. done.
Qed.

Lemma forward_shape l h ei d (mask : option (list bool)) out l' :
  EGNNLayer_wf l ->
  from_option (fun m : list bool => length m = nrows h) True mask ->
  EGNNLayer.forward l h ei d mask = Ok (out, l') ->
  nrows out = nrows h /\ ncols out = ncols h.
Proof.
  intros Hwf Hm Hf.
  apply forward_Ok in Hf as (a & l1 & x & u & mlp & _ & _ & _ & _ & Hn & Hc & Hout & _); [|done].
  destruct mask as [m|]; simpl in Hm.
  - by apply where_rows_shape in Hout.
  - by subst out.
Qed.

(** A row the mask of the call switches off is the row of the input. *)
Lemma forward_masked_row l h ei d (mask : list bool) out l' (i : nat) :
  EGNNLayer_wf l ->
  length mask = nrows h ->
  EGNNLayer.forward l h ei d (Some mask) = Ok (out, l') ->
  mask !! i = Some false ->
  rows out !! i = rows h !! i.
Proof.
  intros Hwf Hlen Hf Hi.
  apply forward_Ok in Hf
    as (a & l1 & x & u & mlp & Ha & _ & Hx & Hy & Hn & Hc & Hout & _); [|done].
  by rewrite (where_rows_lookup mask u h out i false).
Qed.

(** C2.  When [forward] is given a mask with one entry per node, every node
    the mask switches off comes out with the embedding it went in with.  The
    update network has run by then: its result [upd_out] exists, and the
    output is [torch.where(mask, upd_out, h)]. *)
Theorem forward_masked_row_is_input l h ei d (mask : list bool) out l' (i : nat) :
  EGNNLayer_wf l ->
  length mask = nrows h ->
  EGNNLayer.forward l h ei d (Some mask) = Ok (out, l') ->
  mask !! i = Some false ->
  rows out !! i = rows h !! i
  /\ exists (aggr_out : Tensor2 R) l1 x upd_out mlp,
       EGNNLayer.aggregated (EGNNLayer.set_mask l (Some mask)) ei h d = Ok (aggr_out, l1)
       /\ cat_cols h aggr_out = Ok x
       /\ Sequential_forward (EGNNLayer.mlp_upd l1) x = Ok (upd_out, mlp)
       /\ where_rows mask upd_out h = Ok out.
Proof.
  intros Hwf Hlen Hf Hi. split; [by eapply forward_masked_row|].
  apply forward_Ok in Hf
    as (a & l1 & x & u & mlp & Ha & _ & Hx & Hy & Hn & Hc & Hout & _); [|done].
  by exists a, l1, x, u, mlp.
Qed.

(** C5, as the code has it.  A node that is the target of no edge is
    handed, as its aggregated message and as what [update] receives, the
    zero vector of length [emb_dim] when the messages are summed, averaged
    (the sum of no message being divided by one) or reduced to their minimum
    or maximum, and the vector of ones when they are multiplied. *)
Theorem no_incoming_edge_aggregates_zero l h ei d (mask : option (list bool)) out l' (v : nat) :
  EGNNLayer_wf l ->
  EGNNLayer.forward l h ei d mask = Ok (out, l') ->
  v < nrows h ->
  (forall e : nat * nat, e ∈ ei -> e.2 ≠ v) ->
  exists (aggr_out : Tensor2 R) l1,
    EGNNLayer.aggregated (EGNNLayer.set_mask l mask) ei h d = Ok (aggr_out, l1)
    /\ EGNNLayer.update l1 aggr_out h = Ok (out, l')
    /\ (EGNNLayer.aggr l ≠ aggr_mul ->
        (EGNNLayer.aggr l = aggr_mean -> s_div s_zero (s_of_nat 1) = s_zero) ->
        rows aggr_out !! v = Some (replicate (EGNNLayer.emb_dim l) s_zero))
    /\ (EGNNLayer.aggr l = aggr_mul ->
        rows aggr_out !! v = Some (replicate (EGNNLayer.emb_dim l) s_one)).
Proof.
  intros Hwf Hf Hv Hno.
  apply forward_Ok in Hf as (a & l1 & x & u & mlp & Ha & Hu & _); [|done].
  exists a, l1. split; [done|]. split; [done|].
  apply aggregated_Ok in Ha as (_ & _ & _ & _ & _ & _ & Hrow); [|by apply wf_set_mask].
  by apply Hrow.
Qed.

End LayerForward.


(** ** EGNN_Full: the loop over the layers *)

Section LoopFacts.
Context {R : Type} `{Scalar R}.
Implicit Types (l conv : EGNNLayer.t R) (h d x out : Tensor2 R) (ei : EdgeIndex).

Lemma zip_with_diag {A B} (f : A -> A -> B) (r : list A) :
  zip_with f r r = (fun a => f a a) <$> r.
Proof. induction r as [|a r IH]; [done|]. rewrite fmap_cons. simpl. by f_equal. Qed.

Lemma conv_step_Ok (residual : bool) conv h ei d (mask : option (list bool)) h' conv' :
  EGNNLayer_wf conv -> mask_fits mask (nrows h) ->
  EGNN_Full.conv_step residual conv h ei d mask = Ok (h', conv') ->
  exists h_update,
    EGNNLayer.forward conv h ei d mask = Ok (h_update, conv')
    /\ nrows h_update = nrows h /\ ncols h_update = ncols h
    /\ nrows h' = nrows h /\ ncols h' = ncols h
    /\ rows h' = (if residual then zip_with (zip_with s_add) (rows h) (rows h_update)
                  else rows h_update).
Proof.
  intros Hwf Hm Hs. unfold EGNN_Full.conv_step in Hs.
  apply bind_Ok in Hs as ([h_update c] & Hf & Hs).
  apply bind_Ok in Hs as (h2 & Hh2 & Hs). injection Hs as -> ->.
  pose proof (forward_shape _ _ _ _ _ _ _ Hwf Hm Hf) as [Hn Hc].
  exists h_update. split; [done|]. split; [done|]. split; [done|].
  destruct residual.
  - unfold tensor_add in Hh2. rewrite broadcast2_same_shape in Hh2 by done.
    injection Hh2 as <-. unfold nrows in *. simpl.
    rewrite length_zip_with. split; [lia|done].
  - injection Hh2 as <-. done.
Qed.

(** One turn of the loop on a node the mask switches off: the embedding is
    kept without the residual connection, and added to itself with it. *)
Lemma conv_step_masked_row (residual : bool) conv h ei d (mask : list bool) h' conv' (i : nat) :
  EGNNLayer_wf conv -> length mask = nrows h ->
  EGNN_Full.conv_step residual conv h ei d (Some mask) = Ok (h', conv') ->
  mask !! i = Some false ->
  rows h' !! i
  = (if residual then (fun r : list R => (fun a => s_add a a) <$> r) <$> rows h !! i
     else rows h !! i).
Proof.
  intros Hwf Hlen Hs Hi.
  pose proof Hs as Hs'.
  apply conv_step_Ok in Hs' as (h_update & Hf & _ & _ & _ & _ & Hrows); [|done..].
  apply forward_masked_row with (i := i) in Hf as Hrow; [|done..].
  rewrite Hrows. destruct residual; [|done].
  rewrite lookup_zip_with, Hrow.
  destruct (rows h !! i) as [r|]; simpl; [|done]. by rewrite zip_with_diag.
Qed.

Lemma conv_loop_Ok (residual : bool) (convs convs' : list (EGNNLayer.t R)) h ei d
    (mask : option (list bool)) h' (log : list EGNN_Full.Event) :
  Forall EGNNLayer_wf convs -> mask_fits mask (nrows h) ->
  EGNN_Full.conv_loop residual convs h ei d mask = Ok (h', convs', log) ->
  nrows h' = nrows h /\ ncols h' = ncols h.
Proof.
  intros Hwf. revert h convs' h' log.
  induction Hwf as [|conv convs Hc Hcs IH]; intros h convs' h' log Hm Hl; simpl in Hl.
  - by injection Hl as -> _ _.
  - apply bind_Ok in Hl as ([h1 c1] & Hs & Hl).
    apply bind_Ok in Hl as ([[h2 cs2] lg] & Hl2 & Hl). injection Hl as -> _ _.
    apply conv_step_Ok in Hs as (_ & _ & _ & _ & Hn & Hcol & _); [|done..].
    apply IH in Hl2 as [Hn2 Hc2]; [|unfold mask_fits in *; by rewrite Hn].
    split; congruence.
Qed.

(** The log of the loop: one event per layer, each with the edge index, the
    distance tensor and the mask the loop was entered with. *)
Lemma conv_loop_log (residual : bool) (convs convs' : list (EGNNLayer.t R)) h ei d
    (mask : option (list bool)) h' (log : list EGNN_Full.Event) :
  EGNN_Full.conv_loop residual convs h ei d mask = Ok (h', convs', log) ->
  length convs' = length convs
  /\ exists hs : list (Tensor2 R),
       length hs = length convs
       /\ log = (fun hk => EGNN_Full.ev_conv hk ei d mask) <$> hs.
Proof.
  revert h convs' h' log.
  induction convs as [|conv convs IH]; intros h convs' h' log Hl; simpl in Hl.
  - injection Hl as _ <- <-. split; [done|]. by exists [].
  - apply bind_Ok in Hl as ([h1 c1] & Hs & Hl).
    apply bind_Ok in Hl as ([[h2 cs2] lg] & Hl2 & Hl). injection Hl as _ <- <-.
    apply IH in Hl2 as (Hlen & hs & Hhs & ->).
    split; [simpl; by rewrite Hlen|].
    exists (h :: hs). split; [simpl; by rewrite Hhs|done].
Qed.

(** With the residual connection, the embedding of a switched-off node is
    doubled by every layer: layer [k] receives it doubled [k] times. *)
Lemma conv_loop_masked_row_residual (convs convs' : list (EGNNLayer.t R)) h ei d
    (mask : list bool) h' (log : list EGNN_Full.Event) (i : nat) :
  Forall EGNNLayer_wf convs -> length mask = nrows h ->
  mask !! i = Some false ->
  EGNN_Full.conv_loop true convs h ei d (Some mask) = Ok (h', convs', log) ->
  rows h' !! i = Nat.iter (length convs) double_row <$> rows h !! i
  /\ forall (k : nat) hk ei' d' mk,
       log !! k = Some (EGNN_Full.ev_conv hk ei' d' mk) ->
       rows hk !! i = Nat.iter k double_row <$> rows h !! i.
Proof.
  intros Hwf. revert h convs' h' log.
  induction Hwf as [|conv convs Hc Hcs IH]; intros h convs' h' log Hm Hi Hl; simpl in Hl.
  - injection Hl as -> _ <-. split.
    + simpl. by destruct (rows h' !! i).
    + intros k hk ei' d' mk Hk. by rewrite lookup_nil in Hk.
  - apply bind_Ok in Hl as ([h1 c1] & Hs & Hl).
    apply bind_Ok in Hl as ([[h2 cs2] lg] & Hl2 & Hl). injection Hl as -> _ <-.
    pose proof Hs as Hs'.
    apply conv_step_Ok in Hs' as (_ & _ & _ & _ & Hn & _ & _); [|done..].
    apply conv_step_masked_row with (i := i) in Hs; [|done..].
    apply IH in Hl2 as [Hfin Hlog]; [|congruence|done].
    split.
    + rewrite Hfin, Hs. destruct (rows h !! i) as [r|]; [|done].
      change (Some (Nat.iter (length convs) double_row (double_row r))
              = Some (Nat.iter (S (length convs)) double_row r)).
      by rewrite Nat.iter_succ_r.
    + intros [|k] hk ei' d' mk Hk; simpl in Hk.
      * injection Hk as <- _ _ _. simpl. by destruct (rows h !! i).
      * rewrite (Hlog k hk ei' d' mk Hk), Hs.
        destruct (rows h !! i) as [r|]; [|done].
        change (Some (Nat.iter k double_row (double_row r))
                = Some (Nat.iter (S k) double_row r)).
        by rewrite Nat.iter_succ_r.
Qed.

(** Without the residual connection it is kept. *)
Lemma conv_loop_masked_row_plain (convs convs' : list (EGNNLayer.t R)) h ei d
    (mask : list bool) h' (log : list EGNN_Full.Event) (i : nat) :
  Forall EGNNLayer_wf convs -> length mask = nrows h ->
  mask !! i = Some false ->
  EGNN_Full.conv_loop false convs h ei d (Some mask) = Ok (h', convs', log) ->
  rows h' !! i = rows h !! i.
Proof.
  intros Hwf. revert h convs' h' log.
  induction Hwf as [|conv convs Hc Hcs IH]; intros h convs' h' log Hm Hi Hl; simpl in Hl.
  - by injection Hl as -> _ _.
  - apply bind_Ok in Hl as ([h1 c1] & Hs & Hl).
    apply bind_Ok in Hl as ([[h2 cs2] lg] & Hl2 & Hl). injection Hl as -> _ _.
    pose proof Hs as Hs'.
    apply conv_step_Ok in Hs' as (_ & _ & _ & _ & Hn & _ & _); [|done..].
    apply conv_step_masked_row with (i := i) in Hs; [|done..].
    apply IH in Hl2; [|congruence|done]. congruence.
Qed.

(** Doubling [n] times is multiplying by 2^n, in an arithmetic where
    [1 * a = a] and [k * a + k * a = (2 k) * a]. *)
Lemma iter_double_row (n : nat) (r : list R) :
  (forall a, s_mul (s_of_nat 1) a = a) ->
  (forall (k : nat) a,
     s_add (s_mul (s_of_nat k) a) (s_mul (s_of_nat k) a) = s_mul (s_of_nat (2 * k)) a) ->
  Nat.iter n double_row r = s_mul (s_of_nat (2 ^ n)) <$> r.
Proof.
  intros H1 H2. induction n as [|n IH].
  - simpl. rewrite <- (list_fmap_id r) at 1. apply list_fmap_ext. intros _ a _. by rewrite H1.
  - rewrite Nat.iter_succ, IH. unfold double_row. rewrite <- list_fmap_compose.
    apply list_fmap_ext. intros _ a _. simpl. by rewrite H2.
Qed.


(** The calls the loop makes, one per layer and in order: layer [k] is
    called with the embeddings the step before it left, the edge index, the
    distance tensor and the mask the loop was entered with, and its result,
    added to its input when [residual] is set, is what the next layer
    receives.  [hs] lists the inputs of the layers, and the log of the loop
    records exactly these calls. *)
Lemma conv_loop_calls (residual : bool) (convs convs' : list (EGNNLayer.t R)) h ei d
    (mask : option (list bool)) h' (log : list EGNN_Full.Event) :
  EGNN_Full.conv_loop residual convs h ei d mask = Ok (h', convs', log) ->
  exists hs : list (Tensor2 R),
    length hs = length convs
    /\ (hs ++ [h']) !! 0 = Some h
    /\ log = (fun hk => EGNN_Full.ev_conv hk ei d mask) <$> hs
    /\ forall (k : nat) conv,
         convs !! k = Some conv ->
         exists hk h_update conv' hk',
           hs !! k = Some hk
           /\ EGNNLayer.forward conv hk ei d mask = Ok (h_update, conv')
           /\ convs' !! k = Some conv'
           /\ (if residual then tensor_add hk h_update else Ok h_update) = Ok hk'
           /\ (hs ++ [h']) !! S k = Some hk'.
Proof.
  revert h convs' h' log.
  induction convs as [|conv convs IH]; intros h convs' h' log Hl; simpl in Hl.
  - injection Hl as <- <- <-. exists []. by repeat split.
  - apply bind_Ok in Hl as ([h1 c1] & Hs & Hl).
    apply bind_Ok in Hl as ([[h2 cs2] lg] & Hl2 & Hl). injection Hl as <- <- <-.
    apply IH in Hl2 as (hs & Hlen & Hhead & -> & Hcalls).
    exists (h :: hs). split; [simpl; by rewrite Hlen|]. split; [done|]. split; [done|].
    intros [|k] cv Hk; simpl in Hk.
    + injection Hk as <-. unfold EGNN_Full.conv_step in Hs.
      apply bind_Ok in Hs as ([h_update c] & Hf & Hs).
      apply bind_Ok in Hs as (h3 & Hh3 & Hs). injection Hs as -> ->.
      exists h, h_update, c1, h1. by repeat split.
    + destruct (Hcalls k cv Hk) as (hk & u & cv' & hk' & ? & ? & ? & ? & ?).
      exists hk, u, cv', hk'. by repeat split.
Qed.

End LoopFacts.


(** ** EGNN_Full.forward *)

Section ModelFacts.
Context {R : Type} `{Scalar R}.
Implicit Types (m : EGNN_Full.t R) (batch : Batch.t R) (h d x out : Tensor2 R).

Lemma forward_traced_Ok m batch out m' (log : list EGNN_Full.Event) :
  EGNN_Full.forward_traced m batch = Ok (out, m', log) ->
  exists h0 d hL convs' log' pooled pred',
    Linear_forward (EGNN_Full.emb_in m) (Batch.x batch) = Ok h0
    /\ EGNN_Full.edge_distances (Batch.pos batch) (Batch.edge_index batch) = Ok d
    /\ EGNN_Full.conv_loop (EGNN_Full.residual m) (EGNN_Full.convs m) h0
         (Batch.edge_index batch) d (Batch.mask batch) = Ok (hL, convs', log')
    /\ global_pool (EGNN_Full.pool m) hL (Batch.batch batch) = Ok pooled
    /\ Sequential_forward (EGNN_Full.pred m) pooled = Ok (out, pred')
    /\ m' = EGNN_Full.set_convs_pred m convs' pred'
    /\ log = EGNN_Full.ev_distances d :: log'
    /\ EGNN_Full.embeddings m batch = Ok hL.
Proof.
  unfold EGNN_Full.forward_traced, EGNN_Full.embeddings. intros Hf.
  apply bind_Ok in Hf as (h0 & Hh0 & Hf).
  apply bind_Ok in Hf as (d & Hd & Hf).
  apply bind_Ok in Hf as ([[hL convs'] log'] & Hl & Hf).
  apply bind_Ok in Hf as (pooled & Hp & Hf).
  apply bind_Ok in Hf as ([o pred'] & Hpr & Hf). injection Hf as -> <- <-.
  exists h0, d, hL, convs', log', pooled, pred'.
  rewrite Hh0, Hd. simpl. rewrite Hl. done.
Qed.

Lemma forward_traced_of_forward m batch out m' :
  EGNN_Full.forward m batch = Ok (out, m') ->
  exists log, EGNN_Full.forward_traced m batch = Ok (out, m', log).
Proof.
  unfold EGNN_Full.forward. intros Hf.
  apply bind_Ok in Hf as ([[o m1] log] & Hf & Heq). injection Heq as -> ->. eauto.
Qed.

Lemma EGNN_Full_wf_convs m : EGNN_Full_wf m -> Forall EGNNLayer_wf (EGNN_Full.convs m).
Proof. intros (_ & _ & Hc & _). eapply Forall_impl; [exact Hc|]. by intros l [? _]. Qed.

(** Distance of edge [k]: the norm of the difference of the positions of its
    two end points. *)
Lemma edge_distances_Ok (pos : Tensor2 R) (ei : EdgeIndex) d :
  EGNN_Full.edge_distances pos ei = Ok d ->
  nrows d = length ei /\ ncols d = 1
  /\ forall (k row col : nat),
       ei !! k = Some (row, col) ->
       exists p_row p_col,
         rows pos !! row = Some p_row /\ rows pos !! col = Some p_col
         /\ rows d !! k = Some [euclid p_row p_col].
Proof.
  unfold EGNN_Full.edge_distances. intros Hd.
  apply bind_Ok in Hd as (pr & Hpr & Hd).
  apply bind_Ok in Hd as (pc & Hpc & Hd).
  apply bind_Ok in Hd as (diff & Hdiff & Hd). injection Hd as <-.
  apply gather_Ok in Hpr as (Hcr & Hnr & Hrow).
  apply gather_Ok in Hpc as (Hcc & Hnc & Hcol).
  rewrite length_fmap in Hnr, Hnc.
  unfold tensor_sub in Hdiff.
  rewrite broadcast2_same_shape in Hdiff by congruence. injection Hdiff as <-.
  split; [|split; [done|]].
  - rewrite nrows_norm_rows. unfold nrows in *. simpl. rewrite length_zip_with. lia.
  - intros k row col Hk.
    destruct (Hrow k row) as [[p_row Hp_row] Hgr]; [by rewrite list_lookup_fmap, Hk|].
    destruct (Hcol k col) as [[p_col Hp_col] Hgc]; [by rewrite list_lookup_fmap, Hk|].
    exists p_row, p_col. split; [done|]. split; [done|].
    unfold norm_rows. simpl.
    rewrite list_lookup_fmap, lookup_zip_with, Hgr, Hp_row. simpl.
    by rewrite Hgc, Hp_col.
Qed.

Lemma euclid_sym (u v : list R) :
  (forall a b : R, s_mul (s_sub a b) (s_sub a b) = s_mul (s_sub b a) (s_sub b a)) ->
  euclid u v = euclid v u.
Proof.
  intros Hsym. unfold euclid. do 2 f_equal.
  revert v. induction u as [|a u IH]; intros [|b v]; simpl; try done.
  f_equal; [apply Hsym|apply IH].
Qed.

(** C6.  A forward pass computes the distance tensor once, before the loop
    over the layers: the log starts with that one event and goes on with one
    event per layer.  Entry [k] of the tensor is the Euclidean norm of the
    difference of the positions of the end points of edge [k] (in either
    order, the square of a difference being that of its opposite).  Every
    layer is called with this very tensor: [hs] lists the embeddings the
    layers receive, starting from [emb_in(x)], and layer [k] of the model is
    the call [forward conv hs[k] edge_index d mask], whose result (added to
    [hs[k]] when [residual] is set) is what layer [k + 1] receives and, after
    the last layer, what is pooled. *)
Theorem distances_computed_once_and_shared m batch out m' (log : list EGNN_Full.Event) :
  EGNN_Full.forward_traced m batch = Ok (out, m', log) ->
  exists d (hs : list (Tensor2 R)) h0 hL,
    EGNN_Full.edge_distances (Batch.pos batch) (Batch.edge_index batch) = Ok d
    /\ shape d = (length (Batch.edge_index batch), 1)
    /\ (forall (k row col : nat),
          Batch.edge_index batch !! k = Some (row, col) ->
          exists p_row p_col,
            rows (Batch.pos batch) !! row = Some p_row
            /\ rows (Batch.pos batch) !! col = Some p_col
            /\ rows d !! k = Some [euclid p_row p_col]
            /\ ((forall a b : R,
                   s_mul (s_sub a b) (s_sub a b) = s_mul (s_sub b a) (s_sub b a)) ->
                rows d !! k = Some [euclid p_col p_row]))
    /\ length hs = length (EGNN_Full.convs m)
    /\ log = EGNN_Full.ev_distances d
             :: ((fun hk => EGNN_Full.ev_conv hk (Batch.edge_index batch) d (Batch.mask batch))
                   <$> hs)
    /\ Linear_forward (EGNN_Full.emb_in m) (Batch.x batch) = Ok h0
    /\ (hs ++ [hL]) !! 0 = Some h0
    /\ (forall (k : nat) conv,
          EGNN_Full.convs m !! k = Some conv ->
          exists hk h_update conv' hk',
            hs !! k = Some hk
            /\ EGNNLayer.forward conv hk (Batch.edge_index batch) d (Batch.mask batch)
               = Ok (h_update, conv')
            /\ EGNN_Full.convs m' !! k = Some conv'
            /\ (if EGNN_Full.residual m then tensor_add hk h_update else Ok h_update)
               = Ok hk'
            /\ (hs ++ [hL]) !! S k = Some hk')
    /\ EGNN_Full.embeddings m batch = Ok hL
    /\ exists pooled pred',
         global_pool (EGNN_Full.pool m) hL (Batch.batch batch) = Ok pooled
         /\ Sequential_forward (EGNN_Full.pred m) pooled = Ok (out, pred').
Proof.
  intros Hf.
  apply forward_traced_Ok in Hf
    as (h0 & d & hL & convs' & log' & pooled & pred' & Hh0 & Hd & Hl & Hp & Hpr & -> & ->
        & Hemb).
  apply conv_loop_calls in Hl as (hs & Hhs & Hhead & -> & Hcalls).
  exists d, hs, h0, hL. split; [done|].
  apply edge_distances_Ok in Hd as (Hn & Hc & Hrows).
  split; [unfold shape; by rewrite Hn, Hc|].
  split.
  { intros k row col Hk. destruct (Hrows k row col Hk) as (p_row & p_col & Hr & Hcl & Hdk).
    exists p_row, p_col. do 3 (split; [done|]).
    intros Hsym. by rewrite Hdk, (euclid_sym _ _ Hsym). }
  do 5 (split; [done|]). split; [done|]. by exists pooled, pred'.
Qed.

(** C10.  With the residual connection and a mask in the batch, every layer
    turns the embedding of a switched-off node into its double (the layer
    returns the embedding itself and the residual adds it back), so layer [k]
    receives 2^k times the initial embedding [emb_in(x)[i]] and the loop ends
    with 2^depth times it. *)
Theorem residual_doubles_masked_rows m batch (mask : list bool) (i : nat) out m'
    (log : list EGNN_Full.Event) :
  EGNN_Full_wf m ->
  EGNN_Full.residual m = true ->
  Batch.mask batch = Some mask ->
  length mask = nrows (Batch.x batch) ->
  mask !! i = Some false ->
  (forall a : R, s_mul (s_of_nat 1) a = a) ->
  (forall (k : nat) (a : R),
     s_add (s_mul (s_of_nat k) a) (s_mul (s_of_nat k) a) = s_mul (s_of_nat (2 * k)) a) ->
  EGNN_Full.forward_traced m batch = Ok (out, m', log) ->
  (forall (conv conv' : EGNNLayer.t R) h h' (ei : EdgeIndex) d,
     EGNNLayer_wf conv -> length mask = nrows h ->
     EGNN_Full.conv_step true conv h ei d (Some mask) = Ok (h', conv') ->
     rows h' !! i = fmap (s_mul (s_of_nat 2)) <$> rows h !! i)
  /\ exists h0 hL,
       Linear_forward (EGNN_Full.emb_in m) (Batch.x batch) = Ok h0
       /\ EGNN_Full.embeddings m batch = Ok hL
       /\ rows hL !! i = fmap (s_mul (s_of_nat (2 ^ EGNN_Full.depth m))) <$> rows h0 !! i
       /\ forall (k : nat) hk (ei' : EdgeIndex) d' (mk : option (list bool)),
            log !! S k = Some (EGNN_Full.ev_conv hk ei' d' mk) ->
            rows hk !! i = fmap (s_mul (s_of_nat (2 ^ k))) <$> rows h0 !! i.
Proof.
  intros Hwf Hres Hmask Hlen Hi H1 H2 Hf. split.
  - intros conv conv' h h' ei d Hc Hl Hs.
    apply conv_step_masked_row with (i := i) in Hs; [|done..]. rewrite Hs.
    destruct (rows h !! i) as [r|]; [|done]. simpl. f_equal.
    apply list_fmap_ext. intros _ a _. by rewrite <- (H1 a) at 1 2; rewrite H2.
  - apply forward_traced_Ok in Hf
      as (h0 & d & hL & convs' & log' & pooled & pred' & Hh0 & _ & Hl & _ & _ & _ & -> & Hemb).
    exists h0, hL. split; [done|]. split; [done|].
    rewrite Hres, Hmask in Hl.
    pose proof Hh0 as Hh0'. apply F_linear_Ok in Hh0' as (_ & _ & Hn0 & _).
    apply conv_loop_masked_row_residual with (i := i) in Hl as [Hfin Hlog];
      [|by apply EGNN_Full_wf_convs|congruence|done].
    destruct Hwf as (_ & Hdepth & _). rewrite Hdepth in Hfin. split.
    + rewrite Hfin. destruct (rows h0 !! i) as [r|]; [|done]. simpl.
      by rewrite iter_double_row.
    + intros k hk ei' d' mk Hk. simpl in Hk. rewrite (Hlog k hk ei' d' mk Hk).
      destruct (rows h0 !! i) as [r|]; [|done]. simpl. by rewrite iter_double_row.
Qed.

(** Without the residual connection the embedding of a switched-off node
    leaves the loop as it entered it. *)
Lemma plain_keeps_masked_rows m batch (mask : list bool) (i : nat) h0 hL :
  EGNN_Full_wf m ->
  EGNN_Full.residual m = false ->
  Batch.mask batch = Some mask ->
  length mask = nrows (Batch.x batch) ->
  mask !! i = Some false ->
  Linear_forward (EGNN_Full.emb_in m) (Batch.x batch) = Ok h0 ->
  EGNN_Full.embeddings m batch = Ok hL ->
  rows hL !! i = rows h0 !! i.
Proof.
  intros Hwf Hres Hmask Hlen Hi Hh0 Hemb. unfold EGNN_Full.embeddings in Hemb.
  rewrite Hh0 in Hemb. simpl in Hemb.
  apply bind_Ok in Hemb as (d & Hd & Hemb).
  apply bind_Ok in Hemb as ([[h cs] lg] & Hl & Hemb). injection Hemb as ->.
  rewrite Hres, Hmask in Hl.
  apply F_linear_Ok in Hh0 as (_ & _ & Hn0 & _).
  apply conv_loop_masked_row_plain with (i := i) in Hl;
    [done|by apply EGNN_Full_wf_convs|congruence|done].
Qed.

End ModelFacts.


(** ** What a forward pass writes *)

Section FrameFacts.
Context {R : Type} `{Scalar R}.
Implicit Types (l conv : EGNNLayer.t R) (m : EGNN_Full.t R) (h d x out : Tensor2 R).

Lemma same_layer_set_mask l (mask : option (list bool)) :
  same_layer_but_mask l (EGNNLayer.set_mask l mask).
Proof. by repeat split. Qed.

Lemma message_frame l (h_i h_j : Tensor2 R) d msg l1 :
  EGNNLayer.message l h_i h_j d = Ok (msg, l1) ->
  EGNNLayer.mask l1 = EGNNLayer.mask l /\ same_layer_but_mask l l1.
Proof.
  unfold EGNNLayer.message. intros Hm.
  apply bind_Ok in Hm as (d' & _ & Hm).
  apply bind_Ok in Hm as (c1 & _ & Hm).
  apply bind_Ok in Hm as (c2 & _ & Hm).
  apply bind_Ok in Hm as ([y mlp] & Hy & Hm). injection Hm as <- <-.
  apply Sequential_forward_Ok in Hy as (_ & _ & _ & Hf).
  split; [done|]. by repeat split.
Qed.

Lemma update_frame l (aggr_out : Tensor2 R) h out l2 :
  EGNNLayer.update l aggr_out h = Ok (out, l2) ->
  EGNNLayer.mask l2 = EGNNLayer.mask l /\ same_layer_but_mask l l2.
Proof.
  unfold EGNNLayer.update. intros Hu.
  apply bind_Ok in Hu as (x & _ & Hu).
  apply bind_Ok in Hu as ([upd_out mlp] & Hy & Hu).
  apply Sequential_forward_Ok in Hy as (_ & _ & _ & Hf).
  assert (l2 = EGNNLayer.set_mlp_upd l mlp) as ->.
  { simpl in Hu. destruct (EGNNLayer.mask l).
    - apply bind_Ok in Hu as (o & _ & Hu). by injection Hu as _ <-.
    - by injection Hu as _ <-. }
  split; [done|]. by repeat split.
Qed.

Lemma forward_frame l h (ei : EdgeIndex) d (mask : option (list bool)) out l' :
  EGNNLayer.forward l h ei d mask = Ok (out, l') ->
  EGNNLayer.mask l' = mask /\ same_layer_but_mask l l'.
Proof.
  unfold EGNNLayer.forward, EGNNLayer.propagate, EGNNLayer.aggregated. intros Hf.
  apply bind_Ok in Hf as ([out' l''] & Hf & Heq). injection Heq as -> ->.
  apply bind_Ok in Hf as ([aggr_out l1] & Ha & Hu).
  apply bind_Ok in Ha as (h_i & _ & Ha).
  apply bind_Ok in Ha as (h_j & _ & Ha).
  apply bind_Ok in Ha as ([msg l0] & Hm & Ha).
  apply bind_Ok in Ha as (ag & _ & Ha). injection Ha as _ ->.
  apply message_frame in Hm as [Hmask1 Hsame1].
  apply update_frame in Hu as [Hmask2 Hsame2].
  split; [by rewrite Hmask2, Hmask1|].
  eapply same_layer_trans; [|exact Hsame2].
  eapply same_layer_trans; [|exact Hsame1]. apply same_layer_set_mask.
Qed.

Lemma conv_loop_frame (residual : bool) (convs convs' : list (EGNNLayer.t R)) h
    (ei : EdgeIndex) d (mask : option (list bool)) h' (log : list EGNN_Full.Event) :
  EGNN_Full.conv_loop residual convs h ei d mask = Ok (h', convs', log) ->
  Forall2 (fun l l' => EGNNLayer.mask l' = mask /\ same_layer_but_mask l l') convs convs'.
Proof.
  revert h convs' h' log.
  induction convs as [|conv convs IH]; intros h convs' h' log Hl; simpl in Hl.
  - injection Hl as _ <- _. constructor.
  - apply bind_Ok in Hl as ([h1 c1] & Hs & Hl).
    apply bind_Ok in Hl as ([[h2 cs2] lg] & Hl2 & Hl). injection Hl as _ <- _.
    unfold EGNN_Full.conv_step in Hs.
    apply bind_Ok in Hs as ([h_update c] & Hf & Hs).
    apply bind_Ok in Hs as (h3 & _ & Hs). injection Hs as _ ->.
    constructor; [by apply forward_frame in Hf|by eapply IH].
Qed.

(** A module that is no batch norm in training mode comes out of a forward
    pass as it went in. *)
Lemma Sequential_forward_unchanged (s s' : list (NNModule R)) x y :
  Sequential_forward s x = Ok (y, s') ->
  (forall bn, mBatchNorm1d bn ∈ s -> bn_training bn = false) ->
  s' = s.
Proof.
  revert x y s'. induction s as [|mo s IH]; intros x y s' Hy Hbn; simpl in Hy.
  - by injection Hy as _ <-.
  - apply bind_Ok in Hy as ([y1 m1] & Ha & Hy).
    apply bind_Ok in Hy as ([y2 s2] & Ha0 & Hy). injection Hy as _ <-.
    f_equal.
    + destruct mo as [li|ln|bn| | |]; simpl in Ha.
      * apply bind_Ok in Ha as (? & _ & Ha). by injection Ha as _ <-.
      * apply bind_Ok in Ha as (? & _ & Ha). by injection Ha as _ <-.
      * apply bind_Ok in Ha as ([y3 bn'] & Ha & Heq). injection Heq as _ <-.
        apply BatchNorm1d_forward_Ok in Ha as (_ & _ & _ & _ & _ & _ & Hsame).
        f_equal. apply Hsame, Hbn. by left.
      * by injection Ha as _ <-.
      * by injection Ha as _ <-.
      * by injection Ha as _ <-.
    + eapply IH; [done|]. intros bn Hin. apply Hbn. by right.
Qed.

(** *** The object after a call, returned or raised *)

Lemma BatchNorm1d_after_of_Ok (bn bn' : BatchNorm1d R) x y :
  BatchNorm1d_forward bn x = Ok (y, bn') -> BatchNorm1d_after bn x = bn'.
Proof. unfold BatchNorm1d_after. by intros ->. Qed.

Lemma BatchNorm1d_after_frozen (bn : BatchNorm1d R) x :
  frozen_part (mBatchNorm1d (BatchNorm1d_after bn x)) = frozen_part (mBatchNorm1d bn).
Proof.
  unfold BatchNorm1d_after.
  destruct (BatchNorm1d_forward bn x) as [[y bn']|e] eqn:Hf.
  - by apply BatchNorm1d_forward_Ok in Hf as (_ & _ & _ & _ & Hfr & _).
  - by destruct (bn_training bn).
Qed.

Lemma BatchNorm1d_after_eval (bn : BatchNorm1d R) x :
  bn_training bn = false -> BatchNorm1d_after bn x = bn.
Proof.
  intros Ht. unfold BatchNorm1d_after.
  destruct (BatchNorm1d_forward bn x) as [[y bn']|e] eqn:Hf.
  - apply BatchNorm1d_forward_Ok in Hf as (_ & _ & _ & _ & _ & _ & Hsame). by apply Hsame.
  - by rewrite Ht.
Qed.

(** A batch norm in training mode counts the call, whether it returns or
    raises. *)
Lemma BatchNorm1d_after_counts (bn : BatchNorm1d R) x :
  bn_training bn = true ->
  num_batches_tracked (BatchNorm1d_after bn x) = S (num_batches_tracked bn).
Proof.
  intros Ht. unfold BatchNorm1d_after, BatchNorm1d_forward. rewrite Ht.
  destruct (decide (nrows x = 1)); [done|].
  destruct (guard_shape _); simpl; [|done].
  by destruct (decide (nrows x = 0)).
Qed.

Lemma NNModule_after_of_Ok (mo mo' : NNModule R) x y :
  NNModule_forward mo x = Ok (y, mo') -> NNModule_after mo x = mo'.
Proof.
  destruct mo as [li|ln|bn| | |]; simpl; intros Hy.
  - apply bind_Ok in Hy as (? & _ & Hy). by injection Hy as _ <-.
  - apply bind_Ok in Hy as (? & _ & Hy). by injection Hy as _ <-.
  - apply bind_Ok in Hy as ([y1 bn1] & Ha & Hy). injection Hy as _ <-.
    f_equal. by eapply BatchNorm1d_after_of_Ok.
  - by injection Hy as _ <-.
  - by injection Hy as _ <-.
  - by injection Hy as _ <-.
Qed.

Lemma NNModule_after_frozen (mo : NNModule R) x :
  frozen_part (NNModule_after mo x) = frozen_part mo.
Proof. destruct mo; try done. apply BatchNorm1d_after_frozen. Qed.

Lemma Sequential_after_of_Ok (s s' : list (NNModule R)) x y :
  Sequential_forward s x = Ok (y, s') -> Sequential_after s x = s'.
Proof.
  revert x y s'. induction s as [|mo s IH]; intros x y s' Hy; simpl in Hy.
  - by injection Hy as _ <-.
  - apply bind_Ok in Hy as ([y1 m1] & Ha & Hy).
    apply bind_Ok in Hy as ([y2 s2] & Ha0 & Hy). injection Hy as _ <-.
    simpl. rewrite Ha. f_equal. by eapply IH.
Qed.

Lemma Sequential_after_frozen (s : list (NNModule R)) x :
  frozen_part <$> Sequential_after s x = frozen_part <$> s.
Proof.
  revert x. induction s as [|mo s IH]; intros x; [done|]. simpl.
  destruct (NNModule_forward mo x) as [[y mo']|e] eqn:Hf.
  - rewrite !fmap_cons, IH. f_equal.
    by apply NNModule_forward_Ok in Hf as (_ & _ & _ & Hfr).
  - by rewrite !fmap_cons, NNModule_after_frozen.
Qed.

Lemma Sequential_after_eval (s : list (NNModule R)) x :
  (forall bn, mBatchNorm1d bn ∈ s -> bn_training bn = false) ->
  Sequential_after s x = s.
Proof.
  revert x. induction s as [|mo s IH]; intros x Hbn; [done|]. simpl.
  destruct (NNModule_forward mo x) as [[y mo']|e] eqn:Hf.
  - pose proof (Sequential_forward_unchanged [mo] [mo'] x y) as Hone.
    simpl in Hone. rewrite Hf in Hone. simpl in Hone.
    assert ([mo'] = [mo]) as [= ->].
    { apply Hone; [done|]. intros bn Hin. apply Hbn.
      apply list_elem_of_singleton in Hin as ->. by left. }
    f_equal. apply IH. intros bn Hin. apply Hbn. by right.
  - f_equal. destruct mo as [li|ln|bn| | |]; try done. simpl. f_equal.
    apply BatchNorm1d_after_eval, Hbn. by left.
Qed.

Lemma message_after_of_Ok l (h_i h_j : Tensor2 R) d msg l1 :
  EGNNLayer.message l h_i h_j d = Ok (msg, l1) -> EGNNLayer.message_after l h_i h_j d = l1.
Proof.
  unfold EGNNLayer.message, EGNNLayer.message_after. intros Hm.
  apply bind_Ok in Hm as (d' & -> & Hm). simpl.
  apply bind_Ok in Hm as (c1 & -> & Hm). simpl.
  apply bind_Ok in Hm as (c2 & -> & Hm).
  apply bind_Ok in Hm as ([y mlp] & Hy & Hm). injection Hm as _ <-.
  by rewrite (Sequential_after_of_Ok _ _ _ _ Hy).
Qed.

Lemma message_after_frame l (h_i h_j : Tensor2 R) d :
  EGNNLayer.mask (EGNNLayer.message_after l h_i h_j d) = EGNNLayer.mask l
  /\ same_layer_but_mask l (EGNNLayer.message_after l h_i h_j d).
Proof.
  unfold EGNNLayer.message_after.
  match goal with |- context [match ?r with Ok _ => _ | Err _ => _ end] => destruct r end.
  - split; [done|]. repeat split; try done. simpl. apply Sequential_after_frozen.
  - split; [done|]. apply same_layer_refl.
Qed.

Lemma update_after_of_Ok l (aggr_out : Tensor2 R) h out l2 :
  EGNNLayer.update l aggr_out h = Ok (out, l2) -> EGNNLayer.update_after l aggr_out h = l2.
Proof.
  unfold EGNNLayer.update, EGNNLayer.update_after. intros Hu.
  apply bind_Ok in Hu as (x & -> & Hu).
  apply bind_Ok in Hu as ([u mlp] & Hy & Hu).
  rewrite (Sequential_after_of_Ok _ _ _ _ Hy). cbn in Hu.
  destruct (EGNNLayer.mask l).
  - apply bind_Ok in Hu as (w & _ & Hu). by injection Hu as _ <-.
  - by injection Hu as _ <-.
Qed.

Lemma update_after_frame l (aggr_out : Tensor2 R) h :
  EGNNLayer.mask (EGNNLayer.update_after l aggr_out h) = EGNNLayer.mask l
  /\ same_layer_but_mask l (EGNNLayer.update_after l aggr_out h).
Proof.
  unfold EGNNLayer.update_after. destruct (cat_cols h aggr_out).
  - split; [done|]. repeat split; try done. simpl. apply Sequential_after_frozen.
  - split; [done|]. apply same_layer_refl.
Qed.

(** When [forward] returns, the layer it returns is the layer after the
    call. *)
Lemma after_of_Ok l h (ei : EdgeIndex) d (mask : option (list bool)) out l' :
  EGNNLayer.forward l h ei d mask = Ok (out, l') -> EGNNLayer.after l h ei d mask = l'.
Proof.
  unfold EGNNLayer.forward, EGNNLayer.propagate, EGNNLayer.aggregated, EGNNLayer.after.
  intros Hf.
  apply bind_Ok in Hf as ([out' l''] & Hf & Heq). injection Heq as -> ->.
  apply bind_Ok in Hf as ([aggr_out l1] & Ha & Hu).
  apply bind_Ok in Ha as (h_i & -> & Ha).
  apply bind_Ok in Ha as (h_j & -> & Ha).
  apply bind_Ok in Ha as ([msg l0] & -> & Ha).
  apply bind_Ok in Ha as (ag & -> & Ha). injection Ha as -> ->.
  by eapply update_after_of_Ok.
Qed.

(** Whatever the call does, the layer after it differs from the layer
    before it in the stored mask and in batch-norm statistics at most. *)
Lemma after_frame l h (ei : EdgeIndex) d (mask : option (list bool)) :
  same_layer_but_mask l (EGNNLayer.after l h ei d mask).
Proof.
  unfold EGNNLayer.after.
  pose proof (same_layer_set_mask l mask) as H0.
  destruct (gather h ei.*2) as [h_i|]; [|done].
  destruct (gather h ei.*1) as [h_j|]; [|done].
  destruct (EGNNLayer.message (EGNNLayer.set_mask l mask) h_i h_j d) as [[msg l1]|] eqn:Hm.
  - apply message_frame in Hm as [_ H1].
    destruct (EGNNLayer.aggregate l1 msg ei.*2 (nrows h)) as [aggr_out|].
    + pose proof (update_after_frame l1 aggr_out h) as [_ H2].
      eapply same_layer_trans; [exact H0|]. by eapply same_layer_trans.
    + by eapply same_layer_trans.
  - pose proof (message_after_frame (EGNNLayer.set_mask l mask) h_i h_j d) as [_ H1].
    by eapply same_layer_trans.
Qed.

(** Without a batch norm in training mode the stored mask is all a call
    can have changed. *)
Lemma after_eval l h (ei : EdgeIndex) d (mask : option (list bool)) :
  eval_mode (EGNNLayer.mlp_msg l) -> eval_mode (EGNNLayer.mlp_upd l) ->
  EGNNLayer.set_mask (EGNNLayer.after l h ei d mask) (EGNNLayer.mask l) = l.
Proof.
  intros Hem Heu. unfold EGNNLayer.after.
  assert (EGNNLayer.set_mask (EGNNLayer.set_mask l mask) (EGNNLayer.mask l) = l) as H0
    by (by destruct l).
  destruct (gather h ei.*2) as [h_i|]; [|done].
  destruct (gather h ei.*1) as [h_j|]; [|done].
  assert (EGNNLayer.message_after (EGNNLayer.set_mask l mask) h_i h_j d
          = EGNNLayer.set_mask l mask) as Hma.
  { unfold EGNNLayer.message_after.
    match goal with |- context [match ?r with Ok _ => _ | Err _ => _ end] => destruct r end;
      [|done].
    simpl. rewrite Sequential_after_eval by exact Hem. by destruct l. }
  destruct (EGNNLayer.message (EGNNLayer.set_mask l mask) h_i h_j d) as [[msg l1]|] eqn:Hm.
  - apply message_after_of_Ok in Hm. rewrite Hma in Hm. subst l1.
    destruct (EGNNLayer.aggregate _ msg ei.*2 (nrows h)) as [aggr_out|]; [|done].
    unfold EGNNLayer.update_after. destruct (cat_cols h aggr_out); [|done].
    simpl. rewrite Sequential_after_eval by exact Heu. by destruct l.
  - by rewrite Hma.
Qed.

Lemma conv_loop_after_of_Ok (residual : bool) (convs convs' : list (EGNNLayer.t R)) h
    (ei : EdgeIndex) d (mask : option (list bool)) h' (log : list EGNN_Full.Event) :
  EGNN_Full.conv_loop residual convs h ei d mask = Ok (h', convs', log) ->
  EGNN_Full.conv_loop_after residual convs h ei d mask = convs'.
Proof.
  revert h convs' h' log.
  induction convs as [|conv convs IH]; intros h convs' h' log Hl; simpl in Hl.
  - by injection Hl as _ <- _.
  - apply bind_Ok in Hl as ([h1 c1] & Hs & Hl).
    apply bind_Ok in Hl as ([[h2 cs2] lg] & Hl2 & Hl). injection Hl as _ <- _.
    simpl. rewrite Hs. f_equal. by eapply IH.
Qed.

Lemma conv_step_frame (residual : bool) conv h (ei : EdgeIndex) d
    (mask : option (list bool)) h' conv' :
  EGNN_Full.conv_step residual conv h ei d mask = Ok (h', conv') ->
  conv' = EGNNLayer.after conv h ei d mask.
Proof.
  unfold EGNN_Full.conv_step. intros Hs.
  apply bind_Ok in Hs as ([h_update c] & Hf & Hs).
  apply bind_Ok in Hs as (h3 & _ & Hs). injection Hs as _ ->.
  symmetry. by eapply after_of_Ok.
Qed.

Lemma conv_loop_after_frame (residual : bool) (convs : list (EGNNLayer.t R)) h
    (ei : EdgeIndex) d (mask : option (list bool)) :
  Forall2 (fun l l' =>
             same_layer_but_mask l l'
             /\ (eval_mode (EGNNLayer.mlp_msg l) -> eval_mode (EGNNLayer.mlp_upd l) ->
                 EGNNLayer.set_mask l' (EGNNLayer.mask l) = l))
    convs (EGNN_Full.conv_loop_after residual convs h ei d mask).
Proof.
  revert h. induction convs as [|conv convs IH]; intros h; simpl; [constructor|].
  assert (Forall2 (fun l l' : EGNNLayer.t R =>
                     same_layer_but_mask l l'
                     /\ (eval_mode (EGNNLayer.mlp_msg l) -> eval_mode (EGNNLayer.mlp_upd l) ->
                         EGNNLayer.set_mask l' (EGNNLayer.mask l) = l)) convs convs) as Hrefl.
  { apply Forall2_same_length_lookup. split; [done|]. intros i l1 l2 H1 H2.
    rewrite H1 in H2. injection H2 as <-. split; [apply same_layer_refl|].
    intros _ _. by destruct l1. }
  destruct (EGNN_Full.conv_step residual conv h ei d mask) as [[h' conv']|] eqn:Hs.
  - apply conv_step_frame in Hs as ->. constructor; [|apply IH].
    split; [apply after_frame|apply after_eval].
  - constructor; [|exact Hrefl].
    split; [apply after_frame|apply after_eval].
Qed.

(** When the model's [forward] returns, the model it returns is the model
    after the call. *)
Lemma model_after_of_Ok (m : EGNN_Full.t R) (batch : Batch.t R) out m' :
  EGNN_Full.forward m batch = Ok (out, m') -> EGNN_Full.after m batch = m'.
Proof.
  unfold EGNN_Full.forward, EGNN_Full.forward_traced, EGNN_Full.after. intros Hf.
  apply bind_Ok in Hf as ([[o m1] log] & Hf & Heq). injection Heq as -> ->.
  apply bind_Ok in Hf as (h0 & -> & Hf).
  apply bind_Ok in Hf as (d & -> & Hf).
  apply bind_Ok in Hf as ([[hL convs'] lg] & Hl & Hf).
  apply bind_Ok in Hf as (pooled & Hp & Hf).
  apply bind_Ok in Hf as ([o' pred'] & Hpr & Hf). injection Hf as _ <- _.
  cbn zeta. rewrite Hl, Hp.
  by rewrite (conv_loop_after_of_Ok _ _ _ _ _ _ _ _ _ Hl), (Sequential_after_of_Ok _ _ _ _ Hpr).
Qed.

(** C9, as the code has it.  A forward pass, whether it returns or raises,
    writes no parameter and no configuration attribute: the object after the
    call agrees with the object before it on everything but the stored mask
    of a layer and the running statistics and batch counter of a batch norm
    ([frozen_part] leaves out nothing else).  Where no batch norm is in
    training mode the statistics stay too: putting the stored mask back
    gives the layer as it was.  The object a returning call hands back is
    the object after the call. *)
Theorem forward_writes_statistics_only :
  (forall l h (ei : EdgeIndex) d (mask : option (list bool)),
     same_layer_but_mask l (EGNNLayer.after l h ei d mask)
     /\ (eval_mode (EGNNLayer.mlp_msg l) -> eval_mode (EGNNLayer.mlp_upd l) ->
         EGNNLayer.set_mask (EGNNLayer.after l h ei d mask) (EGNNLayer.mask l) = l)
     /\ (forall out l',
           EGNNLayer.forward l h ei d mask = Ok (out, l') ->
           l' = EGNNLayer.after l h ei d mask))
  /\ (forall m (batch : Batch.t R),
        EGNN_Full.after m batch
        = EGNN_Full.set_convs_pred m (EGNN_Full.convs (EGNN_Full.after m batch))
            (EGNN_Full.pred (EGNN_Full.after m batch))
        /\ frozen_part <$> EGNN_Full.pred (EGNN_Full.after m batch)
           = frozen_part <$> EGNN_Full.pred m
        /\ (eval_mode (EGNN_Full.pred m) ->
            EGNN_Full.pred (EGNN_Full.after m batch) = EGNN_Full.pred m)
        /\ Forall2 (fun l l' =>
                      same_layer_but_mask l l'
                      /\ (eval_mode (EGNNLayer.mlp_msg l) ->
                          eval_mode (EGNNLayer.mlp_upd l) ->
                          EGNNLayer.set_mask l' (EGNNLayer.mask l) = l))
             (EGNN_Full.convs m) (EGNN_Full.convs (EGNN_Full.after m batch))
        /\ (forall out m',
              EGNN_Full.forward m batch = Ok (out, m') -> m' = EGNN_Full.after m batch)).
Proof.
  split.
  - intros l h ei d mask. split; [apply after_frame|]. split; [apply after_eval|].
    intros out l' Hf. symmetry. by eapply after_of_Ok.
  - intros m batch.
    assert (forall out m', EGNN_Full.forward m batch = Ok (out, m') ->
                           m' = EGNN_Full.after m batch) as Hok.
    { intros out m' Hf. symmetry. by eapply model_after_of_Ok. }
    assert (Forall2 (fun l l' : EGNNLayer.t R =>
                       same_layer_but_mask l l'
                       /\ (eval_mode (EGNNLayer.mlp_msg l) ->
                           eval_mode (EGNNLayer.mlp_upd l) ->
                           EGNNLayer.set_mask l' (EGNNLayer.mask l) = l))
              (EGNN_Full.convs m) (EGNN_Full.convs m)) as Hrefl.
    { apply Forall2_same_length_lookup. split; [done|]. intros i l1 l2 H1 H2.
      rewrite H1 in H2. injection H2 as <-. split; [apply same_layer_refl|].
      intros _ _. by destruct l1. }
    unfold EGNN_Full.after in *.
    destruct (Linear_forward (EGNN_Full.emb_in m) (Batch.x batch)) as [h0|];
      [|destruct m; by repeat split].
    destruct (EGNN_Full.edge_distances (Batch.pos batch) (Batch.edge_index batch)) as [d|];
      [|destruct m; by repeat split].
    cbn zeta in *.
    pose proof (conv_loop_after_frame (EGNN_Full.residual m) (EGNN_Full.convs m) h0
                  (Batch.edge_index batch) d (Batch.mask batch)) as Hconvs.
    destruct (EGNN_Full.conv_loop (EGNN_Full.residual m) (EGNN_Full.convs m) h0
                (Batch.edge_index batch) d (Batch.mask batch)) as [[[hL cs] lg]|];
      [|by repeat split].
    destruct (global_pool (EGNN_Full.pool m) hL (Batch.batch batch)) as [pooled|];
      [|by repeat split].
    split; [done|]. split; [apply Sequential_after_frozen|].
    split; [intros He; by apply Sequential_after_eval|]. by split.
Qed.

End FrameFacts.


(** ** A forward pass on a well-formed batch returns *)

Section Totality.
Context {R : Type} `{Scalar R}.
Implicit Types (l conv : EGNNLayer.t R) (m : EGNN_Full.t R) (h d x out : Tensor2 R).

Lemma RFF_forward_total (dd : nat) (rff : RFF.t R) d :
  RFF_wf dd rff -> ncols d = 1 ->
  exists y, RFF.forward rff d = Ok y /\ nrows y = nrows d /\ ncols y = dd.
Proof.
  intros (Hout & HBc & HBr & Hcomp) Hd.
  destruct (RFF_forward_spec rff d) as (Hf & _ & Hn); [congruence..|].
  eexists. split; [exact Hf|]. split; [done|]. simpl. done.
Qed.

Lemma message_total l (h_i h_j : Tensor2 R) d :
  EGNNLayer_wf l ->
  nrows h_j = nrows h_i -> nrows d = nrows h_i ->
  ncols h_i = EGNNLayer.emb_dim l -> ncols h_j = EGNNLayer.emb_dim l -> ncols d = 1 ->
  accepts_rows (EGNNLayer.mlp_msg l) (nrows h_i) ->
  exists msg l1, EGNNLayer.message l h_i h_j d = Ok (msg, l1).
Proof.
  intros (Hmsg & Hupd & Hrff) Hnj Hnd Hci Hcj Hcd Hacc. unfold EGNNLayer.message.
  assert (exists d', match EGNNLayer.RFF_dim l with
                     | Some _ => match EGNNLayer.RFF l with
                                 | Some rff => RFF.forward rff d
                                 | None => Err AttributeError
                                 end
                     | None => Ok d
                     end = Ok d'
                     /\ nrows d' = nrows d
                     /\ ncols d' = distance_cols (EGNNLayer.RFF_dim l))
    as (d' & -> & Hnd' & Hcd').
  { destruct (EGNNLayer.RFF_dim l) as [dd|]; [|by exists d].
    destruct (EGNNLayer.RFF l) as [rff|]; [|done].
    by apply RFF_forward_total. }
  simpl.
  destruct (cat_cols_total h_i h_j) as [c1 Hc1]; [done|]. rewrite Hc1. simpl.
  apply cat_cols_Ok in Hc1 as (_ & Hn1 & Hcc1 & _).
  destruct (cat_cols_total c1 d') as [c2 Hc2]; [congruence|]. rewrite Hc2. simpl.
  apply cat_cols_Ok in Hc2 as (_ & Hn2 & Hcc2 & _).
  destruct (mlp_forward_total (EGNNLayer.mlp_msg l) _ _ _ _ c2 Hmsg) as (y & s' & ->).
  - lia.
  - by rewrite Hn2, Hn1.
  - simpl. eauto.
Qed.

Lemma forward_total l h (ei : EdgeIndex) d (mask : option (list bool)) :
  EGNNLayer_wf l ->
  ncols h = EGNNLayer.emb_dim l ->
  Forall (fun e : nat * nat => e.1 < nrows h /\ e.2 < nrows h) ei ->
  nrows d = length ei -> ncols d = 1 ->
  mask_fits mask (nrows h) ->
  accepts_rows (EGNNLayer.mlp_msg l) (length ei) ->
  accepts_rows (EGNNLayer.mlp_upd l) (nrows h) ->
  exists out l', EGNNLayer.forward l h ei d mask = Ok (out, l').
Proof.
  intros Hwf Hch Hei Hnd Hcd Hm Hamsg Haupd.
  unfold EGNNLayer.forward, EGNNLayer.propagate.
  assert (exists (aggr_out : Tensor2 R) l1,
            EGNNLayer.aggregated (EGNNLayer.set_mask l mask) ei h d = Ok (aggr_out, l1))
    as (aggr_out & l1 & Ha).
  { unfold EGNNLayer.aggregated.
    destruct (gather_total h ei.*2) as [h_i Hi].
    { apply Forall_fmap. eapply Forall_impl; [exact Hei|]. by intros e [_ ?]. }
    destruct (gather_total h ei.*1) as [h_j Hj].
    { apply Forall_fmap. eapply Forall_impl; [exact Hei|]. by intros e [? _]. }
    rewrite Hi, Hj. simpl.
    apply gather_Ok in Hi as (Hci & Hni & _). apply gather_Ok in Hj as (Hcj & Hnj & _).
    rewrite length_fmap in Hni, Hnj.
    destruct (message_total (EGNNLayer.set_mask l mask) h_i h_j d) as (msg & l1 & Hmsg);
      [by apply wf_set_mask|simpl; congruence..|by rewrite Hni|].
    rewrite Hmsg. simpl.
    apply message_Ok in Hmsg as (_ & Hnm & _); [|by apply wf_set_mask].
    unfold EGNNLayer.aggregate.
    destruct (scatter_total (aggr_reduce (EGNNLayer.aggr l1)) msg ei.*2 (nrows h))
      as [res ->].
    - rewrite length_fmap. congruence.
    - apply Forall_fmap. eapply Forall_impl; [exact Hei|]. by intros e [_ ?].
    - simpl. eauto. }
  rewrite Ha. simpl.
  apply aggregated_Ok in Ha as (Hna & Hca & Hwf1 & Hsame1 & Hmask1 & Hupd1 & _);
    [|by apply wf_set_mask].
  pose proof Hsame1 as (He1 & _). simpl in He1, Hca, Hmask1, Hupd1.
  unfold EGNNLayer.update.
  destruct (cat_cols_total h aggr_out) as [x Hx]; [done|]. rewrite Hx. simpl.
  apply cat_cols_Ok in Hx as (_ & Hnx & Hcx & _).
  destruct Hwf1 as (_ & Hsig & _).
  destruct (mlp_forward_total (EGNNLayer.mlp_upd l1) _ _ _ _ x Hsig) as (y & s' & Hy).
  - lia.
  - by rewrite Hupd1, Hnx.
  - rewrite Hy. simpl. rewrite Hmask1.
    eapply mlp_forward_Ok in Hy as (_ & Hny & Hcy & _); [|done].
    destruct mask as [mk|]; simpl; [|eauto].
    rewrite where_rows_same_shape by (simpl in Hm; congruence). simpl. eauto.
Qed.

Lemma conv_loop_total (residual : bool) (convs : list (EGNNLayer.t R)) h (ei : EdgeIndex) d
    (mask : option (list bool)) :
  Forall (fun l => EGNNLayer_wf l /\ EGNNLayer.emb_dim l = ncols h
                   /\ accepts_rows (EGNNLayer.mlp_msg l) (length ei)
                   /\ accepts_rows (EGNNLayer.mlp_upd l) (nrows h)) convs ->
  Forall (fun e : nat * nat => e.1 < nrows h /\ e.2 < nrows h) ei ->
  nrows d = length ei -> ncols d = 1 ->
  mask_fits mask (nrows h) ->
  exists h' convs' log, EGNN_Full.conv_loop residual convs h ei d mask = Ok (h', convs', log).
Proof.
  intros Hconvs. revert h Hconvs.
  induction convs as [|conv convs IH]; intros h Hconvs Hei Hnd Hcd Hm; simpl; [eauto|].
  apply Forall_cons in Hconvs as [(Hwf & He & Hamsg & Haupd) Hconvs].
  destruct (forward_total conv h ei d mask) as (h_update & conv' & Hf); [done..|].
  assert (exists h1, EGNN_Full.conv_step residual conv h ei d mask = Ok (h1, conv'))
    as [h1 Hs].
  { unfold EGNN_Full.conv_step. rewrite Hf. simpl.
    apply forward_shape in Hf as [Hn Hc]; [|done..].
    destruct residual; [|simpl; eauto].
    unfold tensor_add. rewrite broadcast2_same_shape by done. simpl. eauto. }
  rewrite Hs. simpl.
  apply conv_step_Ok in Hs as (_ & _ & _ & _ & Hn1 & Hc1 & _); [|done..].
  destruct (IH h1) as (h' & convs' & log & ->).
  - rewrite Hn1, Hc1. done.
  - by rewrite Hn1.
  - done.
  - done.
  - unfold mask_fits in *. by rewrite Hn1.
  - simpl. eauto.
Qed.

Lemma le_foldr_max (ids : list nat) (g : nat) : g ∈ ids -> g <= foldr Nat.max 0 ids.
Proof.
  induction ids as [|a ids IH]; intros Hg; [by apply elem_of_nil in Hg|].
  simpl. apply elem_of_cons in Hg as [->|Hg]; [lia|]. specialize (IH Hg). lia.
Qed.

Lemma foldr_max_elem (ids : list nat) : ids ≠ [] -> foldr Nat.max 0 ids ∈ ids.
Proof.
  induction ids as [|a ids IH]; intros Hne; [done|]. simpl.
  destruct ids as [|b ids].
  - simpl. rewrite Nat.max_0_r. by left.
  - destruct (Nat.max_spec a (foldr Nat.max 0 (b :: ids))) as [[_ ->]|[_ ->]].
    + right. by apply IH.
    + by left.
Qed.

(** The graph ids [0 .. G-1], each used: the number of graphs is [G], also
    when there is none. *)
Lemma num_graphs_contiguous (ids : list nat) (G : nat) :
  (forall g, g ∈ ids <-> g < G) -> num_graphs ids = G.
Proof.
  intros Hids. unfold num_graphs. destruct ids as [|a ids].
  - destruct G as [|G]; [done|].
    assert (0 ∈ @nil nat) as Hin by (apply Hids; lia). by apply elem_of_nil in Hin.
  - assert (a :: ids ≠ []) as Hne by done.
    pose proof (foldr_max_elem (a :: ids) Hne) as Hmax. apply Hids in Hmax.
    assert (G - 1 ∈ a :: ids) as Hlast%le_foldr_max by (apply Hids; lia). lia.
Qed.

Lemma global_pool_Ok (pool : Pool) x (ids : list nat) pooled :
  global_pool pool x (Some ids) = Ok pooled ->
  nrows pooled = num_graphs ids /\ ncols pooled = ncols x.
Proof. unfold global_pool. intros Hp. by apply scatter_shape in Hp. Qed.

Lemma global_pool_total (pool : Pool) x (batch : option (list nat)) :
  from_option (fun ids : list nat => length ids = nrows x) True batch ->
  exists pooled, global_pool pool x batch = Ok pooled /\ ncols pooled = ncols x.
Proof.
  intros Hb. unfold global_pool. destruct batch as [ids|]; simpl in Hb.
  - destruct (scatter_total (pool_reduce pool) x ids (num_graphs ids)) as [res Hres].
    + done.
    + apply Forall_forall. intros g Hg. unfold num_graphs.
      destruct ids as [|a ids]; [by apply elem_of_nil in Hg|].
      apply le_foldr_max in Hg. lia.
    + exists res. split; [done|]. by apply scatter_shape in Hres as [_ ?].
  - destruct pool; eexists; (split; [done|done]).
Qed.

Lemma pred_inv (s : list (NNModule R)) (a b c e f g : nat) :
  module_sig <$> s = [sig_Linear a b c; sig_ReLU; sig_Linear e f g] ->
  exists w1 w2 : Linear R, s = [mLinear w1; mReLU; mLinear w2].
Proof.
  destruct s as [|[w1| | | | |] [|[| | | | |] [|[w2| | | | |] [|? ?]]]]; try done. eauto.
Qed.

Lemma pred_forward_wf (w1 w2 : Linear R) x y (s' : list (NNModule R)) :
  Sequential_forward [mLinear w1; mReLU; mLinear w2] x = Ok (y, s') -> tensor_wf y.
Proof.
  intros Hy. cbn [Sequential_forward] in Hy.
  apply bind_Ok in Hy as ([y1 m1] & _ & Hy).
  apply bind_Ok in Hy as ([y2 s2] & H2 & Hy). injection Hy as <- _.
  apply bind_Ok in H2 as ([y3 m3] & _ & H2).
  apply bind_Ok in H2 as ([y4 s4] & H4 & H2). injection H2 as <- _.
  apply bind_Ok in H4 as ([y5 m5] & H5 & H4).
  apply bind_Ok in H4 as ([y6 s6] & H6 & H4). injection H4 as <- _.
  injection H6 as <- _.
  cbn [NNModule_forward] in H5.
  apply bind_Ok in H5 as (y7 & H7 & H5). injection H5 as <- _.
  by apply F_linear_Ok in H7 as (_ & _ & _ & _ & Hwf7).
Qed.

(** C7, as the code has it.  On a well-formed batch of [G] graphs (ids
    [0 .. G-1], each used; [G] may be 0, the batch then having no node) on
    which no batch norm in training mode meets a single row ([Batch_wf]
    asks both), [forward] returns a tensor of shape [G, out_features]: the
    node embeddings after the last layer are pooled per graph and the pooled
    tensor goes through the prediction head Linear, ReLU, Linear. *)
Theorem forward_output_shape m (batch : Batch.t R) (ids : list nat) (G : nat) :
  EGNN_Full_wf m ->
  Batch_wf m batch ->
  Batch.batch batch = Some ids ->
  (forall g, g ∈ ids <-> g < G) ->
  exists out m' hL pooled (w1 w2 : Linear R),
    EGNN_Full.forward m batch = Ok (out, m')
    /\ EGNN_Full.embeddings m batch = Ok hL
    /\ global_pool (EGNN_Full.pool m) hL (Some ids) = Ok pooled
    /\ EGNN_Full.pred m = [mLinear w1; mReLU; mLinear w2]
    /\ Sequential_forward (EGNN_Full.pred m) pooled = Ok (out, EGNN_Full.pred m')
    /\ shape out = (G, EGNN_Full.out_features m)
    /\ tensor_wf out.
Proof.
  intros Hwf (Hx & Hpos & Hei & Hids & Hmask & Hacc) Hbatch HG.
  pose proof (EGNN_Full_wf_convs m Hwf) as Hconvs.
  destruct Hwf as (Hemb & Hdepth & Hlayers & Hpred).
  simpl in Hemb. injection Hemb as Hin Hout Hbias.
  unfold in_features, out_features in Hin, Hout.
  (* the input embedding *)
  destruct (F_linear_total (Batch.x batch) (weight (EGNN_Full.emb_in m))
              (Some (bias (EGNN_Full.emb_in m)))) as [h0 Hh0]; [congruence|simpl; congruence|].
  pose proof Hh0 as Hh0'. apply F_linear_Ok in Hh0' as (_ & _ & Hn0 & Hc0 & _).
  (* the distances *)
  assert (exists d, EGNN_Full.edge_distances (Batch.pos batch) (Batch.edge_index batch) = Ok d)
    as [d Hd].
  { unfold EGNN_Full.edge_distances.
    destruct (gather_total (Batch.pos batch) (Batch.edge_index batch).*1) as [pr Hpr].
    { apply Forall_fmap. eapply Forall_impl; [exact Hei|]. intros e [? _]. simpl. lia. }
    destruct (gather_total (Batch.pos batch) (Batch.edge_index batch).*2) as [pc Hpc].
    { apply Forall_fmap. eapply Forall_impl; [exact Hei|]. intros e [_ ?]. simpl. lia. }
    rewrite Hpr, Hpc. simpl.
    apply gather_Ok in Hpr as (Hcr & Hnr & _). apply gather_Ok in Hpc as (Hcc & Hnc & _).
    rewrite length_fmap in Hnr, Hnc.
    unfold tensor_sub. rewrite broadcast2_same_shape by congruence. simpl. eauto. }
  pose proof Hd as Hd'. apply edge_distances_Ok in Hd' as (Hnd & Hcd & _).
  (* the layers *)
  destruct (conv_loop_total (EGNN_Full.residual m) (EGNN_Full.convs m) h0
              (Batch.edge_index batch) d (Batch.mask batch)) as (hL & convs' & log & Hl).
  { apply Forall_forall. intros l Hl.
    pose proof (proj1 (Forall_forall _ _) Hlayers l Hl) as [Hwfl Hel].
    pose proof (proj1 (Forall_forall _ _) Hacc l Hl) as [Ha1 Ha2].
    rewrite Hn0. split; [done|]. split; [congruence|]. by split. }
  { by rewrite Hn0. }
  { done. }
  { done. }
  { by rewrite Hn0. }
  pose proof Hl as Hl'. apply conv_loop_Ok in Hl' as [HnL HcL]; [|done|by rewrite Hn0].
  (* the readout *)
  destruct (global_pool_total (EGNN_Full.pool m) hL (Batch.batch batch))
    as (pooled & Hp & Hcp).
  { rewrite Hbatch in *. simpl in *. by rewrite HnL, Hn0. }
  (* the prediction head *)
  destruct (pred_inv _ _ _ _ _ _ _ Hpred) as (w1 & w2 & Hl12).
  destruct (Sequential_forward_total (EGNN_Full.pred m) pooled (EGNN_Full.out_features m))
    as (out & pred' & Hpr).
  { rewrite Hpred. simpl. unfold out_features in *.
    rewrite decide_True by (split; [congruence|done]). by rewrite decide_True. }
  { intros bn Hbn. rewrite Hl12 in Hbn.
    apply elem_of_cons in Hbn as [?|Hbn]; [done|].
    apply elem_of_cons in Hbn as [?|Hbn]; [done|].
    apply elem_of_cons in Hbn as [?|Hbn]; [done|]. by apply elem_of_nil in Hbn. }
  exists out, (EGNN_Full.set_convs_pred m convs' pred'), hL, pooled, w1, w2.
  assert (EGNN_Full.embeddings m batch = Ok hL) as Hemb.
  { unfold EGNN_Full.embeddings. unfold Linear_forward. rewrite Hh0. simpl.
    rewrite Hd. simpl. by rewrite Hl. }
  split.
  { unfold EGNN_Full.forward, EGNN_Full.forward_traced, Linear_forward.
    rewrite Hh0. simpl. rewrite Hd. simpl. rewrite Hl. simpl.
    rewrite Hp. simpl. rewrite Hpr. done. }
  split; [done|]. rewrite Hbatch in Hp. split; [done|]. split; [done|]. split; [done|].
  pose proof Hp as Hp'. apply global_pool_Ok in Hp' as [Hng _].
  rewrite (num_graphs_contiguous ids G) in Hng by done.
  pose proof Hpr as Hpr'.
  apply Sequential_forward_Ok in Hpr' as (Hno & Hco & _).
  rewrite Hpred in Hco. simpl in Hco. unfold out_features in *.
  rewrite decide_True in Hco by (split; [congruence|done]).
  rewrite decide_True in Hco by done. injection Hco as Hco.
  split; [unfold shape; congruence|].
  rewrite Hl12 in Hpr. by apply pred_forward_wf in Hpr.
Qed.

End Totality.


(** ** Constructors *)

Lemma getitem_activations (key : string) :
  getitem activations key
  = if decide (key = "swish") then Ok SiLU
    else if decide (key = "relu") then Ok ReLU
    else Err (KeyError key).
Proof.
  unfold getitem, activations.
  destruct (decide (key = "swish")) as [->|H1]; [done|].
  rewrite lookup_insert_ne by done.
  destruct (decide (key = "relu")) as [->|H2]; [done|].
  by rewrite lookup_singleton_ne.
Qed.

Lemma getitem_norms (key : string) :
  getitem norms key
  = if decide (key = "layer") then Ok LayerNorm_cls
    else if decide (key = "batch") then Ok BatchNorm1d_cls
    else if decide (key = "none") then Ok Identity_cls
    else Err (KeyError key).
Proof.
  unfold getitem, norms.
  destruct (decide (key = "layer")) as [->|H1]; [done|].
  rewrite lookup_insert_ne by done.
  destruct (decide (key = "batch")) as [->|H2]; [done|].
  rewrite lookup_insert_ne by done.
  destruct (decide (key = "none")) as [->|H3]; [done|].
  by rewrite lookup_singleton_ne.
Qed.

Lemma getitem_pools (key : string) :
  getitem pools key
  = if decide (key = "mean") then Ok global_mean_pool
    else if decide (key = "add") then Ok global_add_pool
    else Err (KeyError key).
Proof.
  unfold getitem, pools.
  destruct (decide (key = "mean")) as [->|H1]; [done|].
  rewrite lookup_insert_ne by done.
  destruct (decide (key = "add")) as [->|H2]; [done|].
  by rewrite lookup_singleton_ne.
Qed.

Lemma getitem_activations_Ok (key : string) :
  key ∈ ["swish"; "relu"] -> exists a, getitem activations key = Ok a.
Proof.
  intros Hk. rewrite getitem_activations.
  repeat (apply elem_of_cons in Hk as [->|Hk]; [simpl; eauto|]). by apply elem_of_nil in Hk.
Qed.

Lemma getitem_activations_Err (key : string) :
  key ∉ ["swish"; "relu"] -> getitem activations key = Err (KeyError key).
Proof.
  intros Hk. rewrite getitem_activations.
  rewrite !decide_False; [done|..]; intros ->; apply Hk; repeat constructor.
Qed.

Lemma getitem_norms_Ok (key : string) :
  key ∈ ["layer"; "batch"; "none"] -> exists n, getitem norms key = Ok n.
Proof.
  intros Hk. rewrite getitem_norms.
  repeat (apply elem_of_cons in Hk as [->|Hk]; [simpl; eauto|]). by apply elem_of_nil in Hk.
Qed.

Lemma getitem_norms_Err (key : string) :
  key ∉ ["layer"; "batch"; "none"] -> getitem norms key = Err (KeyError key).
Proof.
  intros Hk. rewrite getitem_norms.
  rewrite !decide_False; [done|..]; intros ->; apply Hk; repeat constructor.
Qed.

Lemma getitem_pools_Ok (key : string) :
  key ∈ ["mean"; "add"] -> exists p, getitem pools key = Ok p.
Proof.
  intros Hk. rewrite getitem_pools.
  repeat (apply elem_of_cons in Hk as [->|Hk]; [simpl; eauto|]). by apply elem_of_nil in Hk.
Qed.

Lemma getitem_pools_Err (key : string) :
  key ∉ ["mean"; "add"] -> getitem pools key = Err (KeyError key).
Proof.
  intros Hk. rewrite getitem_pools.
  rewrite !decide_False; [done|..]; intros ->; apply Hk; repeat constructor.
Qed.

Section ConstructorFacts.
Context {R : Type} `{Scalar R}.
Implicit Types (θ : Params R) (rd : option nat) (rs : option R) (mask : option (list bool)).

Lemma EGNNLayer_init_Ok θ (e : nat) (activation norm : string) (aggr : Aggr) rd rs mask :
  activation ∈ ["swish"; "relu"] -> norm ∈ ["layer"; "batch"; "none"] ->
  sigma_given rd rs ->
  exists l, EGNNLayer.init θ e activation norm aggr rd rs mask = Ok l.
Proof.
  intros [a Ha]%getitem_activations_Ok [n Hn]%getitem_norms_Ok Hs.
  unfold EGNNLayer.init. rewrite Ha, Hn. simpl.
  destruct rd as [dd|]; [|eauto].
  destruct Hs as [|[sg ->]]; [done|].
  destruct (RFF_init_Ok (child 2 θ) 1 dd sg) as (rff & -> & _). simpl. eauto.
Qed.

Lemma build_convs_Ok θ (layers : list nat) (e : nat) (activation norm : string)
    (aggr : Aggr) rd rs mask :
  activation ∈ ["swish"; "relu"] -> norm ∈ ["layer"; "batch"; "none"] ->
  sigma_given rd rs ->
  exists convs, EGNN_Full.build_convs θ layers e activation norm aggr rd rs mask = Ok convs.
Proof.
  intros Ha Hn Hs. induction layers as [|k layers [convs IH]]; simpl; [eauto|].
  destruct (EGNNLayer_init_Ok (child k θ) e activation norm aggr rd rs mask) as [l ->];
    [done..|].
  simpl. rewrite IH. simpl. eauto.
Qed.

(** Every failure of the layers of a model is a failed lookup, when the
    sigma is there. *)
Lemma build_convs_Err θ (layers : list nat) (e : nat) (activation norm : string)
    (aggr : Aggr) rd rs mask (err : Error) :
  sigma_given rd rs ->
  EGNN_Full.build_convs θ layers e activation norm aggr rd rs mask = Err err ->
  exists key, err = KeyError key.
Proof.
  intros Hs. induction layers as [|k layers IH]; simpl; [done|].
  destruct (EGNNLayer.init (child k θ) e activation norm aggr rd rs mask) as [l|e0] eqn:Hl;
    simpl.
  - destruct (EGNN_Full.build_convs θ layers e activation norm aggr rd rs mask); simpl;
      [done|]. intros [= <-]. by apply IH.
  - intros [= <-]. unfold EGNNLayer.init in Hl.
    rewrite getitem_activations, getitem_norms in Hl.
    repeat (case_decide; simpl in Hl); try (injection Hl as <-; eauto);
      destruct rd as [dd|]; try discriminate Hl;
      destruct Hs as [|[sg ->]]; try discriminate; simpl in Hl; discriminate Hl.
Qed.

(** C8.  A name outside the dictionary makes the constructor fail with the
    failed lookup: the activation and then the norm for a layer, the pool for
    a model (whose layers are built first: they must construct for the pool
    to be looked up, and a model with an unknown pool never constructs).
    With every name inside its dictionary the constructors succeed. *)
Theorem constructors_look_names_up θ (e depth n_node n_out : nat) (activation norm pool : string)
    (aggr : Aggr) (residual : bool) rd rs mask :
  (activation ∉ ["swish"; "relu"] ->
     EGNNLayer.init θ e activation norm aggr rd rs mask = Err (KeyError activation))
  /\ (activation ∈ ["swish"; "relu"] -> norm ∉ ["layer"; "batch"; "none"] ->
        EGNNLayer.init θ e activation norm aggr rd rs mask = Err (KeyError norm))
  /\ (pool ∉ ["mean"; "add"] ->
        (exists err, EGNN_Full.init θ depth e n_node n_out activation norm aggr pool residual
                       rd rs mask = Err err
                     /\ (sigma_given rd rs -> exists key, err = KeyError key))
        /\ (activation ∈ ["swish"; "relu"] -> norm ∈ ["layer"; "batch"; "none"] ->
            sigma_given rd rs ->
            EGNN_Full.init θ depth e n_node n_out activation norm aggr pool residual
              rd rs mask = Err (KeyError pool)))
  /\ (activation ∈ ["swish"; "relu"] -> norm ∈ ["layer"; "batch"; "none"] ->
      sigma_given rd rs ->
        (exists l, EGNNLayer.init θ e activation norm aggr rd rs mask = Ok l)
        /\ (pool ∈ ["mean"; "add"] ->
            exists m, EGNN_Full.init θ depth e n_node n_out activation norm aggr pool residual
                        rd rs mask = Ok m)).
Proof.
  split; [|split; [|split]].
  - intros Ha. unfold EGNNLayer.init. by rewrite getitem_activations_Err.
  - intros [a Ha]%getitem_activations_Ok Hn. unfold EGNNLayer.init.
    rewrite Ha. simpl. by rewrite getitem_norms_Err.
  - intros Hp. split.
    + unfold EGNN_Full.init.
      destruct (EGNN_Full.build_convs (child 1 θ) (seq 0 depth) e activation norm aggr
                  rd rs mask) as [convs|err] eqn:Hc; simpl.
      * rewrite getitem_pools_Err by done. simpl. eauto.
      * exists err. split; [done|]. intros Hs. by eapply build_convs_Err.
    + intros Ha Hn Hs. unfold EGNN_Full.init.
      destruct (build_convs_Ok (child 1 θ) (seq 0 depth) e activation norm aggr rd rs mask)
        as [convs ->]; [done..|].
      simpl. by rewrite getitem_pools_Err.
  - intros Ha Hn Hs. split; [by apply EGNNLayer_init_Ok|].
    intros [p Hp]%getitem_pools_Ok. unfold EGNN_Full.init.
    destruct (build_convs_Ok (child 1 θ) (seq 0 depth) e activation norm aggr rd rs mask)
      as [convs ->]; [done..|].
    simpl. rewrite Hp. simpl. eauto.
Qed.

End ConstructorFacts.


(** ** The constructors establish the shape invariants *)

Section InitFacts.
Context {R : Type} `{Scalar R}.
Implicit Types (θ : Params R) (rd : option nat) (rs : option R) (mask : option (list bool)).

Lemma module_sig_Linear_init θ (n_in n_out : nat) :
  module_sig (mLinear (Linear_init θ n_in n_out)) = sig_Linear n_in n_out n_out.
Proof.
  simpl. unfold in_features, out_features, Linear_init, vector_of. simpl.
  by rewrite nrows_tensor_of, length_tabulate.
Qed.

Lemma module_sig_norm_module θ (n : Norm) (d : nat) :
  module_sig (EGNNLayer.norm_module θ n d) = norm_sig n d.
Proof. by destruct n. Qed.

Lemma module_sig_activation_module (a : Activation) :
  module_sig (EGNNLayer.activation_module (R:=R) a) = activation_sig a.
Proof. by destruct a. Qed.

Lemma mlp_sig_init (θ1 θ2 θ3 : Params R) (n_in e : nat) (n : Norm) (a : Activation)
    (last : NNModule R) :
  module_sig last = norm_sig n e ->
  module_sig <$> [ mLinear (Linear_init θ1 n_in e); EGNNLayer.norm_module θ2 n e;
                   EGNNLayer.activation_module a; mLinear (Linear_init θ3 e e);
                   last; EGNNLayer.activation_module a ]
  = mlp_sig n_in e n a.
Proof.
  intros Hlast. rewrite !fmap_cons, fmap_nil.
  by rewrite !module_sig_Linear_init, module_sig_norm_module,
    module_sig_activation_module, Hlast.
Qed.

Lemma EGNNLayer_init_wf θ (e : nat) (activation norm : string) (aggr : Aggr) rd rs mask l :
  EGNNLayer.init θ e activation norm aggr rd rs mask = Ok l ->
  EGNNLayer_wf l /\ EGNNLayer.emb_dim l = e /\ EGNNLayer.mask l = mask
  /\ EGNNLayer.aggr l = aggr.
Proof.
  unfold EGNNLayer.init. intros Hl.
  apply bind_Ok in Hl as (a & Ha & Hl).
  apply bind_Ok in Hl as (n & Hn & Hl).
  assert (norm = "none" -> n = Identity_cls) as Hnone.
  { intros ->. rewrite getitem_norms in Hn. simpl in Hn. by injection Hn as <-. }
  assert (module_sig (if decide (norm ≠ "none")
                      then EGNNLayer.norm_module (child 4 (child 1 θ)) n e
                      else mIdentity) = norm_sig n e) as Hsig5.
  { case_decide as Hd; [apply module_sig_norm_module|].
    rewrite Hnone; [done|]. by destruct (decide (norm = "none")). }
  destruct rd as [dd|].
  - apply bind_Ok in Hl as (rff & Hrff & Hl). injection Hl as <-.
    split; [|done]. unfold EGNNLayer_wf.
    cbn [EGNNLayer.mlp_msg EGNNLayer.mlp_upd EGNNLayer.emb_dim EGNNLayer.norm
         EGNNLayer.activation EGNNLayer.RFF_dim EGNNLayer.RFF distance_cols].
    rewrite !mlp_sig_init by (done || apply module_sig_norm_module).
    split; [done|]. split; [done|].
    destruct rs as [sg|]; [|done].
    destruct (RFF_init_Ok (child 2 θ) 1 dd sg) as (rff' & Hrff' & _ & Ho & Hc & HBc & HBr).
    rewrite Hrff in Hrff'. injection Hrff' as <-. done.
  - injection Hl as <-. split; [|done]. unfold EGNNLayer_wf.
    cbn [EGNNLayer.mlp_msg EGNNLayer.mlp_upd EGNNLayer.emb_dim EGNNLayer.norm
         EGNNLayer.activation EGNNLayer.RFF_dim EGNNLayer.RFF distance_cols].
    by rewrite !mlp_sig_init by (done || apply module_sig_norm_module).
Qed.

Lemma build_convs_wf θ (layers : list nat) (e : nat) (activation norm : string)
    (aggr : Aggr) rd rs mask (convs : list (EGNNLayer.t R)) :
  EGNN_Full.build_convs θ layers e activation norm aggr rd rs mask = Ok convs ->
  length convs = length layers
  /\ Forall (fun l => EGNNLayer_wf l /\ EGNNLayer.emb_dim l = e) convs.
Proof.
  revert convs. induction layers as [|k layers IH]; intros convs Hc; simpl in Hc.
  - by injection Hc as <-.
  - apply bind_Ok in Hc as (l & Hl & Hc).
    apply bind_Ok in Hc as (cs & Hcs & Hc). injection Hc as <-.
    apply EGNNLayer_init_wf in Hl as (Hwf & He & _).
    apply IH in Hcs as [Hlen Hall]. split; [simpl; by rewrite Hlen|].
    by constructor.
Qed.

(** A model as its constructor returns it satisfies the invariant. *)
Lemma EGNN_Full_init_wf θ (depth e n_node n_out : nat) (activation norm pool : string)
    (aggr : Aggr) (residual : bool) rd rs mask m :
  EGNN_Full.init θ depth e n_node n_out activation norm aggr pool residual rd rs mask = Ok m ->
  EGNN_Full_wf m.
Proof.
  unfold EGNN_Full.init. intros Hm.
  apply bind_Ok in Hm as (convs & Hc & Hm).
  apply bind_Ok in Hm as (p & _ & Hm). injection Hm as <-.
  apply build_convs_wf in Hc as [Hlen Hall]. rewrite length_seq in Hlen.
  unfold EGNN_Full_wf. cbn [EGNN_Full.emb_in EGNN_Full.convs EGNN_Full.pred
    EGNN_Full.depth EGNN_Full.hidden_features EGNN_Full.node_features
    EGNN_Full.out_features].
  rewrite module_sig_Linear_init. split; [done|]. split; [done|]. split; [done|].
  rewrite !fmap_cons, !module_sig_Linear_init. done.
Qed.

(** A forward pass keeps it. *)
Lemma conv_loop_wf (residual : bool) (convs convs' : list (EGNNLayer.t R)) (h : Tensor2 R)
    (ei : EdgeIndex) (d : Tensor2 R) mask (h' : Tensor2 R) (log : list EGNN_Full.Event)
    (e : nat) :
  Forall (fun l => EGNNLayer_wf l /\ EGNNLayer.emb_dim l = e) convs ->
  EGNN_Full.conv_loop residual convs h ei d mask = Ok (h', convs', log) ->
  Forall (fun l => EGNNLayer_wf l /\ EGNNLayer.emb_dim l = e) convs'.
Proof.
  intros Hall. revert h convs' h' log.
  induction Hall as [|conv convs [Hwf He] _ IH]; intros h convs' h' log Hl; simpl in Hl.
  - injection Hl as _ <- _. constructor.
  - apply bind_Ok in Hl as ([h1 c1] & Hs & Hl).
    apply bind_Ok in Hl as ([[h2 cs2] lg] & Hl2 & Hl). injection Hl as _ <- _.
    unfold EGNN_Full.conv_step in Hs.
    apply bind_Ok in Hs as ([h_update c] & Hf & Hs).
    apply bind_Ok in Hs as (h3 & _ & Hs). injection Hs as _ ->.
    apply forward_Ok in Hf as (? & ? & ? & ? & ? & _ & _ & _ & _ & _ & _ & _ & _ & Hwf' & Hsame & _);
      [|done].
    constructor; [|by eapply IH].
    split; [done|]. destruct Hsame as (-> & _). done.
Qed.

Lemma forward_keeps_wf (m m' : EGNN_Full.t R) (batch : Batch.t R) (out : Tensor2 R) :
  EGNN_Full_wf m -> EGNN_Full.forward m batch = Ok (out, m') -> EGNN_Full_wf m'.
Proof.
  intros (Hemb & Hdepth & Hall & Hpred) Hf.
  apply forward_traced_of_forward in Hf as [log Hf].
  apply forward_traced_Ok in Hf
    as (h0 & d & hL & convs' & log' & pooled & pred' & _ & _ & Hl & _ & Hp & -> & _).
  unfold EGNN_Full_wf. simpl.
  split; [done|].
  pose proof (conv_loop_log _ _ _ _ _ _ _ _ _ Hl) as [Hlen _].
  split; [congruence|]. split; [by eapply conv_loop_wf|].
  apply Sequential_forward_Ok in Hp as (_ & _ & -> & _). done.
Qed.

End InitFacts.


(** ** The worked example *)

Lemma example_layer_init (aggr : Aggr) (mask : option (list bool)) :
  EGNNLayer.init ones 1 "relu" "none" aggr None None mask = Ok (example_layer aggr mask).
Proof. reflexivity. Qed.

Lemma example_model_init (residual : bool) :
  EGNN_Full.init ones 2 1 1 1 "relu" "none" aggr_sum "add" residual None None None
  = Ok (example_model residual).
Proof. reflexivity. Qed.

Lemma example_layer_wf (aggr : Aggr) (mask : option (list bool)) :
  EGNNLayer_wf (example_layer aggr mask).
Proof. by repeat split. Qed.

Lemma example_model_wf (residual : bool) : EGNN_Full_wf (example_model residual).
Proof. eapply EGNN_Full_init_wf, example_model_init. Qed.

Lemma example_mlp_accepts (n_in n : nat) : accepts_rows (example_mlp n_in) n.
Proof.
  intros bn Hin _. exfalso.
  repeat (apply elem_of_cons in Hin as [Heq|Hin]; [discriminate Heq|]).
  by apply elem_of_nil in Hin.
Qed.

Lemma example_batch_wf (residual : bool) : Batch_wf (example_model residual) example_batch.
Proof.
  unfold Batch_wf. simpl. split; [done|]. split; [done|].
  split; [repeat constructor; simpl; lia|]. split; [done|]. split; [done|].
  repeat constructor; apply example_mlp_accepts.
Qed.

Lemma example_mlp_eval (n_in : nat) : eval_mode (example_mlp n_in).
Proof.
  intros bn Hin. exfalso.
  repeat (apply elem_of_cons in Hin as [Heq|Hin]; [discriminate Heq|]).
  by apply elem_of_nil in Hin.
Qed.

Lemma example_bn_layer_init :
  EGNNLayer.init ones 1 "relu" "batch" aggr_add None None None = Ok example_bn_layer.
Proof. reflexivity. Qed.

Lemma example_bn_layer_wf : EGNNLayer_wf example_bn_layer.
Proof. by repeat split. Qed.

Lemma wide_model_init :
  EGNN_Full.init ones 1 1 1 2 "relu" "none" aggr_sum "add" false None None None
  = Ok wide_model.
Proof. reflexivity. Qed.

Lemma wide_model_wf : EGNN_Full_wf wide_model.
Proof. eapply EGNN_Full_init_wf, wide_model_init. Qed.

Lemma two_graph_batch_wf : Batch_wf wide_model two_graph_batch.
Proof.
  unfold Batch_wf. simpl. split; [done|]. split; [done|].
  split; [repeat constructor; simpl; lia|]. split; [done|]. split; [done|].
  repeat constructor; apply example_mlp_accepts.
Qed.

(** C1 on the example.  Node 1 is masked out and the residual connection is
    on.  Its embedding is [3] after the input layer, [6] after the first
    layer and [12] after the second: each layer step doubles it instead of
    keeping it. *)
Theorem residual_step_changes_masked_row :
  EGNN_Full.init ones 2 1 1 1 "relu" "none" aggr_sum "add" true None None None
  = Ok (example_model true)
  /\ Linear_forward (EGNN_Full.emb_in (example_model true)) (Batch.x example_batch)
     = Ok example_h
  /\ EGNN_Full.conv_step true (example_layer aggr_sum None) example_h example_edges
       example_distances (Some example_mask)
     = Ok (mkTensor 1 [[18%Z]; [6%Z]], example_layer aggr_sum (Some example_mask))
  /\ example_mask !! 1 = Some false
  /\ rows example_h !! 1 = Some [3%Z]
  /\ EGNN_Full.embeddings (example_model true) example_batch
     = Ok (mkTensor 1 [[69%Z]; [12%Z]]).
Proof. by vm_compute. Qed.

(** C3 on the example.  The layer is built with a default mask that switches
    node 1 off, and called without a mask: node 1 is updated all the same
    (from [3] to [17]), and the default is gone from the layer. *)
Theorem default_mask_is_overwritten :
  EGNNLayer.init ones 1 "relu" "none" aggr_add None None (Some example_mask)
  = Ok (example_layer aggr_add (Some example_mask))
  /\ EGNNLayer.forward (example_layer aggr_add (Some example_mask)) example_h example_edges
       example_distances None
     = Ok (mkTensor 1 [[16%Z]; [17%Z]], example_layer aggr_add None)
  /\ rows example_h !! 1 = Some [3%Z].
Proof. by vm_compute. Qed.

(** C9 fails on the example by design of batch norm: a layer that
    normalises with batch norm is in training mode after construction, and a
    call (here with the mask the layer already stores, so that the mask
    plays no part) leaves it with batch norms that have counted a batch:
    the layer is no longer the layer it was. *)
Lemma forward_moves_batch_norm_counter :
  EGNNLayer.init ones 1 "relu" "batch" aggr_add None None None = Ok example_bn_layer
  /\ exists (out : Tensor2 Z) l' bn bn',
       EGNNLayer.forward example_bn_layer example_h example_edges example_distances None
       = Ok (out, l')
       /\ EGNNLayer.mask l' = EGNNLayer.mask example_bn_layer
       /\ EGNNLayer.mlp_msg example_bn_layer !! 1 = Some (mBatchNorm1d bn)
       /\ EGNNLayer.mlp_msg l' !! 1 = Some (mBatchNorm1d bn')
       /\ num_batches_tracked bn = 0
       /\ num_batches_tracked bn' = 1
       /\ l' ≠ example_bn_layer.
Proof.
  split; [reflexivity|].
  eexists _, _, _, _. split; [vm_compute; reflexivity|].
  split; [reflexivity|]. split; [reflexivity|]. split; [reflexivity|].
  split; [reflexivity|]. split; [reflexivity|]. discriminate.
Qed.

(** A call that raises has written the layer all the same: with a single
    edge the first batch norm of the message network counts the batch and
    then refuses its single row. *)
Lemma raising_call_counts_a_batch :
  EGNNLayer.forward example_bn_layer example_h [(0, 0)] (mkTensor 1 [[5%Z]]) None
  = Err ValueError
  /\ exists bn',
       EGNNLayer.mlp_msg
         (EGNNLayer.after example_bn_layer example_h [(0, 0)] (mkTensor 1 [[5%Z]]) None)
       !! 1 = Some (mBatchNorm1d bn')
       /\ num_batches_tracked bn' = 1.
Proof. split; [by vm_compute|]. eexists. split; [vm_compute; reflexivity|]. reflexivity. Qed.

(** On the batch of no graph the model returns a tensor without rows, of
    width [out_features]. *)
Lemma forward_on_empty_batch :
  Batch_wf wide_model empty_batch
  /\ fst <$> EGNN_Full.forward wide_model empty_batch = Ok (mkTensor 2 []).
Proof.
  split; [|by vm_compute].
  unfold Batch_wf. simpl. split; [done|]. split; [done|]. split; [constructor|].
  split; [done|]. split; [done|]. repeat constructor; apply example_mlp_accepts.
Qed.

(** C5 fails as stated when the messages are multiplied: node 0 of the
    example, with the single edge from node 0 to node 1, is the target of no
    edge and is handed the vector of ones, not of zeros. *)
Lemma mul_aggregation_hands_ones :
  EGNNLayer.init ones 1 "relu" "none" aggr_mul None None None
  = Ok (example_layer aggr_mul None)
  /\ EGNNLayer.forward (example_layer aggr_mul None) example_h [(0, 1)]
       (mkTensor 1 [[5%Z]]) None
     = Ok (mkTensor 1 [[5%Z]; [17%Z]], example_layer aggr_mul None)
  /\ (forall e : nat * nat, e ∈ [(0, 1)] -> e.2 ≠ 0)
  /\ EGNNLayer.aggregated (example_layer aggr_mul None) [(0, 1)] example_h
       (mkTensor 1 [[5%Z]])
     = Ok (mkTensor 1 [[1%Z]; [12%Z]], example_layer aggr_mul None)
  /\ EGNNLayer.update (example_layer aggr_mul None) (mkTensor 1 [[1%Z]; [12%Z]]) example_h
     = Ok (mkTensor 1 [[5%Z]; [17%Z]], example_layer aggr_mul None)
  /\ rows (mkTensor 1 [[1%Z]; [12%Z]]) !! 0 = Some [1%Z]
  /\ [1%Z] ≠ replicate (EGNNLayer.emb_dim (example_layer aggr_mul None)) (s_zero : Z).
Proof.
  split; [reflexivity|]. split; [by vm_compute|].
  split; [intros e He; apply list_elem_of_singleton in He; by subst e|].
  split; [by vm_compute|]. split; [by vm_compute|]. split; [reflexivity|]. discriminate.
Qed.

(** C7 fails as stated on a one-node graph when the model normalises with
    batch norm and is in training mode, as it is after construction: the
    batch is well formed (one graph, id 0, edges between existing nodes), and
    the batch norm of the update network raises on its single row. *)
Lemma batch_norm_rejects_single_node :
  exists m : EGNN_Full.t Z,
    EGNN_Full.init ones 1 1 1 1 "relu" "batch" aggr_sum "add" true None None None = Ok m
    /\ EGNN_Full_wf m
    /\ Batch.batch single_node_batch = Some [0]
    /\ (forall g, g ∈ [0] <-> g < 1)
    /\ ncols (Batch.x single_node_batch) = EGNN_Full.node_features m
    /\ Forall (fun e : nat * nat => e.1 < 1 /\ e.2 < 1) (Batch.edge_index single_node_batch)
    /\ EGNN_Full.forward m single_node_batch = Err ValueError.
Proof.
  eexists. split; [reflexivity|].
  split; [refine (EGNN_Full_init_wf ones 1 1 1 1 "relu" "batch" "add" aggr_sum true
                     None None None _ _); reflexivity|].
  split; [reflexivity|].
  split; [intros g; rewrite elem_of_cons, elem_of_nil; lia|].
  split; [reflexivity|].
  split; [repeat constructor|].
  vm_compute. reflexivity.
Qed.

(** *** The statements above, at the example *)

Lemma forward_masked_row_is_input_witness :
  rows (mkTensor 1 [[16%Z]; [3%Z]]) !! 1 = rows example_h !! 1
  /\ exists (aggr_out : Tensor2 Z) l1 x upd_out mlp,
       EGNNLayer.aggregated
         (EGNNLayer.set_mask (example_layer aggr_add None) (Some example_mask))
         example_edges example_h example_distances = Ok (aggr_out, l1)
       /\ cat_cols example_h aggr_out = Ok x
       /\ Sequential_forward (EGNNLayer.mlp_upd l1) x = Ok (upd_out, mlp)
       /\ where_rows example_mask upd_out example_h = Ok (mkTensor 1 [[16%Z]; [3%Z]]).
Proof.
  refine (forward_masked_row_is_input (example_layer aggr_add None) example_h example_edges
            example_distances example_mask (mkTensor 1 [[16%Z]; [3%Z]])
            (example_layer aggr_add (Some example_mask)) 1 _ _ _ _).
  - apply example_layer_wf.
  - reflexivity.
  - vm_compute. reflexivity.
  - reflexivity.
Defined.

Lemma RFF_forward_width_witness :
  exists rff,
    RFF.init ones 1 7 (Some 1%Z) = Ok rff
    /\ nrows (RFF.B rff) = ceil_half 7
    /\ RFF.forward rff example_distances = Ok (RFF_spec (RFF.B rff) 7 example_distances)
    /\ shape (RFF_spec (RFF.B rff) 7 example_distances) = (nrows example_distances, 7)
    /\ Forall (fun r => length r = 7) (rows (RFF_spec (RFF.B rff) 7 example_distances)).
Proof. refine (RFF_forward_width ones 1 7 1%Z example_distances _). reflexivity. Defined.

Lemma no_incoming_edge_aggregates_zero_witness :
  exists (aggr_out : Tensor2 Z) l1,
    EGNNLayer.aggregated (EGNNLayer.set_mask (example_layer aggr_max None) None)
      [(0, 1)] example_h (mkTensor 1 [[5%Z]]) = Ok (aggr_out, l1)
    /\ EGNNLayer.update l1 aggr_out example_h
       = Ok (mkTensor 1 [[4%Z]; [17%Z]], example_layer aggr_max None)
    /\ rows aggr_out !! 0 = Some (replicate 1 0%Z).
Proof.
  destruct (no_incoming_edge_aggregates_zero (example_layer aggr_max None) example_h
              [(0, 1)] (mkTensor 1 [[5%Z]]) None (mkTensor 1 [[4%Z]; [17%Z]])
              (example_layer aggr_max None) 0) as (aggr_out & l1 & Ha & Hu & Hzero & _).
  - apply example_layer_wf.
  - vm_compute. reflexivity.
  - unfold nrows. simpl. lia.
  - intros e He. apply list_elem_of_singleton in He. subst e. simpl. lia.
  - exists aggr_out, l1. split; [exact Ha|]. split; [exact Hu|].
    apply Hzero; discriminate.
Defined.


Lemma distances_computed_once_and_shared_witness :
  exists (out : Tensor2 Z) m' (log : list EGNN_Full.Event),
    EGNN_Full.forward_traced (example_model true) example_batch = Ok (out, m', log)
    /\ exists d (hs : list (Tensor2 Z)) h0 hL,
         EGNN_Full.edge_distances (Batch.pos example_batch) (Batch.edge_index example_batch)
         = Ok d
         /\ shape d = (length (Batch.edge_index example_batch), 1)
         /\ (forall (k row col : nat),
               Batch.edge_index example_batch !! k = Some (row, col) ->
               exists p_row p_col,
                 rows (Batch.pos example_batch) !! row = Some p_row
                 /\ rows (Batch.pos example_batch) !! col = Some p_col
                 /\ rows d !! k = Some [euclid p_row p_col]
                 /\ ((forall a b : Z,
                        s_mul (s_sub a b) (s_sub a b) = s_mul (s_sub b a) (s_sub b a)) ->
                     rows d !! k = Some [euclid p_col p_row]))
         /\ length hs = length (EGNN_Full.convs (example_model true))
         /\ log = EGNN_Full.ev_distances d
                  :: ((fun hk => EGNN_Full.ev_conv hk (Batch.edge_index example_batch) d
                                   (Batch.mask example_batch)) <$> hs)
         /\ Linear_forward (EGNN_Full.emb_in (example_model true)) (Batch.x example_batch)
            = Ok h0
         /\ (hs ++ [hL]) !! 0 = Some h0
         /\ (forall (k : nat) conv,
               EGNN_Full.convs (example_model true) !! k = Some conv ->
               exists hk h_update conv' hk',
                 hs !! k = Some hk
                 /\ EGNNLayer.forward conv hk (Batch.edge_index example_batch) d
                      (Batch.mask example_batch) = Ok (h_update, conv')
                 /\ EGNN_Full.convs m' !! k = Some conv'
                 /\ (if EGNN_Full.residual (example_model true)
                     then tensor_add hk h_update else Ok h_update) = Ok hk'
                 /\ (hs ++ [hL]) !! S k = Some hk')
         /\ EGNN_Full.embeddings (example_model true) example_batch = Ok hL
         /\ exists pooled pred',
              global_pool (EGNN_Full.pool (example_model true)) hL
                (Batch.batch example_batch) = Ok pooled
              /\ Sequential_forward (EGNN_Full.pred (example_model true)) pooled
                 = Ok (out, pred').
Proof.
  eexists _, _, _. split; [vm_compute; reflexivity|].
  eapply distances_computed_once_and_shared. vm_compute. reflexivity.
Defined.

Lemma forward_output_shape_witness :
  exists (out : Tensor2 Z) m' hL pooled (w1 w2 : Linear Z),
    EGNN_Full.forward wide_model two_graph_batch = Ok (out, m')
    /\ EGNN_Full.embeddings wide_model two_graph_batch = Ok hL
    /\ global_pool (EGNN_Full.pool wide_model) hL (Some [0; 0; 1]) = Ok pooled
    /\ EGNN_Full.pred wide_model = [mLinear w1; mReLU; mLinear w2]
    /\ Sequential_forward (EGNN_Full.pred wide_model) pooled = Ok (out, EGNN_Full.pred m')
    /\ shape out = (2, 2)
    /\ tensor_wf out.
Proof.
  refine (forward_output_shape wide_model two_graph_batch [0; 0; 1] 2 _ _ _ _).
  - apply wide_model_wf.
  - apply two_graph_batch_wf.
  - reflexivity.
  - intros g. rewrite !elem_of_cons, elem_of_nil. lia.
Defined.

Lemma constructors_look_names_up_witness :
  EGNNLayer.init ones 1 "tanh" "layer" aggr_add None None None = Err (KeyError "tanh")
  /\ EGNNLayer.init ones 1 "relu" "instance" aggr_add None None None
     = Err (KeyError "instance")
  /\ EGNN_Full.init ones 2 1 1 1 "relu" "none" aggr_sum "max" true None None None
     = Err (KeyError "max")
  /\ exists m, EGNN_Full.init ones 2 1 1 1 "relu" "none" aggr_sum "add" true None None None
               = Ok m.
Proof.
  assert (sigma_given (R:=Z) None None) as Hs by (by left).
  assert ("relu" ∈ ["swish"; "relu"]) as Hrelu by (by repeat constructor).
  assert ("none" ∈ ["layer"; "batch"; "none"]) as Hnone by (by repeat constructor).
  split; [|split; [|split]].
  - refine (proj1 (constructors_look_names_up ones 1 2 1 1 "tanh" "layer" "add" aggr_add
                     true None None None) _).
    rewrite !not_elem_of_cons. by repeat split; try apply not_elem_of_nil.
  - refine (proj1 (proj2 (constructors_look_names_up ones 1 2 1 1 "relu" "instance" "add"
                            aggr_add true None None None)) Hrelu _).
    rewrite !not_elem_of_cons. by repeat split; try apply not_elem_of_nil.
  - refine (proj2 (proj1 (proj2 (proj2 (constructors_look_names_up ones 1 2 1 1 "relu" "none"
                                          "max" aggr_sum true None None None))) _)
              Hrelu Hnone Hs).
    rewrite !not_elem_of_cons. by repeat split; try apply not_elem_of_nil.
  - refine (proj2 (proj2 (proj2 (proj2 (constructors_look_names_up ones 1 2 1 1 "relu" "none"
                                          "add" aggr_sum true None None None)))
                     Hrelu Hnone Hs) _).
    by repeat constructor.
Defined.

Lemma forward_writes_statistics_only_witness :
  same_layer_but_mask example_bn_layer
    (EGNNLayer.after example_bn_layer example_h [(0, 0)] (mkTensor 1 [[5%Z]])
       (Some example_mask))
  /\ EGNNLayer.set_mask
       (EGNNLayer.after (example_layer aggr_add None) example_h example_edges
          example_distances (Some example_mask))
       (EGNNLayer.mask (example_layer aggr_add None))
     = example_layer aggr_add None
  /\ exists (out : Tensor2 Z) l',
       EGNNLayer.forward example_bn_layer example_h example_edges example_distances
         (Some example_mask) = Ok (out, l')
       /\ l' = EGNNLayer.after example_bn_layer example_h example_edges example_distances
                 (Some example_mask).
Proof.
  split; [|split].
  - exact (proj1 (proj1 (forward_writes_statistics_only (R:=Z)) example_bn_layer example_h
                    [(0, 0)] (mkTensor 1 [[5%Z]]) (Some example_mask))).
  - refine (proj1 (proj2 (proj1 (forward_writes_statistics_only (R:=Z))
                            (example_layer aggr_add None) example_h example_edges
                            example_distances (Some example_mask))) _ _);
      apply example_mlp_eval.
  - eexists _, _. split; [vm_compute; reflexivity|].
    refine (proj2 (proj2 (proj1 (forward_writes_statistics_only (R:=Z)) example_bn_layer
                            example_h example_edges example_distances (Some example_mask)))
              _ _ _).
    vm_compute. reflexivity.
Defined.

Lemma residual_doubles_masked_rows_witness :
  exists h0 hL : Tensor2 Z,
    Linear_forward (EGNN_Full.emb_in (example_model true)) (Batch.x example_batch) = Ok h0
    /\ EGNN_Full.embeddings (example_model true) example_batch = Ok hL
    /\ rows hL !! 1 = fmap (s_mul (s_of_nat (2 ^ 2))) <$> rows h0 !! 1.
Proof.
  edestruct (residual_doubles_masked_rows (example_model true) example_batch example_mask 1)
    as [_ (h0 & hL & Hh0 & HhL & Hrow & _)].
  - apply example_model_wf.
  - reflexivity.
  - reflexivity.
  - reflexivity.
  - reflexivity.
  - intros a. change (Z.of_nat 1 * a = a)%Z. lia.
  - intros k a. change (Z.of_nat k * a + Z.of_nat k * a = Z.of_nat (2 * k) * a)%Z. lia.
  - vm_compute. reflexivity.
  - exists h0, hL. split; [exact Hh0|]. split; [exact HhL|]. exact Hrow.
Defined.


(** * Further properties of the code *)

Section LayerExtras.
Context {R : Type} `{Scalar R}.
Implicit Types (l : EGNNLayer.t R) (h d x out : Tensor2 R) (ei : EdgeIndex).

(** [forward] returns a tensor of the shape of [h], with or without a mask
    (a mask having one entry per node). *)
Theorem layer_forward_keeps_shape l h ei d (mask : option (list bool)) out l' :
  EGNNLayer_wf l ->
  mask_fits mask (nrows h) ->
  EGNNLayer.forward l h ei d mask = Ok (out, l') ->
  shape out = shape h.
Proof.
  intros Hwf Hm Hf. apply forward_shape in Hf as [Hn Hc]; [|done..].
  unfold shape. by rewrite Hn, Hc.
Qed.

Lemma index_select_out_of_range (t : list (list R)) (idx : list nat) :
  Exists (fun i => length t <= i) idx -> index_select t idx = Err IndexError.
Proof.
  induction idx as [|i idx IH]; intros Hex; [by apply Exists_nil in Hex|].
  simpl. destruct (t !! i) as [r|] eqn:Hi; [|done].
  apply Exists_cons in Hex as [Hge|Hex].
  - apply lookup_lt_Some in Hi. lia.
  - by rewrite IH.
Qed.

Lemma index_select_Err (t : list (list R)) (idx : list nat) (e : Error) :
  index_select t idx = Err e -> e = IndexError.
Proof.
  induction idx as [|i idx IH]; simpl; [done|].
  destruct (t !! i); [|by intros [= <-]].
  destruct (index_select t idx); simpl; [done|]. intros [= <-]. by apply IH.
Qed.

(** An edge that names a node the embedding tensor does not have makes
    [forward] raise the index error, before any network runs. *)
Theorem edge_out_of_range_raises l h ei d (mask : option (list bool)) :
  Exists (fun e : nat * nat => nrows h <= e.1 \/ nrows h <= e.2) ei ->
  EGNNLayer.forward l h ei d mask = Err IndexError.
Proof.
  intros Hex.
  unfold EGNNLayer.forward, EGNNLayer.propagate, EGNNLayer.aggregated, gather.
  destruct (index_select (rows h) ei.*2) as [rs2|e2] eqn:H2.
  - destruct (index_select (rows h) ei.*1) as [rs1|e1] eqn:H1.
    + exfalso. apply Exists_exists in Hex as ([a b] & Hin & Hor). simpl in Hor.
      apply list_elem_of_lookup in Hin as [k Hk].
      apply index_select_Ok in H1 as [_ H1]. apply index_select_Ok in H2 as [_ H2].
      destruct (H1 k a) as [Ha _]; [by rewrite list_lookup_fmap, Hk|].
      destruct (H2 k b) as [Hb _]; [by rewrite list_lookup_fmap, Hk|].
      apply lookup_lt_is_Some in Ha, Hb. unfold nrows in Hor. lia.
    + apply index_select_Err in H1 as ->. done.
  - apply index_select_Err in H2 as ->. done.
Qed.

(** A mask that has neither one entry per node nor a single entry cannot be
    broadcast against the embeddings: [forward] raises (more than one node). *)
Theorem mask_of_wrong_length_raises l h ei d (mask : list bool) :
  EGNNLayer_wf l ->
  length mask ≠ nrows h -> length mask ≠ 1 -> nrows h ≠ 1 ->
  exists e, EGNNLayer.forward l h ei d (Some mask) = Err e.
Proof.
  intros Hwf Hlen H1 Hn1.
  destruct (EGNNLayer.forward l h ei d (Some mask)) as [[out l']|e] eqn:Hf; [|eauto].
  exfalso.
  apply forward_Ok in Hf as (a & l1 & x & u & mlp & _ & _ & _ & _ & Hn & _ & Hout & _);
    [|done].
  assert (bdim (length mask) (nrows u) = Err RuntimeError) as Hb.
  { unfold bdim. rewrite Hn. by rewrite !decide_False. }
  unfold where_rows in Hout. rewrite Hb in Hout. discriminate Hout.
Qed.

Lemma zip_with_all_true (mask : list bool) (a b : list (list R)) :
  Forall (fun m => m = true) mask -> length mask = length a -> length a = length b ->
  zip_with (fun (m : bool) (ab : list R * list R) => if m then ab.1 else ab.2)
    mask (zip a b) = a.
Proof.
  intros Hall. revert a b. induction Hall as [|m mask -> _ IH]; intros [|ra a] [|rb b];
    simpl; intros Hl1 Hl2; try done.
  f_equal. apply IH; lia.
Qed.

Lemma message_set_mask l (m : option (list bool)) (h_i h_j : Tensor2 R) d msg l1 :
  EGNNLayer.message l h_i h_j d = Ok (msg, l1) ->
  EGNNLayer.message (EGNNLayer.set_mask l m) h_i h_j d = Ok (msg, EGNNLayer.set_mask l1 m).
Proof.
  unfold EGNNLayer.message. intros Hm.
  apply bind_Ok in Hm as (d' & Hd' & Hm).
  apply bind_Ok in Hm as (c1 & Hc1 & Hm).
  apply bind_Ok in Hm as (c2 & Hc2 & Hm).
  apply bind_Ok in Hm as ([y mlp] & Hy & Hm). injection Hm as <- <-.
  cbn [EGNNLayer.RFF_dim EGNNLayer.RFF EGNNLayer.mlp_msg EGNNLayer.set_mask].
  rewrite Hd'. simpl. rewrite Hc1. simpl. rewrite Hc2. simpl. rewrite Hy. done.
Qed.

Lemma aggregated_set_mask l (m : option (list bool)) ei h d (aggr_out : Tensor2 R) l1 :
  EGNNLayer.aggregated l ei h d = Ok (aggr_out, l1) ->
  EGNNLayer.aggregated (EGNNLayer.set_mask l m) ei h d
  = Ok (aggr_out, EGNNLayer.set_mask l1 m).
Proof.
  unfold EGNNLayer.aggregated. intros Ha.
  apply bind_Ok in Ha as (h_i & Hi & Ha).
  apply bind_Ok in Ha as (h_j & Hj & Ha).
  apply bind_Ok in Ha as ([msg l0] & Hm & Ha).
  apply bind_Ok in Ha as (ag & Hag & Ha). injection Ha as <- <-.
  rewrite Hi, Hj. simpl. rewrite (message_set_mask _ m _ _ _ _ _ Hm). simpl.
  unfold EGNNLayer.aggregate in *. simpl. rewrite Hag. done.
Qed.

(** A mask that switches every node on is no mask: the call returns what the
    call without a mask returns, and leaves the same layer but for the mask
    it stores. *)
Theorem all_true_mask_is_no_mask l h ei d (mask : list bool) out l' :
  EGNNLayer_wf l ->
  length mask = nrows h ->
  Forall (fun m => m = true) mask ->
  EGNNLayer.forward l h ei d (Some mask) = Ok (out, l') ->
  EGNNLayer.forward l h ei d None = Ok (out, EGNNLayer.set_mask l' None).
Proof.
  intros Hwf Hlen Hall Hf.
  apply forward_Ok in Hf
    as (a & l1 & x & u & mlp & Ha & Hu & Hx & Hy & Hn & Hc & Hout & _); [|done].
  pose proof Ha as Ha0.
  apply aggregated_Ok in Ha0 as (_ & _ & _ & _ & Hmask & _); [|by apply wf_set_mask].
  simpl in Hmask.
  unfold EGNNLayer.forward, EGNNLayer.propagate.
  apply (aggregated_set_mask _ None) in Ha. rewrite set_mask_twice in Ha.
  rewrite Ha. simpl.
  unfold EGNNLayer.update in Hu |- *.
  cbn [EGNNLayer.mlp_upd EGNNLayer.set_mask EGNNLayer.mask EGNNLayer.set_mlp_upd].
  rewrite Hx in Hu |- *. simpl in Hu |- *. rewrite Hy in Hu |- *. simpl in Hu |- *.
  rewrite Hmask in Hu. simpl in Hu.
  rewrite where_rows_same_shape in Hu by done. simpl in Hu. injection Hu as <- <-.
  rewrite zip_with_all_true by (unfold nrows in *; congruence).
  destruct u as [cu ru]. simpl in *. by rewrite Hc.
Qed.

End LayerExtras.


Section MoreLayerExtras.
Context {R : Type} `{Scalar R}.
Implicit Types (l : EGNNLayer.t R) (h d x out : Tensor2 R) (ei : EdgeIndex).

Lemma Sequential_forward_accepts (s s' : list (NNModule R)) x y :
  Sequential_forward s x = Ok (y, s') -> accepts_rows s (nrows x).
Proof.
  revert x y s'. induction s as [|mo s IH]; intros x y s' Hy; simpl in Hy.
  - intros bn Hin. by apply elem_of_nil in Hin.
  - apply bind_Ok in Hy as ([y1 m1] & Ha & Hy).
    apply bind_Ok in Hy as ([y2 s2] & Ha0 & Hy).
    apply accepts_rows_cons. split.
    + intros bn Hin Ht. apply list_elem_of_singleton in Hin as <-. simpl in Ha.
      apply bind_Ok in Ha as ([y3 bn'] & Ha & _).
      apply BatchNorm1d_forward_Ok in Ha as (_ & _ & _ & _ & _ & Hne & _). by apply Hne.
    + apply NNModule_forward_Ok in Ha as (Hn & _). rewrite <- Hn. by eapply IH.
Qed.

(** A batch norm in training mode refuses a single row: when [forward]
    returns, no batch norm of the message network in training mode has met a
    graph of exactly one edge, and none of the update network a graph of
    exactly one node. *)
Theorem forward_returns_only_off_single_rows l h ei d (mask : option (list bool)) out l' :
  EGNNLayer.forward l h ei d mask = Ok (out, l') ->
  accepts_rows (EGNNLayer.mlp_msg l) (length ei)
  /\ accepts_rows (EGNNLayer.mlp_upd l) (nrows h).
Proof.
  unfold EGNNLayer.forward, EGNNLayer.propagate, EGNNLayer.aggregated. intros Hf.
  apply bind_Ok in Hf as ([out' l''] & Hf & _).
  apply bind_Ok in Hf as ([aggr_out l1] & Ha & Hu).
  apply bind_Ok in Ha as (h_i & Hi & Ha).
  apply bind_Ok in Ha as (h_j & Hj & Ha).
  apply bind_Ok in Ha as ([msg l0] & Hm & Ha).
  apply bind_Ok in Ha as (ag & _ & Ha). injection Ha as _ ->.
  apply gather_Ok in Hi as (_ & Hni & _). rewrite length_fmap in Hni.
  pose proof Hm as Hm'. unfold EGNNLayer.message in Hm'.
  apply bind_Ok in Hm' as (d' & _ & Hm').
  apply bind_Ok in Hm' as (c1 & Hc1 & Hm').
  apply bind_Ok in Hm' as (c2 & Hc2 & Hm').
  apply bind_Ok in Hm' as ([y mlp] & Hy & Hm'). injection Hm' as _ Hl1.
  apply cat_cols_Ok in Hc1 as (_ & Hn1 & _). apply cat_cols_Ok in Hc2 as (_ & Hn2 & _).
  apply Sequential_forward_accepts in Hy. simpl in Hy.
  rewrite Hn2, Hn1, Hni in Hy. split; [done|].
  unfold EGNNLayer.update in Hu.
  apply bind_Ok in Hu as (x & Hx & Hu).
  apply bind_Ok in Hu as ([upd_out mlp'] & Hy' & _).
  apply cat_cols_Ok in Hx as (_ & Hnx & _).
  apply Sequential_forward_accepts in Hy'. rewrite Hnx in Hy'.
  subst l1. done.
Qed.

(** *** What a node receives *)

Lemma scatter_add_lookup (out res : list (list R)) (index : list nat) (src : list (list R))
    (v : nat) (o : list R) :
  scatter_add out index src = Ok res ->
  out !! v = Some o ->
  res !! v = Some (foldl vadd o (received v index src)).
Proof.
  revert out src o. induction index as [|i index IH]; intros out [|r src] o Hres Ho;
    simpl in Hres; try done.
  - injection Hres as <-. done.
  - case_decide as Hi; [|done]. unfold received. simpl.
    destruct (decide (i = v)) as [->|Hne].
    + rewrite filter_cons_True by done. simpl.
      apply (IH _ _ (vadd o r)) in Hres; [done|].
      by rewrite list_lookup_alter_eq, Ho.
    + rewrite filter_cons_False by done.
      apply (IH _ _ o) in Hres; [done|]. by rewrite list_lookup_alter_ne.
Qed.

(** With the additive aggregation the vector a node is handed is the sum,
    in edge order and starting from zeros, of the messages of the edges that
    point to it. *)
Theorem aggregated_is_sum_of_incoming l ei h d (aggr_out : Tensor2 R) l1 (v : nat) :
  EGNNLayer_wf l ->
  EGNNLayer.aggr l = aggr_add \/ EGNNLayer.aggr l = aggr_sum ->
  EGNNLayer.aggregated l ei h d = Ok (aggr_out, l1) ->
  v < nrows h ->
  exists h_i h_j msg,
    gather h ei.*2 = Ok h_i /\ gather h ei.*1 = Ok h_j
    /\ EGNNLayer.message l h_i h_j d = Ok (msg, l1)
    /\ rows aggr_out !! v
       = Some (foldl vadd (replicate (EGNNLayer.emb_dim l) s_zero)
                 (received v ei.*2 (rows msg))).
Proof.
  intros Hwf Hag Ha Hv. unfold EGNNLayer.aggregated in Ha.
  apply bind_Ok in Ha as (h_i & Hi & Ha).
  apply bind_Ok in Ha as (h_j & Hj & Ha).
  apply bind_Ok in Ha as ([msg l0] & Hm & Ha).
  apply bind_Ok in Ha as (ag & Hs & Ha). injection Ha as <- <-.
  exists h_i, h_j, msg. do 3 (split; [done|]).
  pose proof Hi as Hi'. apply gather_Ok in Hi' as (_ & Hni & _).
  rewrite length_fmap in Hni.
  pose proof Hm as Hm'.
  apply message_Ok in Hm' as (_ & Hnm & Hcm & _ & Hsame & _); [|done].
  destruct Hsame as (_ & _ & _ & Haggr & _).
  unfold EGNNLayer.aggregate, scatter in Hs.
  rewrite expand_as_same in Hs by (rewrite length_fmap; congruence).
  apply bind_Ok in Hs as (idx & [= <-] & Hs).
  assert (aggr_reduce (EGNNLayer.aggr l0) = reduce_sum) as Hsum.
  { rewrite Haggr. by destruct Hag as [-> | ->]. }
  rewrite Hsum in Hs.
  apply bind_Ok in Hs as (res & Hres & Hs). injection Hs as <-.
  simpl. rewrite <- Hcm.
  eapply scatter_add_lookup; [exact Hres|].
  simpl. by apply lookup_replicate_2.
Qed.

(** [RFF.forward] raises on an input whose width is not [in_features]. *)
Theorem RFF_forward_wrong_width (θ : Params R) (n_in n_out : nat) (sg : R) (rff : RFF.t R) x :
  RFF.init θ n_in n_out (Some sg) = Ok rff ->
  ncols x ≠ n_in ->
  RFF.forward rff x = Err RuntimeError.
Proof.
  intros Hinit Hx.
  destruct (RFF_init_Ok θ n_in n_out sg) as (rff' & Hinit' & _ & _ & _ & HBc & _).
  rewrite Hinit in Hinit'. injection Hinit' as <-.
  unfold RFF.forward, F_linear. rewrite HBc, bool_decide_eq_false_2 by done. done.
Qed.

End MoreLayerExtras.

Section ConstructorExtras.
Context {R : Type} `{Scalar R}.
Implicit Types (θ : Params R) (rs : option R) (mask : option (list bool)).

(** An [RFF_dim] without an [RFF_sigma] (the default) cannot be built: the
    layer constructor raises the type error of [randn * None], and so does
    the model constructor as soon as it has a layer to build. *)
Theorem RFF_dim_needs_sigma θ (e depth n_node n_out dd : nat) (activation norm pool : string)
    (aggr : Aggr) (residual : bool) mask :
  activation ∈ ["swish"; "relu"] -> norm ∈ ["layer"; "batch"; "none"] ->
  EGNNLayer.init θ e activation norm aggr (Some dd) None mask = Err TypeError
  /\ (0 < depth ->
      EGNN_Full.init θ depth e n_node n_out activation norm aggr pool residual
        (Some dd) None mask = Err TypeError).
Proof.
  intros [a Ha]%getitem_activations_Ok [n Hn]%getitem_norms_Ok.
  assert (forall θ', EGNNLayer.init θ' e activation norm aggr (Some dd) None mask
                     = Err TypeError) as Hl.
  { intros θ'. unfold EGNNLayer.init. rewrite Ha, Hn. done. }
  split; [apply Hl|]. intros Hd. unfold EGNN_Full.init.
  destruct depth as [|k]; [lia|]. rewrite <- cons_seq. simpl. by rewrite Hl.
Qed.

(** The activation and norm names are looked up when a layer is built, and
    only then: a model of depth 0 constructs whatever they are. *)
Theorem depth_zero_skips_layer_names θ (e n_node n_out : nat) (activation norm pool : string)
    (aggr : Aggr) (residual : bool) (rd : option nat) rs mask :
  pool ∈ ["mean"; "add"] ->
  exists m, EGNN_Full.init θ 0 e n_node n_out activation norm aggr pool residual rd rs mask
            = Ok m
            /\ EGNN_Full.convs m = [].
Proof.
  intros [p Hp]%getitem_pools_Ok. unfold EGNN_Full.init. simpl. rewrite Hp. simpl. eauto.
Qed.

End ConstructorExtras.


Section ModelExtras.
Context {R : Type} `{Scalar R}.
Implicit Types (m : EGNN_Full.t R) (batch : Batch.t R) (h d x out : Tensor2 R).

Lemma pred_accepts (s : list (NNModule R)) (a b c e f g n : nat) :
  module_sig <$> s = [sig_Linear a b c; sig_ReLU; sig_Linear e f g] ->
  accepts_rows s n /\ eval_mode s.
Proof.
  intros (w1 & w2 & ->)%pred_inv.
  split; intros bn Hbn; exfalso;
    repeat (apply elem_of_cons in Hbn as [?|Hbn]; [done|]); by apply elem_of_nil in Hbn.
Qed.

(** On a well-formed batch the whole pipeline runs: input embedding, layers,
    readout, prediction head. *)
Lemma forward_runs m batch :
  EGNN_Full_wf m -> Batch_wf m batch ->
  exists out m' hL pooled,
    EGNN_Full.forward m batch = Ok (out, m')
    /\ EGNN_Full.embeddings m batch = Ok hL
    /\ nrows hL = nrows (Batch.x batch)
    /\ global_pool (EGNN_Full.pool m) hL (Batch.batch batch) = Ok pooled
    /\ nrows out = nrows pooled /\ ncols out = EGNN_Full.out_features m.
Proof.
  intros Hwf (Hx & Hpos & Hei & Hids & Hmask & Hacc).
  pose proof (EGNN_Full_wf_convs m Hwf) as Hconvs.
  destruct Hwf as (Hemb & Hdepth & Hlayers & Hpred).
  simpl in Hemb. injection Hemb as Hin Hout Hbias.
  unfold in_features, out_features in Hin, Hout.
  destruct (F_linear_total (Batch.x batch) (weight (EGNN_Full.emb_in m))
              (Some (bias (EGNN_Full.emb_in m)))) as [h0 Hh0]; [congruence|simpl; congruence|].
  pose proof Hh0 as Hh0'. apply F_linear_Ok in Hh0' as (_ & _ & Hn0 & Hc0 & _).
  assert (exists d, EGNN_Full.edge_distances (Batch.pos batch) (Batch.edge_index batch) = Ok d)
    as [d Hd].
  { unfold EGNN_Full.edge_distances.
    destruct (gather_total (Batch.pos batch) (Batch.edge_index batch).*1) as [pr Hpr].
    { apply Forall_fmap. eapply Forall_impl; [exact Hei|]. intros e [? _]. simpl. lia. }
    destruct (gather_total (Batch.pos batch) (Batch.edge_index batch).*2) as [pc Hpc].
    { apply Forall_fmap. eapply Forall_impl; [exact Hei|]. intros e [_ ?]. simpl. lia. }
    rewrite Hpr, Hpc. simpl.
    apply gather_Ok in Hpr as (Hcr & Hnr & _). apply gather_Ok in Hpc as (Hcc & Hnc & _).
    rewrite length_fmap in Hnr, Hnc.
    unfold tensor_sub. rewrite broadcast2_same_shape by congruence. simpl. eauto. }
  pose proof Hd as Hd'. apply edge_distances_Ok in Hd' as (Hnd & Hcd & _).
  destruct (conv_loop_total (EGNN_Full.residual m) (EGNN_Full.convs m) h0
              (Batch.edge_index batch) d (Batch.mask batch)) as (hL & convs' & log & Hl).
  { apply Forall_forall. intros l Hl.
    pose proof (proj1 (Forall_forall _ _) Hlayers l Hl) as [Hwfl Hel].
    pose proof (proj1 (Forall_forall _ _) Hacc l Hl) as [Ha1 Ha2].
    rewrite Hn0. split; [done|]. split; [congruence|]. by split. }
  { by rewrite Hn0. }
  { done. }
  { done. }
  { by rewrite Hn0. }
  pose proof Hl as Hl'. apply conv_loop_Ok in Hl' as [HnL HcL]; [|done|by rewrite Hn0].
  destruct (global_pool_total (EGNN_Full.pool m) hL (Batch.batch batch))
    as (pooled & Hp & Hcp).
  { destruct (Batch.batch batch); simpl in *; [|done]. by rewrite HnL, Hn0. }
  destruct (pred_accepts _ _ _ _ _ _ _ (nrows pooled) Hpred) as [Hpacc _].
  destruct (Sequential_forward_total (EGNN_Full.pred m) pooled (EGNN_Full.out_features m))
    as (out & pred' & Hpr); [|done|].
  { rewrite Hpred. simpl.
    rewrite decide_True by (split; [congruence|done]). by rewrite decide_True. }
  exists out, (EGNN_Full.set_convs_pred m convs' pred'), hL, pooled.
  split.
  { unfold EGNN_Full.forward, EGNN_Full.forward_traced, Linear_forward.
    rewrite Hh0. simpl. rewrite Hd. simpl. rewrite Hl. simpl.
    rewrite Hp. simpl. rewrite Hpr. done. }
  split.
  { unfold EGNN_Full.embeddings, Linear_forward. rewrite Hh0. simpl.
    rewrite Hd. simpl. by rewrite Hl. }
  split; [congruence|]. split; [done|].
  apply Sequential_forward_Ok in Hpr as (Hno & Hco & _).
  rewrite Hpred in Hco. simpl in Hco.
  rewrite decide_True in Hco by (split; [congruence|done]).
  rewrite decide_True in Hco by done. injection Hco as Hco. done.
Qed.

(** A graph given without a batch vector is one graph: on such a batch
    [forward] returns a tensor of shape [1, out_features], provided the
    batch fits the model ([Batch_wf]): the shapes fit, the edges join
    existing nodes, and no batch norm in training mode meets a single row,
    that is, exactly one edge or exactly one node. *)
Theorem single_graph_output_shape m batch :
  EGNN_Full_wf m -> Batch_wf m batch ->
  Batch.batch batch = None ->
  exists out m',
    EGNN_Full.forward m batch = Ok (out, m')
    /\ shape out = (1, EGNN_Full.out_features m).
Proof.
  intros Hwf Hb Hnone.
  destruct (forward_runs m batch Hwf Hb) as (out & m' & hL & pooled & Hf & _ & _ & Hp & Hn & Hc).
  exists out, m'. split; [done|]. unfold shape. rewrite Hn, Hc. f_equal.
  rewrite Hnone in Hp. unfold global_pool in Hp.
  destruct (EGNN_Full.pool m); by injection Hp as <-.
Qed.

(** The constructor returns a model with [depth] layers of the configured
    shapes, and a forward pass returns the model with the same shapes, ready
    for the next call. *)
Theorem shapes_are_kept (θ : Params R) (depth e n_node n_out : nat)
    (activation norm pool : string) (aggr : Aggr) (residual : bool)
    (rd : option nat) (rs : option R) (mask : option (list bool)) m batch out m' :
  EGNN_Full.init θ depth e n_node n_out activation norm aggr pool residual rd rs mask = Ok m ->
  EGNN_Full.forward m batch = Ok (out, m') ->
  EGNN_Full_wf m /\ length (EGNN_Full.convs m) = depth
  /\ EGNN_Full_wf m' /\ length (EGNN_Full.convs m') = depth.
Proof.
  intros Hinit Hf.
  pose proof (EGNN_Full_init_wf _ _ _ _ _ _ _ _ _ _ _ _ _ _ Hinit) as Hwf.
  pose proof (forward_keeps_wf _ _ _ _ Hwf Hf) as Hwf'.
  assert (EGNN_Full.depth m = depth) as Hd.
  { unfold EGNN_Full.init in Hinit.
    apply bind_Ok in Hinit as (? & _ & Hinit).
    apply bind_Ok in Hinit as (? & _ & Hinit). by injection Hinit as <-. }
  assert (EGNN_Full.depth m' = depth) as Hd'.
  { apply forward_traced_of_forward in Hf as [log Hf].
    apply forward_traced_Ok in Hf as (? & ? & ? & ? & ? & ? & ? & _ & _ & _ & _ & _ & -> & _).
    done. }
  split; [done|]. split; [destruct Hwf as (_ & -> & _); done|].
  split; [done|]. destruct Hwf' as (_ & -> & _). done.
Qed.

(** *** Positions enter through the distances only *)

Lemma index_select_fmap (f : list R -> list R) (t : list (list R)) (idx : list nat) :
  index_select (f <$> t) idx = fmap (M:=Result) (fmap f) (index_select t idx).
Proof.
  induction idx as [|i idx IH]; simpl; [done|].
  rewrite list_lookup_fmap. destruct (t !! i) as [r|]; simpl; [|done].
  rewrite IH. by destruct (index_select t idx).
Qed.

Lemma norm_reflected (r1 r2 : list R) :
  (forall a b : R,
     s_mul (s_sub (s_sub s_zero a) (s_sub s_zero b)) (s_sub (s_sub s_zero a) (s_sub s_zero b))
     = s_mul (s_sub a b) (s_sub a b)) ->
  vsum ((fun a => s_mul a a)
          <$> zip_with s_sub ((fun a => s_sub s_zero a) <$> r1)
                ((fun a => s_sub s_zero a) <$> r2))
  = vsum ((fun a => s_mul a a) <$> zip_with s_sub r1 r2).
Proof.
  intros Hlaw. revert r2. induction r1 as [|a r1 IH]; intros [|b r2]; try done.
  rewrite !fmap_cons. cbn [zip_with]. rewrite !fmap_cons.
  unfold vsum in *. cbn [foldr]. rewrite Hlaw. f_equal. apply IH.
Qed.

Lemma edge_distances_reflect (pos : Tensor2 R) (ei : EdgeIndex) :
  (forall a b : R,
     s_mul (s_sub (s_sub s_zero a) (s_sub s_zero b)) (s_sub (s_sub s_zero a) (s_sub s_zero b))
     = s_mul (s_sub a b) (s_sub a b)) ->
  EGNN_Full.edge_distances (reflect pos) ei = EGNN_Full.edge_distances pos ei.
Proof.
  intros Hlaw. unfold EGNN_Full.edge_distances, gather, reflect, tmap. simpl.
  rewrite !index_select_fmap.
  destruct (index_select (rows pos) ei.*1) as [rs1|] eqn:H1; simpl; [|done].
  destruct (index_select (rows pos) ei.*2) as [rs2|] eqn:H2; simpl; [|done].
  apply index_select_Ok in H1 as [Hl1 _]. apply index_select_Ok in H2 as [Hl2 _].
  rewrite length_fmap in Hl1, Hl2.
  unfold tensor_sub.
  rewrite !broadcast2_same_shape
    by (unfold nrows; simpl; rewrite ?length_fmap; congruence).
  simpl. unfold norm_rows. simpl. do 2 f_equal.
  clear Hl1 Hl2. revert rs2.
  induction rs1 as [|r1 rs1 IH]; intros [|r2 rs2]; try done.
  rewrite !fmap_cons. cbn [zip_with]. rewrite !fmap_cons.
  rewrite norm_reflected by done. f_equal. apply IH.
Qed.

(** Reflecting every position through the origin changes nothing: the
    distances, and with them the whole forward pass, are the same.  The one
    law asked of the arithmetic, that the difference of two opposites has
    the square of the difference, holds for floating-point numbers, whose
    subtraction rounds symmetrically. *)
Theorem forward_reflection_invariant m batch :
  (forall a b : R,
     s_mul (s_sub (s_sub s_zero a) (s_sub s_zero b)) (s_sub (s_sub s_zero a) (s_sub s_zero b))
     = s_mul (s_sub a b) (s_sub a b)) ->
  EGNN_Full.forward m (with_pos batch (reflect (Batch.pos batch)))
  = EGNN_Full.forward m batch.
Proof.
  intros Hlaw. unfold EGNN_Full.forward, EGNN_Full.forward_traced, with_pos.
  cbn [Batch.x Batch.pos Batch.edge_index Batch.batch Batch.mask].
  by rewrite edge_distances_reflect.
Qed.

End ModelExtras.


Section StateExtras.
Context {R : Type} `{Scalar R}.
Implicit Types (l : EGNNLayer.t R) (m : EGNN_Full.t R) (batch : Batch.t R).
Implicit Types (h d out : Tensor2 R) (ei : EdgeIndex).

(** *** What one call leaves behind for the next *)

Lemma set_mask_fields l :
  EGNNLayer.mk (EGNNLayer.emb_dim l) (EGNNLayer.activation l) (EGNNLayer.norm l)
    (EGNNLayer.aggr l) (EGNNLayer.RFF_dim l) (EGNNLayer.RFF_sigma l) (EGNNLayer.mask l)
    (EGNNLayer.mlp_msg l) (EGNNLayer.mlp_upd l) (EGNNLayer.RFF l) = l.
Proof. by destruct l. Qed.

Lemma layer_forward_eval l h ei d (mask : option (list bool)) out l' :
  eval_mode (EGNNLayer.mlp_msg l) -> eval_mode (EGNNLayer.mlp_upd l) ->
  EGNNLayer.forward l h ei d mask = Ok (out, l') ->
  l' = EGNNLayer.set_mask l mask.
Proof.
  intros Hem Heu. unfold EGNNLayer.forward, EGNNLayer.propagate, EGNNLayer.aggregated.
  intros Hf.
  apply bind_Ok in Hf as ([out' l''] & Hf & Heq). injection Heq as -> ->.
  apply bind_Ok in Hf as ([aggr_out l1] & Ha & Hu).
  apply bind_Ok in Ha as (h_i & _ & Ha).
  apply bind_Ok in Ha as (h_j & _ & Ha).
  apply bind_Ok in Ha as ([msg l0] & Hm & Ha).
  apply bind_Ok in Ha as (ag & _ & Ha). injection Ha as _ ->.
  unfold EGNNLayer.message in Hm.
  apply bind_Ok in Hm as (d' & _ & Hm).
  apply bind_Ok in Hm as (c1 & _ & Hm).
  apply bind_Ok in Hm as (c2 & _ & Hm).
  apply bind_Ok in Hm as ([y mlp] & Hy & Hm). injection Hm as _ <-.
  apply Sequential_forward_unchanged in Hy; [|exact Hem]. subst mlp.
  unfold EGNNLayer.update in Hu.
  apply bind_Ok in Hu as (x & _ & Hu).
  apply bind_Ok in Hu as ([u mlp] & Hy & Hu).
  apply Sequential_forward_unchanged in Hy; [|exact Heu]. subst mlp.
  cbn in Hu. destruct mask as [mk|].
  - apply bind_Ok in Hu as (w & _ & Hu). by injection Hu as _ <-.
  - by injection Hu as _ <-.
Qed.

Lemma conv_loop_eval (residual : bool) (convs convs' : list (EGNNLayer.t R)) h ei d
    (mask : option (list bool)) h' (log : list EGNN_Full.Event) :
  Forall (fun l => eval_mode (EGNNLayer.mlp_msg l) /\ eval_mode (EGNNLayer.mlp_upd l)) convs ->
  EGNN_Full.conv_loop residual convs h ei d mask = Ok (h', convs', log) ->
  convs' = (fun l => EGNNLayer.set_mask l mask) <$> convs.
Proof.
  intros He. revert h convs' h' log.
  induction He as [|conv convs [Hem Heu] _ IH]; intros h convs' h' log Hl; simpl in Hl.
  - by injection Hl as _ <- _.
  - apply bind_Ok in Hl as ([h1 c1] & Hs & Hl).
    apply bind_Ok in Hl as ([[h2 cs2] lg] & Hl2 & Hl). injection Hl as _ <- _.
    unfold EGNN_Full.conv_step in Hs.
    apply bind_Ok in Hs as ([h_update c] & Hf & Hs).
    apply bind_Ok in Hs as (h3 & _ & Hs). injection Hs as _ ->.
    rewrite fmap_cons. f_equal.
    + by eapply layer_forward_eval.
    + by eapply IH.
Qed.

Lemma conv_loop_ignores_stored_masks (residual : bool) (convs : list (EGNNLayer.t R))
    (m0 : option (list bool)) h ei d (mask : option (list bool)) :
  EGNN_Full.conv_loop residual ((fun l => EGNNLayer.set_mask l m0) <$> convs) h ei d mask
  = EGNN_Full.conv_loop residual convs h ei d mask.
Proof.
  revert h. induction convs as [|conv convs IH]; intros h; [done|].
  rewrite fmap_cons. simpl. unfold EGNN_Full.conv_step.
  rewrite forward_ignores_stored_mask.
  destruct (EGNNLayer.forward conv h ei d mask) as [[hu c]|]; [|done]. simpl.
  destruct (if residual then tensor_add h hu else Ok hu) as [h1|]; [|done]. simpl.
  by rewrite IH.
Qed.

(** A model without batch norm in training mode (built with layer norm or
    without normalisation, or put in evaluation mode) keeps nothing from one
    call that changes the next: after a call on any batch, a call on another
    batch returns what it would have returned on the model as built. *)
Theorem eval_calls_do_not_interfere m (b1 b2 : Batch.t R) out1 m1 :
  Forall (fun l => eval_mode (EGNNLayer.mlp_msg l) /\ eval_mode (EGNNLayer.mlp_upd l))
    (EGNN_Full.convs m) ->
  eval_mode (EGNN_Full.pred m) ->
  EGNN_Full.forward m b1 = Ok (out1, m1) ->
  EGNN_Full.forward m1 b2 = EGNN_Full.forward m b2.
Proof.
  intros Hc Hp Hf. unfold EGNN_Full.forward in Hf.
  apply bind_Ok in Hf as ([[o m'] log] & Hf & Heq). injection Heq as -> ->.
  unfold EGNN_Full.forward_traced in Hf.
  apply bind_Ok in Hf as (h0 & _ & Hf).
  apply bind_Ok in Hf as (d & _ & Hf).
  apply bind_Ok in Hf as ([[hL convs'] lg] & Hl & Hf).
  apply bind_Ok in Hf as (pooled & _ & Hf).
  apply bind_Ok in Hf as ([o' pred'] & Hpr & Hf). injection Hf as _ <- _.
  apply conv_loop_eval in Hl; [|exact Hc]. subst convs'.
  apply Sequential_forward_unchanged in Hpr; [|exact Hp]. subst pred'.
  unfold EGNN_Full.forward, EGNN_Full.forward_traced, EGNN_Full.set_convs_pred.
  cbn [EGNN_Full.emb_in EGNN_Full.residual EGNN_Full.convs EGNN_Full.pool EGNN_Full.pred
       EGNN_Full.depth EGNN_Full.hidden_features EGNN_Full.node_features
       EGNN_Full.out_features EGNN_Full.activation EGNN_Full.norm EGNN_Full.aggr
       EGNN_Full.RFF_dim EGNN_Full.RFF_sigma EGNN_Full.mask EGNN_Full.name].
  destruct (Linear_forward _ _) as [h0'|]; [|done]. simpl.
  destruct (EGNN_Full.edge_distances _ _) as [d'|]; [|done]. simpl.
  by rewrite conv_loop_ignores_stored_masks.
Qed.

(** *** The mask given to the constructors *)

Lemma EGNNLayer_init_mask θ (e : nat) (activation norm : string) (aggr : Aggr)
    (rd : option nat) (rs : option R) (mask : option (list bool)) l :
  EGNNLayer.init θ e activation norm aggr rd rs mask = Ok l ->
  exists l0, EGNNLayer.init θ e activation norm aggr rd rs None = Ok l0
             /\ l = EGNNLayer.set_mask l0 mask.
Proof.
  unfold EGNNLayer.init. intros Hi.
  apply bind_Ok in Hi as (a & -> & Hi).
  apply bind_Ok in Hi as (n & -> & Hi). simpl.
  destruct rd as [dd|].
  - apply bind_Ok in Hi as (rff & -> & Hi). injection Hi as <-. simpl. eauto.
  - injection Hi as <-. eauto.
Qed.

Lemma build_convs_mask θ (layers : list nat) (e : nat) (activation norm : string)
    (aggr : Aggr) (rd : option nat) (rs : option R) (mask : option (list bool)) convs :
  EGNN_Full.build_convs θ layers e activation norm aggr rd rs mask = Ok convs ->
  exists convs0,
    EGNN_Full.build_convs θ layers e activation norm aggr rd rs None = Ok convs0
    /\ convs = (fun l => EGNNLayer.set_mask l mask) <$> convs0.
Proof.
  revert convs. induction layers as [|k layers IH]; intros convs Hb; simpl in Hb.
  - injection Hb as <-. by exists [].
  - apply bind_Ok in Hb as (c & Hc & Hb).
    apply bind_Ok in Hb as (cs & Hcs & Hb). injection Hb as <-.
    apply EGNNLayer_init_mask in Hc as (c0 & Hc0 & ->).
    apply IH in Hcs as (cs0 & Hcs0 & ->).
    exists (c0 :: cs0). simpl. rewrite Hc0. simpl. rewrite Hcs0. done.
Qed.

Lemma forward_output_congr m1 m2 (cs0 : list (EGNNLayer.t R))
    (mask1 mask2 : option (list bool)) batch :
  EGNN_Full.emb_in m1 = EGNN_Full.emb_in m2 ->
  EGNN_Full.residual m1 = EGNN_Full.residual m2 ->
  EGNN_Full.pool m1 = EGNN_Full.pool m2 ->
  EGNN_Full.pred m1 = EGNN_Full.pred m2 ->
  EGNN_Full.convs m1 = (fun l => EGNNLayer.set_mask l mask1) <$> cs0 ->
  EGNN_Full.convs m2 = (fun l => EGNNLayer.set_mask l mask2) <$> cs0 ->
  fst <$> EGNN_Full.forward m1 batch = fst <$> EGNN_Full.forward m2 batch.
Proof.
  intros He Hr Hp Hpr Hc1 Hc2. unfold EGNN_Full.forward, EGNN_Full.forward_traced.
  rewrite He, Hr, Hp, Hpr, Hc1, Hc2.
  destruct (Linear_forward _ _) as [h0|]; [|done]. simpl.
  destruct (EGNN_Full.edge_distances _ _) as [d|]; [|done]. simpl.
  rewrite !conv_loop_ignores_stored_masks.
  destruct (EGNN_Full.conv_loop _ _ _ _ _ _) as [[[hL cs] lg]|]; [|done]. simpl.
  destruct (global_pool _ _ _) as [pooled|]; [|done]. simpl.
  destruct (Sequential_forward (EGNN_Full.pred m2) pooled) as [[o pr]|]; done.
Qed.

(** The [mask] argument of the constructor has no effect on what a forward
    pass computes: two models built from the same parameters and
    configuration with different masks return the same output, and fail in
    the same way, on every batch. *)
Theorem constructor_mask_is_dead (θ : Params R) (depth e n_node n_out : nat)
    (activation norm pool : string) (aggr : Aggr) (residual : bool)
    (rd : option nat) (rs : option R) (mask1 mask2 : option (list bool)) m1 m2 batch :
  EGNN_Full.init θ depth e n_node n_out activation norm aggr pool residual rd rs mask1 = Ok m1 ->
  EGNN_Full.init θ depth e n_node n_out activation norm aggr pool residual rd rs mask2 = Ok m2 ->
  fst <$> EGNN_Full.forward m1 batch = fst <$> EGNN_Full.forward m2 batch.
Proof.
  unfold EGNN_Full.init. intros H1 H2.
  apply bind_Ok in H1 as (cs1 & Hc1 & H1). apply bind_Ok in H1 as (p1 & Hp1 & H1).
  apply bind_Ok in H2 as (cs2 & Hc2 & H2). apply bind_Ok in H2 as (p2 & Hp2 & H2).
  injection H1 as <-. injection H2 as <-.
  apply build_convs_mask in Hc1 as (cs0 & Hc0 & ->).
  apply build_convs_mask in Hc2 as (cs0' & Hc0' & ->).
  rewrite Hc0 in Hc0'. injection Hc0' as <-.
  rewrite Hp1 in Hp2. injection Hp2 as <-.
  by apply (forward_output_congr _ _ cs0 mask1 mask2).
Qed.

End StateExtras.


(** *** The further properties, at the example *)

Lemma example_single_graph_wf (residual : bool) :
  Batch_wf (example_model residual) example_single_graph.
Proof.
  unfold Batch_wf. simpl. split; [done|]. split; [done|].
  split; [repeat constructor; simpl; lia|]. split; [done|]. split; [done|].
  repeat constructor; apply example_mlp_accepts.
Qed.

Lemma layer_forward_keeps_shape_witness :
  shape (mkTensor 1 [[16%Z]; [3%Z]]) = shape example_h.
Proof.
  refine (layer_forward_keeps_shape (example_layer aggr_add None) example_h example_edges
            example_distances (Some example_mask) (mkTensor 1 [[16%Z]; [3%Z]])
            (example_layer aggr_add (Some example_mask)) _ _ _).
  - apply example_layer_wf.
  - reflexivity.
  - vm_compute. reflexivity.
Defined.

Lemma edge_out_of_range_raises_witness :
  EGNNLayer.forward (example_layer aggr_add None) example_h [(0, 2)] (mkTensor 1 [[5%Z]]) None
  = Err IndexError.
Proof.
  refine (edge_out_of_range_raises (example_layer aggr_add None) example_h [(0, 2)]
            (mkTensor 1 [[5%Z]]) None _).
  apply Exists_cons_hd. right. unfold nrows. simpl. lia.
Defined.

Lemma mask_of_wrong_length_raises_witness :
  exists e, EGNNLayer.forward (example_layer aggr_add None) example_h example_edges
              example_distances (Some [true; true; false]) = Err e.
Proof.
  refine (mask_of_wrong_length_raises (example_layer aggr_add None) example_h example_edges
            example_distances [true; true; false] _ _ _ _).
  - apply example_layer_wf.
  - unfold nrows. simpl. lia.
  - simpl. lia.
  - unfold nrows. simpl. lia.
Defined.

Lemma all_true_mask_is_no_mask_witness :
  EGNNLayer.forward (example_layer aggr_add None) example_h example_edges example_distances None
  = Ok (mkTensor 1 [[16%Z]; [17%Z]],
        EGNNLayer.set_mask (example_layer aggr_add (Some [true; true])) None).
Proof.
  refine (all_true_mask_is_no_mask (example_layer aggr_add None) example_h example_edges
            example_distances [true; true] (mkTensor 1 [[16%Z]; [17%Z]])
            (example_layer aggr_add (Some [true; true])) _ _ _ _).
  - apply example_layer_wf.
  - reflexivity.
  - by repeat constructor.
  - vm_compute. reflexivity.
Defined.

Lemma forward_returns_only_off_single_rows_witness :
  accepts_rows (EGNNLayer.mlp_msg example_bn_layer) (length example_edges)
  /\ accepts_rows (EGNNLayer.mlp_upd example_bn_layer) (nrows example_h).
Proof.
  refine (forward_returns_only_off_single_rows example_bn_layer example_h
            example_edges example_distances (Some example_mask) _ _ _).
  vm_compute. reflexivity.
Defined.

Lemma aggregated_is_sum_of_incoming_witness :
  exists h_i h_j msg : Tensor2 Z,
    gather example_h [(0, 1); (1, 1)].*2 = Ok h_i
    /\ gather example_h [(0, 1); (1, 1)].*1 = Ok h_j
    /\ EGNNLayer.message (example_layer aggr_add None) h_i h_j example_distances
       = Ok (msg, example_layer aggr_add None)
    /\ rows (mkTensor 1 [[0%Z]; [25%Z]]) !! 1
       = Some (foldl vadd (replicate (EGNNLayer.emb_dim (example_layer aggr_add None)) s_zero)
                 (received 1 [(0, 1); (1, 1)].*2 (rows msg))).
Proof.
  refine (aggregated_is_sum_of_incoming (example_layer aggr_add None) [(0, 1); (1, 1)]
            example_h example_distances (mkTensor 1 [[0%Z]; [25%Z]])
            (example_layer aggr_add None) 1 _ _ _ _).
  - apply example_layer_wf.
  - by left.
  - vm_compute. reflexivity.
  - unfold nrows. simpl. lia.
Defined.

Lemma RFF_forward_wrong_width_witness :
  exists rff : RFF.t Z,
    RFF.init ones 1 4 (Some 1%Z) = Ok rff
    /\ RFF.forward rff (Batch.pos example_batch) = Err RuntimeError.
Proof.
  eexists. split; [reflexivity|].
  refine (RFF_forward_wrong_width ones 1 4 1%Z _ (Batch.pos example_batch) _ _).
  - reflexivity.
  - simpl. lia.
Defined.

Lemma RFF_dim_needs_sigma_witness :
  EGNNLayer.init ones 1 "relu" "none" aggr_add (Some 4) None None = Err TypeError
  /\ EGNN_Full.init ones 2 1 1 1 "relu" "none" aggr_add "add" true (Some 4) None None
     = Err TypeError.
Proof.
  assert ("relu" ∈ ["swish"; "relu"]) as Hrelu by (by repeat constructor).
  assert ("none" ∈ ["layer"; "batch"; "none"]) as Hnone by (by repeat constructor).
  split.
  - exact (proj1 (RFF_dim_needs_sigma ones 1 2 1 1 4 "relu" "none" "add" aggr_add true None
                    Hrelu Hnone)).
  - refine (proj2 (RFF_dim_needs_sigma ones 1 2 1 1 4 "relu" "none" "add" aggr_add true None
                     Hrelu Hnone) _).
    lia.
Defined.

Lemma depth_zero_skips_layer_names_witness :
  exists m : EGNN_Full.t Z,
    EGNN_Full.init ones 0 1 1 1 "tanh" "instance" aggr_sum "add" true None None None = Ok m
    /\ EGNN_Full.convs m = [].
Proof.
  refine (depth_zero_skips_layer_names ones 1 1 1 "tanh" "instance" "add" aggr_sum true
            None None None _).
  by repeat constructor.
Defined.

Lemma single_graph_output_shape_witness :
  exists (out : Tensor2 Z) m',
    EGNN_Full.forward (example_model true) example_single_graph = Ok (out, m')
    /\ shape out = (1, EGNN_Full.out_features (example_model true)).
Proof.
  refine (single_graph_output_shape (example_model true) example_single_graph _ _ _).
  - apply example_model_wf.
  - apply example_single_graph_wf.
  - reflexivity.
Defined.

Lemma shapes_are_kept_witness :
  exists (out : Tensor2 Z) m',
    EGNN_Full.forward (example_model true) example_batch = Ok (out, m')
    /\ EGNN_Full_wf (example_model true)
    /\ length (EGNN_Full.convs (example_model true)) = 2
    /\ EGNN_Full_wf m' /\ length (EGNN_Full.convs m') = 2.
Proof.
  eexists _, _. split; [vm_compute; reflexivity|].
  refine (shapes_are_kept ones 2 1 1 1 "relu" "none" "add" aggr_sum true None None None
            (example_model true) example_batch _ _ _ _).
  - reflexivity.
  - vm_compute. reflexivity.
Defined.

Lemma forward_reflection_invariant_witness :
  EGNN_Full.forward (example_model true)
    (with_pos example_batch (reflect (Batch.pos example_batch)))
  = EGNN_Full.forward (example_model true) example_batch.
Proof.
  refine (forward_reflection_invariant (example_model true) example_batch _).
  intros a b. change ((0 - a - (0 - b)) * (0 - a - (0 - b)) = (a - b) * (a - b))%Z.
  replace (0 - a - (0 - b))%Z with (- (a - b))%Z by lia. apply Z.mul_opp_opp.
Defined.

Lemma eval_calls_do_not_interfere_witness :
  exists (out1 : Tensor2 Z) m1,
    EGNN_Full.forward (example_model true) example_batch = Ok (out1, m1)
    /\ EGNN_Full.forward m1 example_single_graph
       = EGNN_Full.forward (example_model true) example_single_graph.
Proof.
  eexists _, _. split; [vm_compute; reflexivity|].
  refine (eval_calls_do_not_interfere (example_model true) example_batch
            example_single_graph _ _ _ _ _).
  - repeat constructor; apply example_mlp_eval.
  - intros bn Hin. exfalso.
    repeat (apply elem_of_cons in Hin as [Heq|Hin]; [discriminate Heq|]).
    by apply elem_of_nil in Hin.
  - vm_compute. reflexivity.
Defined.

Lemma constructor_mask_is_dead_witness :
  exists m2 : EGNN_Full.t Z,
    EGNN_Full.init ones 2 1 1 1 "relu" "none" aggr_sum "add" true None None
      (Some example_mask) = Ok m2
    /\ fst <$> EGNN_Full.forward (example_model true) example_batch
       = fst <$> EGNN_Full.forward m2 example_batch.
Proof.
  eexists. split; [reflexivity|].
  refine (constructor_mask_is_dead ones 2 1 1 1 "relu" "none" "add" aggr_sum true None None
            None (Some example_mask) (example_model true) _ example_batch _ _).
  - reflexivity.
  - reflexivity.
Defined.

Lemma plain_keeps_masked_rows_witness :
  rows (mkTensor 1 [[44%Z]; [3%Z]]) !! 1 = rows example_h !! 1.
Proof.
  refine (plain_keeps_masked_rows (example_model false) example_batch example_mask 1
            example_h (mkTensor 1 [[44%Z]; [3%Z]]) _ _ _ _ _ _ _).
  - apply example_model_wf.
  - reflexivity.
  - reflexivity.
  - reflexivity.
  - reflexivity.
  - reflexivity.
  - vm_compute. reflexivity.
Defined.


Section InputExtras.
Context {R : Type} `{Scalar R}.
Implicit Types (l : EGNNLayer.t R) (m : EGNN_Full.t R) (batch : Batch.t R).
Implicit Types (h d out : Tensor2 R) (ei : EdgeIndex).

(** With the mean aggregation the vector a node is handed is the sum of the
    messages of the edges that point to it, each entry divided by the number
    of these edges, and by 1 when there is none. *)
Theorem aggregated_mean_is_average l ei h d (aggr_out : Tensor2 R) l1 (v : nat) :
  EGNNLayer_wf l ->
  EGNNLayer.aggr l = aggr_mean ->
  EGNNLayer.aggregated l ei h d = Ok (aggr_out, l1) ->
  v < nrows h ->
  exists h_i h_j msg,
    gather h ei.*2 = Ok h_i /\ gather h ei.*1 = Ok h_j
    /\ EGNNLayer.message l h_i h_j d = Ok (msg, l1)
    /\ rows aggr_out !! v
       = Some ((fun a => s_div a (s_of_nat (count_index ei.*2 v `max` 1)))
                 <$> foldl vadd (replicate (EGNNLayer.emb_dim l) s_zero)
                       (received v ei.*2 (rows msg))).
Proof.
  intros Hwf Hag Ha Hv. unfold EGNNLayer.aggregated in Ha.
  apply bind_Ok in Ha as (h_i & Hi & Ha).
  apply bind_Ok in Ha as (h_j & Hj & Ha).
  apply bind_Ok in Ha as ([msg l0] & Hm & Ha).
  apply bind_Ok in Ha as (ag & Hs & Ha). injection Ha as <- <-.
  exists h_i, h_j, msg. do 3 (split; [done|]).
  pose proof Hi as Hi'. apply gather_Ok in Hi' as (_ & Hni & _).
  rewrite length_fmap in Hni.
  pose proof Hm as Hm'.
  apply message_Ok in Hm' as (_ & Hnm & Hcm & _ & Hsame & _); [|done].
  destruct Hsame as (_ & _ & _ & Haggr & _).
  unfold EGNNLayer.aggregate, scatter in Hs.
  rewrite expand_as_same in Hs by (rewrite length_fmap; congruence).
  apply bind_Ok in Hs as (idx & [= <-] & Hs).
  rewrite Haggr, Hag in Hs. simpl in Hs.
  apply bind_Ok in Hs as (res & Hres & Hs). injection Hs as <-. simpl.
  rewrite list_lookup_imap.
  erewrite scatter_add_lookup; [|exact Hres|].
  - simpl. by rewrite <- Hcm.
  - simpl. by apply lookup_replicate_2.
Qed.

(** The node features are checked first: a feature matrix whose width is not
    [node_features] makes [forward] raise at the input layer, whatever the
    rest of the batch is. *)
Theorem forward_wrong_feature_width m batch :
  EGNN_Full_wf m ->
  ncols (Batch.x batch) ≠ EGNN_Full.node_features m ->
  EGNN_Full.forward m batch = Err RuntimeError.
Proof.
  intros (Hemb & _) Hx. simpl in Hemb. injection Hemb as Hin _ _.
  unfold in_features in Hin.
  unfold EGNN_Full.forward, EGNN_Full.forward_traced, Linear_forward, F_linear.
  rewrite bool_decide_eq_false_2 by congruence. done.
Qed.

(** An edge that names a node without a position makes [forward] raise the
    index error when the distances are computed, before any layer runs. *)
Theorem forward_edge_without_position m batch :
  EGNN_Full_wf m ->
  ncols (Batch.x batch) = EGNN_Full.node_features m ->
  Exists (fun e : nat * nat => nrows (Batch.pos batch) <= e.1 \/ nrows (Batch.pos batch) <= e.2)
    (Batch.edge_index batch) ->
  EGNN_Full.forward m batch = Err IndexError.
Proof.
  intros (Hemb & _) Hx Hex. simpl in Hemb. injection Hemb as Hin Hout Hbias.
  unfold in_features, out_features in Hin, Hout.
  destruct (F_linear_total (Batch.x batch) (weight (EGNN_Full.emb_in m))
              (Some (bias (EGNN_Full.emb_in m)))) as [h0 Hh0]; [congruence|simpl; congruence|].
  unfold EGNN_Full.forward, EGNN_Full.forward_traced, Linear_forward.
  rewrite Hh0. simpl.
  assert (EGNN_Full.edge_distances (Batch.pos batch) (Batch.edge_index batch)
          = Err IndexError) as ->; [|done].
  unfold EGNN_Full.edge_distances, gather.
  destruct (index_select (rows (Batch.pos batch)) (Batch.edge_index batch).*1)
    as [rs1|e1] eqn:H1.
  - destruct (index_select (rows (Batch.pos batch)) (Batch.edge_index batch).*2)
      as [rs2|e2] eqn:H2.
    + exfalso. apply Exists_exists in Hex as ([a b] & Hin' & Hor). simpl in Hor.
      destruct Hor as [Ha|Hb].
      * rewrite index_select_out_of_range in H1; [done|].
        apply Exists_exists. exists a. split; [|done].
        apply list_elem_of_fmap. by exists (a, b).
      * rewrite index_select_out_of_range in H2; [done|].
        apply Exists_exists. exists b. split; [|done].
        apply list_elem_of_fmap. by exists (a, b).
    + apply index_select_Err in H2 as ->. done.
  - apply index_select_Err in H1 as ->. done.
Qed.

End InputExtras.

Lemma aggregated_mean_is_average_witness :
  exists h_i h_j msg : Tensor2 Z,
    gather example_h [(0, 1); (1, 1)].*2 = Ok h_i
    /\ gather example_h [(0, 1); (1, 1)].*1 = Ok h_j
    /\ EGNNLayer.message (example_layer aggr_mean None) h_i h_j example_distances
       = Ok (msg, example_layer aggr_mean None)
    /\ rows (mkTensor 1 [[0%Z]; [12%Z]]) !! 1
       = Some ((fun a => s_div a (s_of_nat (count_index [(0, 1); (1, 1)].*2 1 `max` 1)))
                 <$> foldl vadd
                       (replicate (EGNNLayer.emb_dim (example_layer aggr_mean None)) s_zero)
                       (received 1 [(0, 1); (1, 1)].*2 (rows msg))).
Proof.
  refine (aggregated_mean_is_average (example_layer aggr_mean None) [(0, 1); (1, 1)]
            example_h example_distances (mkTensor 1 [[0%Z]; [12%Z]])
            (example_layer aggr_mean None) 1 _ _ _ _).
  - apply example_layer_wf.
  - reflexivity.
  - vm_compute. reflexivity.
  - unfold nrows. simpl. lia.
Defined.

Lemma forward_wrong_feature_width_witness :
  EGNN_Full.forward (example_model true)
    (Batch.mk (mkTensor 2 [[1%Z; 1%Z]; [2%Z; 2%Z]]) (Batch.pos example_batch) example_edges
       None None)
  = Err RuntimeError.
Proof.
  refine (forward_wrong_feature_width (example_model true) _ _ _).
  - apply example_model_wf.
  - simpl. lia.
Defined.

Lemma forward_edge_without_position_witness :
  EGNN_Full.forward (example_model true)
    (Batch.mk (Batch.x example_batch) (Batch.pos example_batch) [(0, 1); (2, 0)] None None)
  = Err IndexError.
Proof.
  refine (forward_edge_without_position (example_model true) _ _ _ _).
  - apply example_model_wf.
  - reflexivity.
  - apply Exists_cons_tl, Exists_cons_hd. left. unfold nrows. simpl. lia.
Defined.
